(** * A to-do list kept as a linked list with a hash index

    Verification development for the two programs of the repository:
    [projecttt.cpp] (free functions over [struct ToDoData], with undo and
    persistence) and the [ToDoList] class of the second source file.

    The embedding keeps the pointer structure of the programs.  Nodes live
    in a free store ([gmap] from addresses to [Node] records), the list is
    the chain of [next] pointers starting at [head], and the hash table maps
    identifiers to node addresses, so that a write through the table is seen
    by a traversal of the list.  Loops over the chain are written with fuel;
    the fuel handed to them is the number of allocated nodes plus one, which
    is enough for every chain that is not a cycle. *)

From Stdlib Require Import ZArith String Ascii List Lia Bool.
From stdpp Require Import base option list gmap strings sorting.

Local Open Scope Z_scope.

(** ** The C++ primitives the programs use *)

Module Cxx.

(** [int] is a 32-bit signed integer.  Signed overflow is undefined
    behaviour in C++: arithmetic on [int] is partial here, and an operation
    whose result leaves the range yields [None]. *)
Definition INT_MAX : Z := 2147483647.
Definition INT_MIN : Z := -2147483648.

Definition in_int (z : Z) : bool := (INT_MIN <=? z) && (z <=? INT_MAX).

Definition int_add (a b : Z) : option Z :=
  if in_int (a + b) then Some (a + b) else None.

Definition int_sub (a b : Z) : option Z :=
  if in_int (a - b) then Some (a - b) else None.

(** The exceptions [std::stoi] throws. *)
Inductive exception : Type :=
| invalid_argument
| out_of_range.

(** [std::string::empty]. *)
Definition empty (s : string) : bool :=
  match s with
  | EmptyString => true
  | String _ _ => false
  end.

(** Characters used by the file format. *)
Definition pipe : ascii := "|"%char.
Definition newline : ascii := "010"%char.
Definition space : ascii := " "%char.

(** [s.find(c, from)]: the position of the first [c] at or after [from];
    [None] stands for [std::string::npos]. *)
Fixpoint find_from (c : ascii) (from : nat) (s : string) : option nat :=
  match s with
  | EmptyString => None
  | String a r =>
      match from with
      | O => if Ascii.eqb a c then Some O else S <$> find_from c O r
      | S k => S <$> find_from c k r
      end
  end.

(** [p + 1] on a [size_t] position: [npos] is the largest value of the
    type, so [npos + 1] wraps around to [0]. *)
Definition pos_succ (p : option nat) : nat :=
  match p with
  | None => O
  | Some k => S k
  end.

(** [s.substr(pos, n)] and [s.substr(pos)], for [pos <= s.size()], which is
    the only way the programs call them. *)
Definition substr (s : string) (pos n : nat) : string := String.substring pos n s.

Definition substr_from (s : string) (pos : nat) : string :=
  String.substring pos (String.length s - pos) s.

(** Decimal digits. *)
Definition is_digit (a : ascii) : bool :=
  let n := nat_of_ascii a in (48 <=? n)%nat && (n <=? 57)%nat.

Definition digit_val (a : ascii) : Z := Z.of_nat (nat_of_ascii a) - 48.

Definition digit_char (d : Z) : ascii := ascii_of_nat (Z.to_nat (48 + d)).

(** [isspace] in the C locale: space, and the control characters from
    horizontal tab (9) to carriage return (13). *)
Definition is_space (a : ascii) : bool :=
  let n := nat_of_ascii a in
  (n =? 32)%nat || ((9 <=? n)%nat && (n <=? 13)%nat).

(** The digits at the front of [s], read as a number, started from [acc];
    what follows the digits is ignored, as [strtol] does. *)
Fixpoint read_digits (acc : Z) (s : string) : Z :=
  match s with
  | EmptyString => acc
  | String a r =>
      if is_digit a then read_digits (10 * acc + digit_val a) r else acc
  end.

Definition starts_with_digit (s : string) : bool :=
  match s with
  | EmptyString => false
  | String a _ => is_digit a
  end.

Fixpoint skip_spaces (s : string) : string :=
  match s with
  | EmptyString => EmptyString
  | String a r => if is_space a then skip_spaces r else s
  end.

(** The result of [std::stoi]. *)
Inductive stoi_result : Type :=
| Value (z : Z)
| Raise (e : exception).

(** The sign in front of the digits, and what follows it. *)
Definition split_sign (t : string) : bool * string :=
  match t with
  | String "-"%char r => (true, r)
  | String "+"%char r => (false, r)
  | _ => (false, t)
  end.

(** [std::stoi(s)]: skip leading white space, read an optional sign and
    the decimal digits that follow; no digit at all throws
    [std::invalid_argument], a value that does not fit an [int] throws
    [std::out_of_range]; anything after the digits is ignored. *)
Definition stoi (s : string) : stoi_result :=
  let '(neg, u) := split_sign (skip_spaces s) in
  if starts_with_digit u then
    let v := read_digits 0 u in
    let z := if neg then - v else v in
    if in_int z then Value z else Raise out_of_range
  else Raise invalid_argument.

(** The decimal digits of a natural number, most significant first, put in
    front of [acc]. *)
Fixpoint put_digits (fuel : nat) (n : Z) (acc : string) : string :=
  match fuel with
  | O => acc
  | S f =>
      let acc' := String (digit_char (n mod 10)) acc in
      if n <? 10 then acc' else put_digits f (n / 10) acc'
  end.

(** What [operator<<] writes for an [int]: the decimal digits, after a
    minus sign for a negative number.  A number below [2^k] has at most [k]
    digits, which bounds the fuel. *)
Definition to_string (z : Z) : string :=
  let n := Z.abs z in
  let ds := put_digits (S (Z.to_nat (Z.log2 n))) n EmptyString in
  if z <? 0 then String "-"%char ds else ds.

(** [std::getline] applied until it fails: the lines of a text.  Each
    newline ends a line, and characters after the last newline make a last
    line; nothing after the last newline makes none. *)
Fixpoint getlines (cur : string) (s : string) : list string :=
  match s with
  | EmptyString => if empty cur then [] else [cur]
  | String a r =>
      if Ascii.eqb a newline then cur :: getlines EmptyString r
      else getlines (cur +:+ String a EmptyString) r
  end.

(** All characters of a text satisfy [P]. *)
Fixpoint string_forall (P : ascii → bool) (s : string) : bool :=
  match s with
  | EmptyString => true
  | String a r => P a && string_forall P r
  end.

(** The number of occurrences of a character in a text. *)
Fixpoint count_char (c : ascii) (s : string) : nat :=
  match s with
  | EmptyString => O
  | String a r => (if Ascii.eqb a c then 1 else 0) + count_char c r
  end.

(** A line of four fields. *)
Definition fields (f1 f2 f3 f4 : string) : string :=
  f1 +:+ String pipe (f2 +:+ String pipe (f3 +:+ String pipe f4)).

(** The newline that ends a record, as a text. *)
Definition endl : string := String newline EmptyString.

End Cxx.

(** ** Linked nodes in a free store *)

Module Linked.

(** Addresses of allocated nodes; a pointer is an address or [nullptr]. *)
Abbreviation loc := positive.
Abbreviation ptr := (option positive).

(** The data of a task: a node without its link. *)
Record task : Type := Task {
  task_id : Z;
  task_description : string;
  task_priority : Z;
  task_completed : bool
}.

(** Both programs declare a [Node] with the fields of a task and a [next]
    pointer, and run the same loops over it. *)
Class Linkable (N : Type) : Type := {
  next : N → ptr;
  set_next : ptr → N → N;
  task_of : N → task;
  next_set_next : ∀ p n, next (set_next p n) = p;
  task_of_set_next : ∀ p n, task_of (set_next p n) = task_of n
}.

Section Loops.
Context {N : Type} {LN : Linkable N}.

(** Fuel for a loop over the chain: one more than the number of allocated
    nodes. *)
Definition fuel (m : gmap loc N) : nat := S (size m).

(** [new Node{...}]: a node at an address that is not allocated. *)
Definition new (n : N) (m : gmap loc N) : loc * gmap loc N :=
  let a := fresh (dom m) in (a, <[a := n]> m).

(** [while (cur->next) cur = cur->next;] *)
Fixpoint last_node (k : nat) (m : gmap loc N) (cur : loc) : option loc :=
  match k with
  | O => None
  | S k' =>
      n ← m !! cur;
      match next n with
      | None => Some cur
      | Some nx => last_node k' m nx
      end
  end.

(** [cur = head; while (cur) { ...; cur = cur->next; }]: the nodes met, in
    order. *)
Fixpoint walk (k : nat) (m : gmap loc N) (cur : ptr) : option (list N) :=
  match cur with
  | None => Some []
  | Some c =>
      match k with
      | O => None
      | S k' => n ← m !! c; (n ::.) <$> walk k' m (next n)
      end
  end.

(** The list append of [addTask] and [loadFromFile]: [n] becomes the head
    of an empty list, and the successor of the last node otherwise. *)
Definition link_last (m : gmap loc N) (hd : ptr) (n : loc)
  : option (gmap loc N * ptr) :=
  match hd with
  | None => Some (m, Some n)
  | Some h =>
      cur ← last_node (fuel m) m h;
      Some (alter (set_next (Some n)) cur m, hd)
  end.

(** [chain m p l]: following [next] from [p] in the store [m] meets the
    addresses of [l] in order, with the task data of [l], and then
    [nullptr]. *)
Fixpoint chain (m : gmap loc N) (p : ptr) (l : list (loc * task)) : Prop :=
  match l with
  | [] => p = None
  | (a, t) :: r =>
      p = Some a ∧ ∃ n, m !! a = Some n ∧ task_of n = t ∧ chain m (next n) r
  end.

(** A node at [a] carrying the task [t]. *)
Definition cell (m : gmap loc N) (a : loc) (t : task) : Prop :=
  ∃ n, m !! a = Some n ∧ task_of n = t.

End Loops.

(** The list after a write to the node at [a], which now carries [t']. *)
Definition upd (a : loc) (t' : task) (x : loc * task) : loc * task :=
  if decide (x.1 = a) then (a, t') else x.

End Linked.

(** ** projecttt.cpp *)

Module Projecttt.
Import Cxx.
Import Linked(loc, ptr, task, Task, task_id, task_description, task_priority,
              task_completed, fuel, new, last_node, walk, link_last, chain,
              cell, upd).

(** [struct Node]. *)
Record Node : Type := mkNode {
  id : Z;
  description : string;
  priority : Z;
  completed : bool;
  next : ptr
}.

(** [struct ToDoData], as constructed by [ToDoData()]. *)
Record ToDoData : Type := mkData {
  head : ptr;
  taskMap : gmap Z loc;
  deletedStack : list loc;
  nextId : Z;
  totalTasks : Z
}.

(** The free store holding the nodes, together with the structure that
    points into it. *)
Record world : Type := World {
  store : gmap loc Node;
  data : ToDoData
}.

Definition initial : world :=
  World ∅ (mkData None ∅ [] 1 0).

(** Field assignments through a [Node*]. *)
Definition set_next (p : ptr) (n : Node) : Node :=
  mkNode (id n) (description n) (priority n) (completed n) p.

Definition set_description (d : string) (n : Node) : Node :=
  mkNode (id n) d (priority n) (completed n) (next n).

Definition set_priority (p : Z) (n : Node) : Node :=
  mkNode (id n) (description n) p (completed n) (next n).

Definition set_completed (c : bool) (n : Node) : Node :=
  mkNode (id n) (description n) (priority n) c (next n).

Definition task_of (n : Node) : task :=
  Task (id n) (description n) (priority n) (completed n).

#[export] Instance Node_linkable : Linked.Linkable Node :=
  Linked.Build_Linkable Node next set_next task_of
    (λ _ _, eq_refl) (λ _ _, eq_refl).

(** What the functions write to [cout], one constructor per line of text:
    - [MsgDescEmpty]: "Description cannot be empty!"
    - [MsgAdded i]: "Task added with ID: i"
    - [MsgNotFound]: "Task not found!"
    - [MsgCurrentDescription d], [MsgPromptDescription],
      [MsgCurrentPriority p], [MsgPromptPriority]: the prompts of [editTask]
    - [MsgInvalidInput]: "Invalid input. Priority unchanged."
    - [MsgInvalidPriority]: "Invalid priority. Keeping old value."
    - [MsgUpdated i]: "Task i updated."
    - [MsgDeleted]: "Task deleted (you can undo it)."
    - [MsgNothingToUndo]: "No deleted task to undo."
    - [MsgRestored i]: "Task i restored."
    - [MsgTaskFound i d p c]: the block printed by [searchTask]
    - [MsgMarked i done]: "Task i completed." or "Task i marked incomplete."
    - [MsgNoTasks]: "No tasks available."
    - [MsgListHeader], [MsgTaskRow c i d p], [MsgListFooter]: [printAll]
    - [MsgSaveFailed]: "Unable to open file for saving."
    - [MsgSaved]: "Tasks saved to 'filename'." *)
Inductive message : Type :=
| MsgDescEmpty
| MsgAdded (i : Z)
| MsgNotFound
| MsgCurrentDescription (d : string)
| MsgPromptDescription
| MsgCurrentPriority (p : Z)
| MsgPromptPriority
| MsgInvalidInput
| MsgInvalidPriority
| MsgUpdated (i : Z)
| MsgDeleted
| MsgNothingToUndo
| MsgRestored (i : Z)
| MsgTaskFound (i : Z) (d : string) (p : Z) (c : bool)
| MsgMarked (i : Z) (done : bool)
| MsgNoTasks
| MsgListHeader
| MsgTaskRow (c : bool) (i : Z) (d : string) (p : Z)
| MsgListFooter
| MsgSaveFailed
| MsgSaved.

(** How a call ends: it returns, having written [out] and left the world
    [w]; or an exception leaves it, the world being as it was when the
    exception was thrown; or its behaviour is undefined (signed overflow, a
    pointer that is not allocated) or it does not return (a loop that ran
    out of fuel). *)
Inductive outcome : Type :=
| Returns (out : list message) (w : world)
| Throws (e : exception) (w : world)
| Undefined.

Definition run (o : option outcome) : outcome := default Undefined o.

(** [while (cur && cur->id != id) { prev = cur; cur = cur->next; }]: the
    values of [prev] and [cur] when the loop ends. *)
Fixpoint find_node (k : nat) (m : gmap loc Node) (tid : Z) (prev cur : ptr)
  : option (ptr * ptr) :=
  match cur with
  | None => Some (prev, None)
  | Some c =>
      match k with
      | O => None
      | S k' =>
          n ← m !! c;
          if id n =? tid then Some (prev, cur)
          else find_node k' m tid cur (next n)
      end
  end.

Definition addTask (w : world) (desc : string) (priority : Z) : outcome :=
  if empty desc then Returns [MsgDescEmpty] w
  else
    let d := data w in
    let pr := if (priority <? 1) || (priority >? 5) then 1 else priority in
    let '(newNode, m) := new (mkNode (nextId d) desc pr false None) (store w) in
    run ('(m', hd) ← link_last m (head d) newNode;
         nid ← int_add (nextId d) 1;
         tot ← int_add (totalTasks d) 1;
         Some (Returns [MsgAdded (nextId d)]
                 (World m' (mkData hd (<[nextId d := newNode]> (taskMap d))
                              (deletedStack d) nid tot)))).

(** [editTask] reads a line with [getline] and an [int] with [cin >>]:
    [newDesc] is the line, and [newPrio] the number read, [None] when the
    extraction fails. *)
Definition editTask (w : world) (tid : Z) (newDesc : string) (newPrio : option Z)
  : outcome :=
  let d := data w in
  match taskMap d !! tid with
  | None => Returns [MsgNotFound] w
  | Some t =>
      run (n ← store w !! t;
           let n1 := if empty newDesc then n else set_description newDesc n in
           let '(n2, report) :=
             match newPrio with
             | None => (n1, [MsgInvalidInput])
             | Some v =>
                 if (1 <=? v) && (v <=? 5) then (set_priority v n1, [])
                 else if negb (v =? 0) then (n1, [MsgInvalidPriority])
                 else (n1, [])
             end in
           Some (Returns ([MsgCurrentDescription (description n);
                           MsgPromptDescription;
                           MsgCurrentPriority (priority n1);
                           MsgPromptPriority]
                          ++ report ++ [MsgUpdated tid])
                   (World (<[t := n2]> (store w)) d)))
  end.

Definition deleteTask (w : world) (tid : Z) : outcome :=
  let d := data w in
  match taskMap d !! tid with
  | None => Returns [MsgNotFound] w
  | Some _ =>
      run ('(prev, cur) ← find_node (fuel (store w)) (store w) tid None (head d);
           match cur with
           | None => Some (Returns [] w)
           | Some c =>
               n ← store w !! c;
               let '(m1, hd) :=
                 match prev with
                 | None => (store w, next n)
                 | Some p => (alter (set_next (next n)) p (store w), head d)
                 end in
               let '(copyNode, m2) :=
                 new (mkNode (id n) (description n) (priority n) (completed n) None)
                     m1 in
               tot ← int_sub (totalTasks d) 1;
               Some (Returns [MsgDeleted]
                       (World (delete c m2)
                          (mkData hd (delete tid (taskMap d))
                             (copyNode :: deletedStack d) (nextId d) tot)))
           end)
  end.

Definition undoDelete (w : world) : outcome :=
  let d := data w in
  match deletedStack d with
  | [] => Returns [MsgNothingToUndo] w
  | restored :: rest =>
      run (n ← store w !! restored;
           tot ← int_add (totalTasks d) 1;
           nid ← int_add (id n) 1;
           Some (Returns [MsgRestored (id n)]
                   (World (<[restored := set_next (head d) n]> (store w))
                      (mkData (Some restored) (<[id n := restored]> (taskMap d))
                         rest (Z.max (nextId d) nid) tot))))
  end.

Definition searchTask (w : world) (tid : Z) : outcome :=
  match taskMap (data w) !! tid with
  | None => Returns [MsgNotFound] w
  | Some t =>
      run (n ← store w !! t;
           Some (Returns [MsgTaskFound (id n) (description n) (priority n)
                            (completed n)] w))
  end.

Definition markComplete (w : world) (tid : Z) (done : bool) : outcome :=
  match taskMap (data w) !! tid with
  | None => Returns [MsgNotFound] w
  | Some t =>
      run (n ← store w !! t;
           Some (Returns [MsgMarked tid done]
                   (World (<[t := set_completed done n]> (store w)) (data w))))
  end.

(** The tasks in display order: the traversal from [head] that [printAll],
    [saveToFile] and [printToOutputFile] run. *)
Definition listAll (w : world) : option (list Node) :=
  walk (fuel (store w)) (store w) (head (data w)).

Definition row (n : Node) : message :=
  MsgTaskRow (completed n) (id n) (description n) (priority n).

Definition printAll (w : world) : outcome :=
  match head (data w) with
  | None => Returns [MsgNoTasks] w
  | Some _ =>
      run (l ← listAll w;
           Some (Returns ([MsgListHeader] ++ map row l ++ [MsgListFooter]) w))
  end.

(** [saveToFile] replaces every ['|'] of a description by a space:
    [while ((pos = desc.find('|')) != npos) desc.replace(pos, 1, " ");] *)
Fixpoint replace_at (pos : nat) (s : string) : string :=
  match s with
  | EmptyString => EmptyString
  | String a r =>
      match pos with
      | O => String space r
      | S k => String a (replace_at k r)
      end
  end.

Fixpoint sanitize_loop (k : nat) (desc : string) : string :=
  match k with
  | O => desc
  | S k' =>
      match find_from pipe 0 desc with
      | None => desc
      | Some pos => sanitize_loop k' (replace_at pos desc)
      end
  end.

(** Each round removes one ['|'], so the length of the text bounds the
    number of rounds. *)
Definition sanitize (desc : string) : string :=
  sanitize_loop (String.length desc) desc.

(** The line [saveToFile] writes for a node. *)
Definition record_line (n : Node) : string :=
  to_string (id n) +:+ String pipe (sanitize (description n))
  +:+ String pipe (to_string (priority n))
  +:+ String pipe (if completed n then "1" else "0")
  +:+ String newline EmptyString.

Definition file_text (l : list Node) : string :=
  fold_right (fun n t => record_line n +:+ t) EmptyString l.

(** [saveToFile]: [opened] tells whether the file could be opened; the
    result is the outcome and the text written to the file, if any. *)
Definition saveToFile (w : world) (opened : bool) : outcome * option string :=
  if opened then
    match listAll w with
    | Some l => (Returns [MsgSaved] w, Some (file_text l))
    | None => (Undefined, None)
    end
  else (Returns [MsgSaveFailed] w, None).

(** The end of a round of the loop of [loadFromFile]: the node for a
    parsed record is allocated, linked behind the last node and entered in
    the table, and the counters are updated. *)
Definition insert_record (w : world) (tid : Z) (desc : string) (prio done : Z)
  : outcome :=
  let d := data w in
  let '(n, m) := new (mkNode tid desc prio (negb (done =? 0)) None) (store w) in
  run ('(m', hd) ← link_last m (head d) n;
       nid ← int_add tid 1;
       tot ← int_add (totalTasks d) 1;
       Some (Returns []
               (World m' (mkData hd (<[tid := n]> (taskMap d)) (deletedStack d)
                            (Z.max (nextId d) nid) tot)))).

(** One round of the loop of [loadFromFile], for the line just read. *)
Definition load_line (w : world) (line : string) : outcome :=
  if empty line then Returns [] w
  else
    let p1 := find_from pipe 0 line in
    let p2 := find_from pipe (pos_succ p1) line in
    let p3 := find_from pipe (pos_succ p2) line in
    match p1, p2, p3 with
    | Some q1, Some q2, Some q3 =>
        match stoi (substr line 0 q1) with
        | Raise e => Throws e w
        | Value tid =>
            let desc := substr line (q1 + 1) (q2 - q1 - 1) in
            match stoi (substr line (q2 + 1) (q3 - q2 - 1)) with
            | Raise e => Throws e w
            | Value prio =>
                match stoi (substr_from line (q3 + 1)) with
                | Raise e => Throws e w
                | Value done => insert_record w tid desc prio done
                end
            end
        end
    | _, _, _ => Returns [] w
    end.

(** The loop over the lines: an exception or undefined behaviour ends it
    with the lines before already inserted. *)
Fixpoint load_lines (w : world) (lines : list string) : outcome :=
  match lines with
  | [] => Returns [] w
  | line :: rest =>
      match load_line w line with
      | Returns _ w' => load_lines w' rest
      | o => o
      end
  end.

(** [loadFromFile]: [file] is the text of the file, [None] when it cannot
    be opened. *)
Definition loadFromFile (w : world) (file : option string) : outcome :=
  match file with
  | None => Returns [] w
  | Some text => load_lines w (getlines EmptyString text)
  end.

(** *** Tasks, and sequences of calls *)

(** The tasks in display order. *)
Definition tasks (w : world) : option (list task) :=
  option_map (map task_of) (listAll w).

(** The calls the menu of [main] makes, with their arguments. *)
Inductive op : Type :=
| OpLoad (file : option string)
| OpAdd (desc : string) (priority : Z)
| OpEdit (tid : Z) (newDesc : string) (newPrio : option Z)
| OpDelete (tid : Z)
| OpUndo
| OpMark (tid : Z) (done : bool)
| OpSearch (tid : Z)
| OpPrintAll.

Definition perform (w : world) (o : op) : outcome :=
  match o with
  | OpLoad file => loadFromFile w file
  | OpAdd desc priority => addTask w desc priority
  | OpEdit tid newDesc newPrio => editTask w tid newDesc newPrio
  | OpDelete tid => deleteTask w tid
  | OpUndo => undoDelete w
  | OpMark tid done => markComplete w tid done
  | OpSearch tid => searchTask w tid
  | OpPrintAll => printAll w
  end.

(** A sequence of calls that all return: what they write and the world
    they leave. *)
Fixpoint exec (w : world) (ops : list op) : option (list message * world) :=
  match ops with
  | [] => Some ([], w)
  | o :: rest =>
      match perform w o with
      | Returns out w' =>
          '(out', w'') ← exec w' rest; Some (out ++ out', w'')
      | _ => None
      end
  end.

(** The identifiers [addTask] announced in an output. *)
Definition issued (out : list message) : list Z :=
  omap (λ m, match m with MsgAdded i => Some i | _ => None end) out.

(** The priority [editTask] leaves in the node. *)
Definition edited_priority (old : Z) (newPrio : option Z) : Z :=
  match newPrio with
  | Some v => if (1 <=? v) && (v <=? 5) then v else old
  | None => old
  end.

(** What [editTask] says about the number read. *)
Definition edit_report (newPrio : option Z) : list message :=
  match newPrio with
  | None => [MsgInvalidInput]
  | Some v =>
      if (1 <=? v) && (v <=? 5) then []
      else if negb (v =? 0) then [MsgInvalidPriority] else []
  end.

(** The priority [addTask] stores for the argument [p]. *)
Definition stored_priority (p : Z) : Z :=
  if (p <? 1) || (p >? 5) then 1 else p.

(** A call of [addTask] for a description and a priority. *)
Definition add_op (x : string * Z) : op := OpAdd x.1 x.2.

(** The worlds a program can be in: those that calls which return lead to
    from the empty structure. *)
Definition reachable (w : world) : Prop :=
  ∃ ops out, exec initial ops = Some (out, w).

(** The invariant of every reachable world: [l] is the live list and [sl]
    the undo history. *)
Record Inv (w : world) (l sl : list (loc * task)) : Prop := mkInv {
  inv_chain : chain (store w) (head (data w)) l;
  inv_stack : deletedStack (data w) = sl.*1;
  inv_cells : ∀ a t, (a, t) ∈ sl → cell (store w) a t;
  inv_nodup : NoDup ((l ++ sl).*1);
  inv_dom : ∀ a, is_Some (store w !! a) → a ∈ (l ++ sl).*1;
  inv_map : ∀ i a, taskMap (data w) !! i = Some a →
                   ∃ t, (a, t) ∈ l ∧ task_id t = i;
  inv_ids : ∀ a t, (a, t) ∈ l ++ sl →
                   INT_MIN ≤ task_id t < nextId (data w) ∧
                   in_int (task_priority t) = true;
  inv_next : 1 ≤ nextId (data w) ≤ INT_MAX;
  inv_total : totalTasks (data w) = Z.of_nat (length l) ∧
              totalTasks (data w) ≤ INT_MAX
}.

(** The line of a node without the newline that ends it. *)
Definition record_body (n : Node) : string :=
  fields (to_string (id n)) (sanitize (description n))
    (to_string (priority n)) (if completed n then "1" else "0").

(** A node whose description holds neither ['|'] nor a newline. *)
Definition plain (n : Node) : Prop :=
  find_from pipe 0 (description n) = None ∧
  find_from newline 0 (description n) = None.

(** The identifier of the record a line holds, for the lines that
    [loadFromFile] does not skip and whose first field is a number. *)
Definition line_id (line : string) : option Z :=
  if empty line then None
  else
    let p1 := find_from pipe 0 line in
    let p2 := find_from pipe (pos_succ p1) line in
    let p3 := find_from pipe (pos_succ p2) line in
    match p1, p2, p3 with
    | Some q1, Some _, Some _ =>
        match stoi (substr line 0 q1) with
        | Value tid => Some tid
        | Raise _ => None
        end
    | _, _, _ => None
    end.

Definition file_ids (text : string) : list Z :=
  omap line_id (getlines EmptyString text).

(** Some allocated node, live or in the undo history, has identifier [i]. *)
Definition id_known (w : world) (i : Z) : Prop :=
  ∃ a n, store w !! a = Some n ∧ id n = i.

(** The records of a file have identifiers that differ from each other and
    from those of every task of the world. *)
Definition distinct_file (w : world) (file : option string) : Prop :=
  match file with
  | None => True
  | Some text =>
      NoDup (file_ids text) ∧ ∀ i, i ∈ file_ids text → ¬ id_known w i
  end.

(** Every file loaded during a run of calls is such a file for the world
    it is loaded into. *)
Fixpoint loads_distinct (w : world) (ops : list op) : Prop :=
  match ops with
  | [] => True
  | o :: rest =>
      match o with
      | OpLoad file => distinct_file w file
      | _ => True
      end ∧
      match perform w o with
      | Returns _ w' => loads_distinct w' rest
      | _ => True
      end
  end.

(** The identifiers of a list of nodes. *)
Definition ids_of (l : list (loc * task)) : list Z := (λ x, task_id x.2) <$> l.

(** The invariant of the worlds whose tasks, live or deleted, have distinct
    identifiers. *)
Definition SInv (w : world) (l sl : list (loc * task)) : Prop :=
  Inv w l sl ∧ NoDup (ids_of (l ++ sl)) ∧
  ∀ a t, (a, t) ∈ l → taskMap (data w) !! task_id t = Some a.

(** The sequence and the index hold the same tasks: every node of the
    list is in the table under its identifier, and every entry of the table
    is a node of the list with that identifier. *)
Definition consistent (w : world) : Prop :=
  ∃ l, chain (store w) (head (data w)) l ∧
       (∀ a t, (a, t) ∈ l → taskMap (data w) !! task_id t = Some a) ∧
       (∀ i a, taskMap (data w) !! i = Some a →
               ∃ t, (a, t) ∈ l ∧ task_id t = i).

(** *** Texts and worlds used as examples *)

(** A file with two records of identifier 1. *)
Definition twice_1 : string :=
  "1|a|1|0" +:+ endl +:+ "1|b|1|0" +:+ endl.

(** A file with two records of different identifiers. *)
Definition two_records : string :=
  "1|a|1|0" +:+ endl +:+ "2|b|5|1" +:+ endl.

(** A file whose second line has no number in front. *)
Definition bad_second_line : string :=
  "1|a|1|0" +:+ endl +:+ "abc|d|2|0" +:+ endl +:+ "3|c|1|0" +:+ endl.

(** A description of two lines. *)
Definition two_line_description : string := "a" +:+ endl +:+ "b".

(** The world after two tasks were added, the first completed, and the
    second deleted and restored. *)
Definition sample_ops : list op :=
  [OpAdd "pay rent" 5; OpAdd "call home" 0; OpMark 1 true; OpDelete 2; OpUndo].

Definition sample_world : world :=
  Eval vm_compute in
    match exec initial sample_ops with
    | Some (_, w) => w
    | None => initial
    end.

End Projecttt.

(** ** The [ToDoList] class of the second source file *)

Module ToDoList.
Import Cxx.
Import Linked(loc, ptr, task, Task, task_id, task_description, task_priority,
              task_completed, fuel, new, last_node, walk, link_last, chain,
              cell, upd).

(** [class Node]; the constructor [Node(id, desc, prio)] leaves the task
    not completed and unlinked. *)
Record Node : Type := mkNode {
  taskId : Z;
  description : string;
  priority : Z;
  completed : bool;
  next : ptr
}.

Definition Node_new (id : Z) (desc : string) (prio : Z) : Node :=
  mkNode id desc prio false None.

Definition set_next (p : ptr) (n : Node) : Node :=
  mkNode (taskId n) (description n) (priority n) (completed n) p.

Definition set_completed (c : bool) (n : Node) : Node :=
  mkNode (taskId n) (description n) (priority n) c (next n).

Definition task_of (n : Node) : task :=
  Task (taskId n) (description n) (priority n) (completed n).

#[export] Instance Node_linkable : Linked.Linkable Node :=
  Linked.Build_Linkable Node next set_next task_of
    (λ _ _, eq_refl) (λ _ _, eq_refl).

(** The private members of [class ToDoList], as its constructor sets
    them. *)
Record ToDoList : Type := mkList {
  head : ptr;
  hashTable : gmap Z loc;
  taskCounter : Z;
  size : Z
}.

Record world : Type := World {
  store : gmap loc Node;
  this : ToDoList
}.

Definition initial : world := World ∅ (mkList None ∅ 1 0).

(** What the member functions write to [cout]:
    - [MsgDescEmpty]: "Task description cannot be empty!"
    - [MsgPriorityReset]: "Priority must be between 1 and 5. Setting to 1."
    - [MsgAdded i]: "Task added successfully with ID: i"
    - [MsgNotFound i]: "Task ID i not found!"
    - [MsgDeleted i]: "Task i deleted successfully!"
    - [MsgAlreadyComplete i], [MsgMarkedComplete i], [MsgAlreadyIncomplete i],
      [MsgMarkedIncomplete i]: the lines of [markComplete] and
      [markIncomplete]
    - [MsgTaskDetails i d p c]: the block printed by [searchTask]
    - [MsgNoTasks], [MsgListHeader total], [MsgTaskRow c i d p],
      [MsgListFooter]: [displayAll] *)
Inductive message : Type :=
| MsgDescEmpty
| MsgPriorityReset
| MsgAdded (i : Z)
| MsgNotFound (i : Z)
| MsgDeleted (i : Z)
| MsgAlreadyComplete (i : Z)
| MsgMarkedComplete (i : Z)
| MsgAlreadyIncomplete (i : Z)
| MsgMarkedIncomplete (i : Z)
| MsgTaskDetails (i : Z) (d : string) (p : Z) (c : bool)
| MsgNoTasks
| MsgListHeader (total : Z)
| MsgTaskRow (c : bool) (i : Z) (d : string) (p : Z)
| MsgListFooter.

(** How a call ends: it returns, or its behaviour is undefined or it does
    not return.  No function of the class throws. *)
Inductive outcome : Type :=
| Returns (out : list message) (w : world)
| Undefined.

Definition run (o : option outcome) : outcome := default Undefined o.

Definition addTask (w : world) (description : string) (priority : Z) : outcome :=
  if empty description then Returns [MsgDescEmpty] w
  else
    let t := this w in
    let '(priority, warn) :=
      if (priority <? 1) || (priority >? 5) then (1, [MsgPriorityReset])
      else (priority, []) in
    let taskId := taskCounter t in
    let '(newNode, m) := new (Node_new taskId description priority) (store w) in
    run ('(m', hd) ← link_last m (head t) newNode;
         cnt ← int_add (taskCounter t) 1;
         sz ← int_add (size t) 1;
         Some (Returns (warn ++ [MsgAdded taskId])
                 (World m' (mkList hd (<[taskId := newNode]> (hashTable t))
                              cnt sz)))).

(** [while (current->next != nullptr && current->next->taskId != taskId)
    current = current->next;]: the value of [current] when the loop ends. *)
Fixpoint find_before (k : nat) (m : gmap loc Node) (tid : Z) (current : loc)
  : option loc :=
  match k with
  | O => None
  | S k' =>
      n ← m !! current;
      match next n with
      | None => Some current
      | Some nx =>
          nn ← m !! nx;
          if negb (taskId nn =? tid) then find_before k' m tid nx
          else Some current
      end
  end.

(** The removal from the list in [deleteTask]: the head when it carries
    the identifier, and otherwise the node behind the one the loop stops
    at, if there is one. *)
Definition unlink (m : gmap loc Node) (hd : ptr) (tid : Z) (h : loc) (hn : Node)
  : option (gmap loc Node * ptr) :=
  if taskId hn =? tid then Some (delete h m, next hn)
  else
    current ← find_before (fuel m) m tid h;
    cn ← m !! current;
    match next cn with
    | None => Some (m, hd)
    | Some temp =>
        tn ← m !! temp;
        Some (delete temp (alter (set_next (next tn)) current m), hd)
    end.

Definition deleteTask (w : world) (tid : Z) : outcome :=
  let t := this w in
  match hashTable t !! tid with
  | None => Returns [MsgNotFound tid] w
  | Some _ =>
      run (h ← head t;
           hn ← store w !! h;
           '(m, hd) ← unlink (store w) (head t) tid h hn;
           sz ← int_sub (size t) 1;
           Some (Returns [MsgDeleted tid]
                   (World m (mkList hd (delete tid (hashTable t))
                               (taskCounter t) sz))))
  end.

Definition markComplete (w : world) (tid : Z) : outcome :=
  match hashTable (this w) !! tid with
  | None => Returns [MsgNotFound tid] w
  | Some a =>
      run (n ← store w !! a;
           Some (if completed n then Returns [MsgAlreadyComplete tid] w
                 else Returns [MsgMarkedComplete tid]
                        (World (<[a := set_completed true n]> (store w))
                           (this w))))
  end.

Definition markIncomplete (w : world) (tid : Z) : outcome :=
  match hashTable (this w) !! tid with
  | None => Returns [MsgNotFound tid] w
  | Some a =>
      run (n ← store w !! a;
           Some (if negb (completed n) then Returns [MsgAlreadyIncomplete tid] w
                 else Returns [MsgMarkedIncomplete tid]
                        (World (<[a := set_completed false n]> (store w))
                           (this w))))
  end.

Definition searchTask (w : world) (tid : Z) : outcome :=
  match hashTable (this w) !! tid with
  | None => Returns [MsgNotFound tid] w
  | Some a =>
      run (n ← store w !! a;
           Some (Returns [MsgTaskDetails (taskId n) (description n)
                            (priority n) (completed n)] w))
  end.

(** The traversal of [displayAll]. *)
Definition listAll (w : world) : option (list Node) :=
  walk (fuel (store w)) (store w) (head (this w)).

Definition row (n : Node) : message :=
  MsgTaskRow (completed n) (taskId n) (description n) (priority n).

Definition displayAll (w : world) : outcome :=
  match head (this w) with
  | None => Returns [MsgNoTasks] w
  | Some _ =>
      run (l ← listAll w;
           Some (Returns ([MsgListHeader (size (this w))] ++ map row l
                          ++ [MsgListFooter]) w))
  end.

Definition tasks (w : world) : option (list task) :=
  option_map (map task_of) (listAll w).

(** The calls of the menu of [main]. *)
Inductive op : Type :=
| OpAdd (description : string) (priority : Z)
| OpDelete (tid : Z)
| OpMarkComplete (tid : Z)
| OpMarkIncomplete (tid : Z)
| OpSearch (tid : Z)
| OpDisplayAll.

Definition perform (w : world) (o : op) : outcome :=
  match o with
  | OpAdd description priority => addTask w description priority
  | OpDelete tid => deleteTask w tid
  | OpMarkComplete tid => markComplete w tid
  | OpMarkIncomplete tid => markIncomplete w tid
  | OpSearch tid => searchTask w tid
  | OpDisplayAll => displayAll w
  end.

Fixpoint exec (w : world) (ops : list op) : option (list message * world) :=
  match ops with
  | [] => Some ([], w)
  | o :: rest =>
      match perform w o with
      | Returns out w' =>
          '(out', w'') ← exec w' rest; Some (out ++ out', w'')
      | Undefined => None
      end
  end.

Definition reachable (w : world) : Prop :=
  ∃ ops out, exec initial ops = Some (out, w).

Definition stored_priority (p : Z) : Z :=
  if (p <? 1) || (p >? 5) then 1 else p.

Definition add_op (x : string * Z) : op := OpAdd x.1 x.2.

(** The identifiers [addTask] announced in an output. *)
Definition issued (out : list message) : list Z :=
  omap (λ m, match m with MsgAdded i => Some i | _ => None end) out.

(** The invariant of every reachable world of the class. *)
Record Inv (w : world) (l : list (loc * task)) : Prop := mkInv {
  inv_chain : chain (store w) (head (this w)) l;
  inv_nodup : NoDup l.*1;
  inv_dom : ∀ a, is_Some (store w !! a) → a ∈ l.*1;
  inv_map : ∀ i a, hashTable (this w) !! i = Some a →
                   ∃ t, (a, t) ∈ l ∧ task_id t = i;
  inv_ids : ∀ a t, (a, t) ∈ l → task_id t < taskCounter (this w);
  inv_counter : 1 ≤ taskCounter (this w) ≤ INT_MAX;
  inv_size : size (this w) = Z.of_nat (length l) ∧ size (this w) ≤ INT_MAX
}.

End ToDoList.

(** ** Releasing the nodes of a list *)

Module Release.
Import Linked(loc, ptr).

Section Loops.
Context {N : Type} {LN : Linked.Linkable N}.

(** [while (cur) { tmp = cur; cur = cur->next; delete tmp; }]: the store
    the loop leaves.  The link is read before the node is released, and
    the release of an address that is not allocated is undefined. *)
Fixpoint free_chain (k : nat) (m : gmap loc N) (cur : ptr) : option (gmap loc N) :=
  match cur with
  | None => Some m
  | Some c =>
      match k with
      | O => None
      | S k' => n ← m !! c; free_chain k' (delete c m) (Linked.next n)
      end
  end.

(** [while (!s.empty()) { delete s.top(); s.pop(); }] for a stack of
    addresses. *)
Fixpoint free_stack (m : gmap loc N) (s : list loc) : option (gmap loc N) :=
  match s with
  | [] => Some m
  | top :: rest => _ ← m !! top; free_stack (delete top m) rest
  end.

End Loops.

End Release.

(** ** projecttt.cpp: the functions [main] calls when the menu is left *)

Module ProjectttExit.
Import Cxx.
Import Linked(loc, ptr, task, Task, task_id, task_description, task_priority,
              task_completed, fuel).
Import Projecttt.
Import Release.

(** [freeAll]: the nodes of the list and of the undo stack are released,
    the table is cleared and [totalTasks] is reset; [nextId] is left as it
    is. *)
Definition freeAll (w : world) : outcome :=
  let d := data w in
  run (m1 ← free_chain (fuel (store w)) (store w) (head d);
       m2 ← free_stack m1 (deletedStack d);
       Some (Returns [] (World m2 (mkData None ∅ [] (nextId d) 0)))).

(** What [printToOutputFile] writes to [cout]:
    - [MsgOutputFailed]: "Unable to open output file."
    - [MsgOutputWritten]: "Output written to 'filename'." *)
Inductive output_message : Type :=
| MsgOutputFailed
| MsgOutputWritten.

(** The line of [output.txt] for a node, without the newline that ends
    it. *)
Definition output_body (n : Node) : string :=
  (if completed n then "[✓] " else "[ ] ")
  +:+ to_string (id n) +:+ " - " +:+ description n
  +:+ " (P:" +:+ to_string (priority n) +:+ ")".

Definition output_text (l : list Node) : string :=
  fold_right (fun n t => output_body n +:+ endl +:+ t) EmptyString l.

(** [printToOutputFile]: [opened] tells whether the file could be opened;
    the result is the line written to [cout] and the text written to the
    file, if any.  [None] stands for a traversal that does not end. *)
Definition printToOutputFile (w : world) (opened : bool)
  : option (output_message * option string) :=
  if opened then
    l ← listAll w; Some (MsgOutputWritten, Some (output_text l))
  else Some (MsgOutputFailed, None).

(** *** Terms used in the statements *)

(** A text with every ['|'] replaced by a space. *)
Fixpoint pipes_to_spaces (s : string) : string :=
  match s with
  | EmptyString => EmptyString
  | String a r =>
      String (if Ascii.eqb a pipe then space else a) (pipes_to_spaces r)
  end.

(** The task a node is read back as from the file [saveToFile] writes. *)
Definition saved_task (n : Node) : task :=
  Task (id n) (pipes_to_spaces (description n)) (priority n) (completed n).

(** A task with another completion state. *)
Definition with_completed (c : bool) (t : task) : task :=
  Task (task_id t) (task_description t) (task_priority t) c.

(** The task [editTask] makes of [t] for the line [newDesc] and the
    number [newPrio]. *)
Definition edited (newDesc : string) (newPrio : option Z) (t : task) : task :=
  Task (task_id t)
       (if empty newDesc then task_description t else newDesc)
       (edited_priority (task_priority t) newPrio)
       (task_completed t).

(** [nextId] after the records of the nodes [ns] were loaded into a world
    where it was [start]. *)
Definition next_after (start : Z) (ns : list Node) : Z :=
  foldl (λ acc n, Z.max acc (id n + 1)) start ns.

(** The world [w'] holds the tasks of [w] followed by new ones, and the
    undo stack of [w]; [totalTasks] has grown by the number of new tasks and
    [nextId] has not decreased. *)
Definition appended_to (w w' : world) : Prop :=
  ∃ ts new,
    tasks w = Some ts ∧ tasks w' = Some (ts ++ new) ∧
    deletedStack (data w') = deletedStack (data w) ∧
    totalTasks (data w') = totalTasks (data w) + Z.of_nat (length new) ∧
    nextId (data w) ≤ nextId (data w').

(** A description that holds no newline. *)
Definition one_line (n : Node) : Prop :=
  find_from newline 0 (description n) = None.

(** Whether a call of the menu is the load of a file. *)
Definition is_load (o : op) : bool :=
  match o with
  | OpLoad _ => true
  | _ => false
  end.

(** The world after two tasks were added and both deleted, the first one
    first. *)
Definition two_deleted : world :=
  Eval vm_compute in
    match exec initial [OpAdd "pay rent" 5; OpAdd "call home" 2;
                        OpDelete 1; OpDelete 2] with
    | Some (_, w) => w
    | None => initial
    end.

(** The world after two tasks were added and the second deleted. *)
Definition one_deleted : world :=
  Eval vm_compute in
    match exec initial [OpAdd "pay rent" 5; OpAdd "call home" 2; OpDelete 2] with
    | Some (_, w) => w
    | None => initial
    end.

(** The world after a task whose description holds a ['|'] was added. *)
Definition piped_world : world :=
  Eval vm_compute in
    match exec initial [OpAdd "milk|eggs" 2] with
    | Some (_, w) => w
    | None => initial
    end.

End ProjectttExit.

(** ** The [ToDoList] class: the filtered listings, the statistics and the
    destructor *)

Module ToDoListReports.
Import Cxx.
Import Linked(loc, ptr, task, Task, task_id, task_description, task_priority,
              task_completed, fuel, chain).
Import ToDoList.
Import Release.

(** What [displayPending], [displayCompleted] and [getStatistics] write to
    [cout]:
    - [MsgPendingHeader], [MsgCompletedHeader]: the titles
      "PENDING TASKS" and "COMPLETED TASKS" between two rules
    - [MsgRow c i d p]: the line of a task
    - [MsgNoPending]: "No pending tasks! Great job!"
    - [MsgTotalPending k]: "Total pending tasks: k"
    - [MsgNoCompleted]: "No completed tasks yet!"
    - [MsgTotalCompleted k]: "Total completed tasks: k"
    - [MsgFooter]: the rule that ends a listing
    - [MsgNoStatistics]: "No tasks to show statistics for!"
    - [MsgStatistics total completed pending]: the lines "Total Tasks",
      "Completed Tasks" and "Pending Tasks" of the statistics; the line
      "Completion Rate", which shows [completed * 100.0 / size] as a
      floating-point number, is printed from the same two numbers and is
      not represented *)
Inductive report : Type :=
| MsgPendingHeader
| MsgCompletedHeader
| MsgRow (c : bool) (i : Z) (d : string) (p : Z)
| MsgNoPending
| MsgTotalPending (count : Z)
| MsgNoCompleted
| MsgTotalCompleted (count : Z)
| MsgFooter
| MsgNoStatistics
| MsgStatistics (total completed pending : Z).

Definition report_row (n : Node) : report :=
  MsgRow (completed n) (taskId n) (description n) (priority n).

(** The loop of [displayPending] and [displayCompleted], which differ in
    the test on [completed] only:
    [while (current != nullptr) { if (test) { cout << row; found = true;
    count++; } current = current->next; }].
    The result is the rows written and the final [found] and [count]. *)
Fixpoint select_loop (test : Node → bool) (k : nat) (m : gmap loc Node)
    (current : ptr) (found : bool) (count : Z)
  : option (list report * bool * Z) :=
  match current with
  | None => Some ([], found, count)
  | Some c =>
      match k with
      | O => None
      | S k' =>
          n ← m !! c;
          if test n then
            count' ← int_add count 1;
            '(rows, found', count'') ← select_loop test k' m (next n) true count';
            Some (report_row n :: rows, found', count'')
          else select_loop test k' m (next n) found count
      end
  end.

Definition displayPending (w : world) : option (list report) :=
  '(rows, found, count) ←
    select_loop (λ n, negb (completed n)) (fuel (store w)) (store w)
      (head (this w)) false 0;
  Some ([MsgPendingHeader] ++ rows
        ++ (if negb found then [MsgNoPending] else [MsgTotalPending count])
        ++ [MsgFooter]).

Definition displayCompleted (w : world) : option (list report) :=
  '(rows, found, count) ←
    select_loop completed (fuel (store w)) (store w) (head (this w)) false 0;
  Some ([MsgCompletedHeader] ++ rows
        ++ (if negb found then [MsgNoCompleted] else [MsgTotalCompleted count])
        ++ [MsgFooter]).

(** The loop of [getStatistics]:
    [while (current != nullptr) { if (current->completed) completed++;
    current = current->next; }]. *)
Fixpoint count_completed (k : nat) (m : gmap loc Node) (current : ptr)
    (completed_so_far : Z) : option Z :=
  match current with
  | None => Some completed_so_far
  | Some c =>
      match k with
      | O => None
      | S k' =>
          n ← m !! c;
          if completed n then
            c' ← int_add completed_so_far 1;
            count_completed k' m (next n) c'
          else count_completed k' m (next n) completed_so_far
      end
  end.

Definition getStatistics (w : world) : option (list report) :=
  let t := this w in
  if size t =? 0 then Some [MsgNoStatistics]
  else
    completed ← count_completed (fuel (store w)) (store w) (head t) 0;
    pending ← int_sub (size t) completed;
    Some [MsgStatistics (size t) completed pending].

(** [~ToDoList]: the nodes of the list are released; the result is the
    store the destructor leaves. *)
Definition destructor (w : world) : option (gmap loc Node) :=
  free_chain (fuel (store w)) (store w) (head (this w)).

(** *** Terms used in the statements *)

Definition pending (n : Node) : bool := negb (completed n).

(** A task with another completion state. *)
Definition with_completed (c : bool) (t : task) : task :=
  Task (task_id t) (task_description t) (task_priority t) c.

(** The list and the table hold the same tasks. *)
Definition consistent (w : world) : Prop :=
  ∃ l, chain (store w) (head (this w)) l ∧
       (∀ a t, (a, t) ∈ l → hashTable (this w) !! task_id t = Some a) ∧
       (∀ i a, hashTable (this w) !! i = Some a →
               ∃ t, (a, t) ∈ l ∧ task_id t = i).

(** The invariant of the class with the order of the identifiers: they
    increase along the list, start at 1, and each is in the table. *)
Definition Ordered (w : world) (l : list (loc * task)) : Prop :=
  Inv w l ∧
  StronglySorted Z.lt ((λ x, task_id x.2) <$> l) ∧
  (∀ a t, (a, t) ∈ l → 1 ≤ task_id t) ∧
  (∀ a t, (a, t) ∈ l → hashTable (this w) !! task_id t = Some a).

(** The world after three tasks were added, the second completed and the
    first deleted. *)
Definition sample_ops : list op :=
  [OpAdd "Buy groceries" 2; OpAdd "Study for midterm exam" 4;
   OpAdd "Water the plants" 9; OpMarkComplete 2; OpDelete 1].

Definition sample_out : list message :=
  [MsgAdded 1; MsgAdded 2; MsgPriorityReset; MsgAdded 3;
   MsgMarkedComplete 2; MsgDeleted 1].

Definition sample_world : world :=
  Eval vm_compute in
    match exec initial sample_ops with
    | Some (_, w) => w
    | None => initial
    end.

End ToDoListReports.

(** ** Facts about the C++ primitives *)

Module CxxFacts.
Import Cxx.

(** *** [int] *)

Lemma in_int_spec z : in_int z = true ↔ INT_MIN ≤ z ≤ INT_MAX.
Proof. unfold in_int. rewrite andb_true_iff, !Z.leb_le. done. Qed.

Lemma int_add_Some a b :
  INT_MIN ≤ a + b ≤ INT_MAX → int_add a b = Some (a + b).
Proof. intros H. unfold int_add. apply in_int_spec in H. by rewrite H. Qed.

Lemma int_add_None a b :
  ¬ (INT_MIN ≤ a + b ≤ INT_MAX) → int_add a b = None.
Proof.
  intros H. unfold int_add. destruct (in_int (a + b)) eqn:E; [|done].
  by apply in_int_spec in E.
Qed.

Lemma int_sub_Some a b :
  INT_MIN ≤ a - b ≤ INT_MAX → int_sub a b = Some (a - b).
Proof. intros H. unfold int_sub. apply in_int_spec in H. by rewrite H. Qed.

(** *** Strings *)

Lemma append_String c s t : String c s +:+ t = String c (s +:+ t).
Proof. done. Qed.

Lemma append_empty_l (t : string) : EmptyString +:+ t = t.
Proof. done. Qed.

(** [simpl] with the equations of the append. *)
Ltac ssimpl := rewrite ?append_String, ?append_empty_l; simpl.

Lemma append_assoc (s t u : string) : (s +:+ t) +:+ u = s +:+ (t +:+ u).
Proof. induction s as [|c s IH]; ssimpl; [done|]. by f_equal. Qed.

Lemma append_empty_r (s : string) : s +:+ EmptyString = s.
Proof. induction s as [|c s IH]; ssimpl; [done|]. by f_equal. Qed.

Lemma length_append (s t : string) :
  String.length (s +:+ t) = (String.length s + String.length t)%nat.
Proof. induction s as [|c s IH]; ssimpl; [done|]. by f_equal. Qed.

(** *** [find] *)

Lemma find_from_count c s : find_from c 0 s = None ↔ count_char c s = O.
Proof.
  induction s as [|a r IH]; simpl; [done|].
  destruct (Ascii.eqb a c); simpl; [done|].
  rewrite <- IH. by destruct (find_from c 0 r).
Qed.

(** The first occurrence after a prefix that holds none. *)
Lemma find_from_first c s t :
  find_from c 0 s = None →
  find_from c 0 (s +:+ String c t) = Some (String.length s).
Proof.
  induction s as [|a r IH]; ssimpl.
  - by rewrite Ascii.eqb_refl.
  - destruct (Ascii.eqb a c); [done|].
    destruct (find_from c 0 r) eqn:E; [done|]. intros _. by rewrite IH.
Qed.

Lemma find_from_none_append c s t :
  find_from c 0 s = None →
  find_from c 0 (s +:+ t) = (λ p, String.length s + p)%nat <$> find_from c 0 t.
Proof.
  induction s as [|a r IH]; ssimpl.
  - intros _. by destruct (find_from c 0 t).
  - destruct (Ascii.eqb a c); [done|].
    destruct (find_from c 0 r) eqn:E; [done|]. intros _. rewrite IH by done.
    by destruct (find_from c 0 t).
Qed.

(** A search that starts behind a prefix. *)
Lemma find_from_skip c s t k :
  find_from c (String.length s + k) (s +:+ t)
  = (λ p, String.length s + p)%nat <$> find_from c k t.
Proof.
  induction s as [|a r IH]; ssimpl.
  - by destruct (find_from c k t).
  - rewrite IH. by destruct (find_from c k t).
Qed.

(** A text with an occurrence splits at the first one. *)
Lemma count_char_split c s :
  (0 < count_char c s)%nat →
  ∃ s1 s2, s = s1 +:+ String c s2 ∧ find_from c 0 s1 = None ∧
           count_char c s = S (count_char c s2).
Proof.
  induction s as [|a r IH]; simpl; [lia|].
  destruct (Ascii.eqb a c) eqn:E.
  - apply Ascii.eqb_eq in E as ->. intros _. exists EmptyString, r. done.
  - simpl. intros H. destruct (IH H) as (s1 & s2 & -> & Hs1 & Hc).
    exists (String a s1), s2. simpl. rewrite E, Hs1. done.
Qed.

(** *** [substr] *)

Lemma substring_prefix s t :
  String.substring 0 (String.length s) (s +:+ t) = s.
Proof.
  induction s as [|a r IH]; ssimpl; [by destruct t|]. by rewrite IH.
Qed.

Lemma substring_skip s t k n :
  String.substring (String.length s + k) n (s +:+ t) = String.substring k n t.
Proof. induction s as [|a r IH]; ssimpl; done. Qed.

Lemma substring_all s : String.substring 0 (String.length s) s = s.
Proof. induction s as [|a r IH]; simpl; [done|]. by rewrite IH. Qed.

(** *** Lines *)

Lemma getlines_line cur body rest :
  find_from newline 0 body = None →
  getlines cur (body +:+ String newline rest)
  = (cur +:+ body) :: getlines EmptyString rest.
Proof.
  revert cur. induction body as [|a r IH]; intros cur; ssimpl.
  - intros _. by rewrite append_empty_r.
  - destruct (Ascii.eqb a newline); [done|].
    destruct (find_from newline 0 r) eqn:E; [done|]. intros _.
    rewrite IH by done. by rewrite append_assoc.
Qed.

Lemma string_forall_find P c s :
  string_forall P s = true → P c = false → find_from c 0 s = None.
Proof.
  intros Hs Hc. induction s as [|a r IH]; simpl in *; [done|].
  apply andb_true_iff in Hs as [Ha Hr].
  destruct (Ascii.eqb a c) eqn:E.
  - apply Ascii.eqb_eq in E as ->. congruence.
  - by rewrite IH.
Qed.

Lemma string_forall_append P s t :
  string_forall P (s +:+ t) = string_forall P s && string_forall P t.
Proof. induction s as [|a r IH]; ssimpl; [done|]. by rewrite IH, andb_assoc. Qed.

(** *** A field behind a separator *)

Lemma singleton_append c s : String c EmptyString +:+ s = String c s.
Proof. done. Qed.

Lemma append_sep s c t : s +:+ String c t = (s +:+ String c EmptyString) +:+ t.
Proof. by rewrite append_assoc. Qed.

Lemma length_sep s c :
  String.length (s +:+ String c EmptyString) = S (String.length s).
Proof. rewrite length_append. simpl. lia. Qed.

(** The separator that follows the field [t] behind the prefix [s]. *)
Lemma find_from_after c s t u :
  find_from c 0 t = None →
  find_from c (S (String.length s)) (s +:+ String c (t +:+ String c u))
  = Some (S (String.length s) + String.length t)%nat.
Proof.
  intros Ht. rewrite append_sep.
  pose proof (find_from_skip c (s +:+ String c EmptyString)
                (t +:+ String c u) 0) as H.
  rewrite length_sep, Nat.add_0_r in H. rewrite H.
  rewrite find_from_first by done. simpl. done.
Qed.

Lemma find_from_after_none c s t :
  find_from c 0 t = None →
  find_from c (S (String.length s)) (s +:+ String c t) = None.
Proof.
  intros Ht. rewrite append_sep.
  pose proof (find_from_skip c (s +:+ String c EmptyString) t 0) as H.
  rewrite length_sep, Nat.add_0_r in H. rewrite H. by rewrite Ht.
Qed.

(** The field [t] behind the prefix [s] and a separator. *)
Lemma substring_after s c t u :
  String.substring (S (String.length s)) (String.length t)
    (s +:+ String c (t +:+ u)) = t.
Proof.
  rewrite append_sep.
  pose proof (substring_skip (s +:+ String c EmptyString) (t +:+ u) 0
                (String.length t)) as H.
  rewrite length_sep, Nat.add_0_r in H. rewrite H. apply substring_prefix.
Qed.

Lemma substr_from_after s c u :
  substr_from (s +:+ String c u) (S (String.length s)) = u.
Proof.
  unfold substr_from. rewrite append_sep at 2.
  pose proof (substring_skip (s +:+ String c EmptyString) u 0) as H.
  rewrite length_sep, Nat.add_0_r in H. rewrite H.
  rewrite length_append. simpl.
  replace (String.length s + S (String.length u) - S (String.length s))%nat
    with (String.length u) by lia.
  apply substring_all.
Qed.

Lemma empty_append_sep s c t : empty (s +:+ String c t) = false.
Proof. by destruct s. Qed.

(** *** Numbers written and read back *)

Lemma digit_char_spec d :
  0 ≤ d ≤ 9 → is_digit (digit_char d) = true ∧ digit_val (digit_char d) = d.
Proof.
  intros H.
  assert (d = 0 ∨ d = 1 ∨ d = 2 ∨ d = 3 ∨ d = 4 ∨ d = 5 ∨ d = 6 ∨ d = 7
          ∨ d = 8 ∨ d = 9) as Hd by lia.
  repeat (destruct Hd as [->|Hd]; [done|]). by subst.
Qed.

(** A digit is neither white space, nor a sign, nor a separator of the
    file format. *)
Lemma is_digit_other c :
  is_digit c = true →
  is_space c = false ∧ c ≠ "-"%char ∧ c ≠ "+"%char ∧ c ≠ pipe ∧ c ≠ newline.
Proof.
  destruct c as [[] [] [] [] [] [] [] []]; vm_compute; intros H;
    try discriminate H; repeat split; discriminate.
Qed.

Lemma split_sign_digit c r :
  is_digit c = true → split_sign (String c r) = (false, String c r).
Proof.
  destruct c as [[] [] [] [] [] [] [] []]; vm_compute; intros H;
    try discriminate H; reflexivity.
Qed.

Lemma put_digits_spec f n s :
  0 ≤ n < 2 ^ Z.of_nat f → f ≠ O →
  ∃ t, put_digits f n s = t +:+ s ∧ t ≠ EmptyString ∧
       string_forall is_digit t = true ∧
       ∀ a u, read_digits a (t +:+ u)
              = read_digits (a * 10 ^ Z.of_nat (String.length t) + n) u.
Proof.
  revert n s. induction f as [|f IH]; intros n s Hn Hf; [done|]. simpl.
  destruct (Z.ltb_spec n 10) as [Hlt|Hge].
  - rewrite Z.mod_small by lia.
    destruct (digit_char_spec n) as [Hd Hv]; [lia|].
    exists (String (digit_char n) EmptyString). split_and!; [done|done| |].
    + simpl. by rewrite Hd.
    + intros a u. ssimpl. rewrite Hd, Hv. f_equal. lia.
  - assert (f ≠ O) as Hf'.
    { intros ->. simpl in Hn. lia. }
    assert (0 ≤ n / 10 < 2 ^ Z.of_nat f) as Hn'.
    { split; [apply Z.div_pos; lia|].
      rewrite Nat2Z.inj_succ, Z.pow_succ_r in Hn by lia.
      apply Z.div_lt_upper_bound; lia. }
    destruct (IH (n / 10) (String (digit_char (n mod 10)) s) Hn' Hf')
      as (t & Ht & Hne & Hall & Hread).
    destruct (digit_char_spec (n mod 10)) as [Hd Hv].
    { pose proof (Z.mod_pos_bound n 10). lia. }
    exists (t +:+ String (digit_char (n mod 10)) EmptyString). split_and!.
    + rewrite Ht. by rewrite append_assoc.
    + by destruct t.
    + rewrite string_forall_append, Hall. simpl. by rewrite Hd.
    + intros a u. rewrite append_assoc. ssimpl. rewrite Hread. simpl.
      rewrite Hd, Hv. f_equal. rewrite length_append. simpl.
      rewrite Nat2Z.inj_add. simpl Z.of_nat.
      rewrite Z.pow_add_r by lia. rewrite Z.pow_1_r.
      pose proof (Z.div_mod n 10). lia.
Qed.

Lemma to_string_fuel n :
  0 ≤ n → 0 ≤ n < 2 ^ Z.of_nat (S (Z.to_nat (Z.log2 n))).
Proof.
  intros Hn. split; [done|].
  rewrite Nat2Z.inj_succ, Z2Nat.id by apply Z.log2_nonneg.
  destruct (decide (n = 0)) as [->|Hne]; [done|].
  apply Z.log2_spec. lia.
Qed.

(** The text of a number: its digits, behind a minus sign if it is
    negative. *)
Lemma to_string_spec z :
  ∃ t, to_string z = (if z <? 0 then String "-"%char t else t) ∧
       t ≠ EmptyString ∧ string_forall is_digit t = true ∧
       read_digits 0 t = Z.abs z.
Proof.
  unfold to_string.
  destruct (put_digits_spec (S (Z.to_nat (Z.log2 (Z.abs z)))) (Z.abs z) EmptyString)
    as (t & Ht & Hne & Hall & Hread); [apply to_string_fuel; lia|done|].
  rewrite Ht, append_empty_r. exists t. split_and!; [done..|].
  specialize (Hread 0 EmptyString). rewrite append_empty_r in Hread.
  rewrite Hread. by destruct t.
Qed.

(** C++ reads back the number it wrote. *)
Lemma stoi_to_string z : in_int z = true → stoi (to_string z) = Value z.
Proof.
  intros Hz. destruct (to_string_spec z) as (t & -> & Hne & Hall & Hread).
  destruct t as [|c r]; [done|]. simpl in Hall.
  apply andb_true_iff in Hall as [Hc Hr].
  destruct (is_digit_other c Hc) as (Hsp & _).
  assert (starts_with_digit (String c r) = true) as Hstart by done.
  unfold stoi. destruct (Z.ltb_spec z 0) as [Hneg|Hpos].
  - change (skip_spaces (String "-" (String c r)))
      with (String "-"%char (String c r)).
    change (split_sign (String "-" (String c r))) with (true, String c r).
    cbv beta iota zeta. rewrite Hstart, Hread.
    replace (- Z.abs z) with z by lia. by rewrite Hz.
  - assert (skip_spaces (String c r) = String c r) as -> by (simpl; by rewrite Hsp).
    rewrite split_sign_digit by done.
    cbv beta iota zeta. rewrite Hstart, Hread.
    replace (Z.abs z) with z by lia. by rewrite Hz.
Qed.

(** The text of a number holds no separator of the file format. *)
Lemma to_string_free z c :
  is_digit c = false → c ≠ "-"%char → find_from c 0 (to_string z) = None.
Proof.
  intros Hc Hm. destruct (to_string_spec z) as (t & -> & _ & Hall & _).
  pose proof (string_forall_find is_digit c t Hall Hc) as Hf.
  destruct (z <? 0); [|done].
  change (find_from c 0 (String "-" t))
    with (if Ascii.eqb "-" c then Some O else S <$> find_from c 0 t).
  rewrite Hf. by destruct (Ascii.eqb_spec "-" c).
Qed.

Lemma to_string_nonempty z : empty (to_string z) = false.
Proof.
  destruct (to_string_spec z) as (t & -> & Hne & _).
  destruct (z <? 0); [done|]. by destruct t.
Qed.

End CxxFacts.

(** ** Facts about chains of nodes *)

Module LinkedFacts.
Import Linked.

Section Chains.
Context {N : Type} {LN : Linkable N}.
Implicit Types (m : gmap loc N) (p : ptr) (l : list (loc * task)).

(** *** Facts about chains *)

Lemma chain_functional m p l1 l2 :
  chain m p l1 → chain m p l2 → l1 = l2.
Proof.
  revert p l2. induction l1 as [|[a t] r IH]; intros p [|[b u] r2]; simpl.
  - done.
  - intros -> [? _]. done.
  - intros [-> _] ?. done.
  - intros [-> (n & Hn & Ht & Hc)] [Hp (n2 & Hn2 & Ht2 & Hc2)].
    simplify_eq. f_equal. eauto.
Qed.

(** Stores that agree on the nodes of a chain carry the same chain. *)
Lemma chain_frame m m' p l :
  chain m p l →
  (∀ a, a ∈ l.*1 → m' !! a = m !! a) →
  chain m' p l.
Proof.
  revert p. induction l as [|[a t] r IH]; simpl; intros p; [done|].
  intros [-> (n & Hn & Ht & Hc)] Hag. split; [done|].
  exists n. rewrite Hag by apply list_elem_of_here. split_and!; [done..|].
  apply IH; [done|]. intros b Hb. apply Hag. by apply list_elem_of_further.
Qed.

Lemma chain_cells m p l a t :
  chain m p l → (a, t) ∈ l → cell m a t.
Proof.
  revert p. induction l as [|[b u] r IH]; simpl; intros p Hc Hin.
  - by apply elem_of_nil in Hin.
  - destruct Hc as [-> (n & Hn & Ht & Hc)].
    apply elem_of_cons in Hin as [Heq|Hin]; [simplify_eq; by exists n|eauto].
Qed.

(** The traversal returns the tasks of the chain. *)
Lemma walk_chain m p l k :
  chain m p l → (length l ≤ k)%nat →
  ∃ ns, walk k m p = Some ns ∧ task_of <$> ns = l.*2.
Proof.
  revert p k. induction l as [|[a t] r IH]; simpl; intros p k.
  - intros -> _. exists []. by destruct k.
  - intros [-> (n & Hn & Ht & Hc)] Hk. destruct k as [|k]; [lia|].
    destruct (IH _ k Hc) as (ns & Hw & Hns); [lia|].
    exists (n :: ns). split.
    + simpl. rewrite Hn. simpl. by rewrite Hw.
    + rewrite fmap_cons. by rewrite Ht, Hns.
Qed.

(** The loop of [addTask] stops at the last node of the chain. *)
Lemma last_node_chain m h l k :
  chain m (Some h) l → (length l ≤ k)%nat →
  ∃ z, last l.*1 = Some z ∧ last_node k m h = Some z.
Proof.
  revert h k. induction l as [|[a t] r IH]; simpl; intros h k; [done|].
  intros [Hh (n & Hn & Ht & Hc)] Hk. simplify_eq.
  destruct k as [|k]; [lia|]. simpl. rewrite Hn. simpl.
  destruct (next n) as [nx|] eqn:Hnx.
  - destruct (IH nx k Hc) as (z & Hz & Hl); [lia|].
    exists z. split; [|done]. destruct r; [done|]. done.
  - destruct r as [|[??] ?]; simpl in Hc; [|by destruct Hc]. by exists a.
Qed.

Lemma last_elem_of {A} (l : list A) z : last l = Some z → z ∈ l.
Proof.
  induction l as [|x [|y r] IH]; simpl; intros H; simplify_eq.
  - apply list_elem_of_here.
  - apply list_elem_of_further. by apply IH.
Qed.

(** Linking a new node behind the last one appends it to the chain. *)
Lemma chain_snoc m p l z a n t :
  chain m p l → NoDup l.*1 → last l.*1 = Some z → a ∉ l.*1 →
  m !! a = Some n → next n = None → task_of n = t →
  chain (alter (set_next (Some a)) z m) p (l ++ [(a, t)]).
Proof.
  intros Hc Hnd Hz Ha Hn Hnx Ht. revert p Hc Hnd Hz Ha.
  induction l as [|[b tb] r IH]; intros p Hc Hnd Hz Ha; [done|].
  destruct Hc as [-> (nb & Hb & Htb & Hc)].
  rewrite fmap_cons in Hnd, Ha. apply NoDup_cons in Hnd as [Hbr Hnd].
  apply not_elem_of_cons in Ha as [Hab Har]. simpl in Hab.
  destruct r as [|[c tc] r'].
  - simpl in Hz. simplify_eq. simpl in Hc. split; [done|].
    exists (set_next (Some a) nb). rewrite lookup_alter_eq, Hb.
    split; [done|]. split; [by rewrite task_of_set_next|].
    rewrite next_set_next. simpl. split; [done|].
    exists n. rewrite lookup_alter_ne by done. split_and!; done.
  - change (last ((b, tb) :: (c, tc) :: r').*1) with (last ((c, tc) :: r').*1) in Hz.
    split; [done|]. exists nb.
    assert (z ≠ b) as Hzb.
    { intros ->. apply Hbr. by apply last_elem_of. }
    rewrite lookup_alter_ne by done. split_and!; [done..|].
    by apply IH.
Qed.

(** Unlinking a node removes it from the chain. *)
Lemma chain_remove m p l1 a t l2 n :
  chain m p (l1 ++ (a, t) :: l2) → NoDup (l1 ++ (a, t) :: l2).*1 →
  m !! a = Some n →
  match last l1.*1 with
  | None => l1 = [] ∧ p = Some a ∧ chain m (next n) l2
  | Some z => chain (alter (set_next (next n)) z m) p (l1 ++ l2)
  end.
Proof.
  revert p. induction l1 as [|[b tb] r IH]; intros p Hc Hnd Hn.
  - destruct Hc as [-> (n' & Hn' & _ & Hc)]. simplify_eq. done.
  - destruct Hc as [-> (nb & Hb & Htb & Hc)].
    change (NoDup (b :: (r ++ (a, t) :: l2).*1)) in Hnd.
    apply NoDup_cons in Hnd as [Hbr Hnd].
    specialize (IH _ Hc Hnd Hn).
    destruct r as [|[c tc] r'].
    + simpl in *. destruct IH as (_ & Hnext & Hl2).
      split; [done|]. exists (set_next (next n) nb).
      rewrite lookup_alter_eq, Hb. split; [done|].
      split; [by rewrite task_of_set_next|]. rewrite next_set_next.
      eapply chain_frame; [done|]. intros x Hx.
      rewrite lookup_alter_ne; [done|]. intros ->. apply Hbr.
      by apply list_elem_of_further.
    + change (last ((b, tb) :: (c, tc) :: r').*1) with (last ((c, tc) :: r').*1).
      destruct (last ((c, tc) :: r').*1) as [z|] eqn:Hz.
      * split; [done|]. exists nb. rewrite lookup_alter_ne.
        { split_and!; done. }
        intros ->. apply Hbr. rewrite fmap_app. apply elem_of_app. left.
        by apply last_elem_of.
      * by destruct IH.
Qed.

(** Distinct allocated addresses are no more than the store holds. *)
Lemma length_le_size (m : gmap loc N) (l : list loc) :
  NoDup l → (∀ a, a ∈ l → is_Some (m !! a)) → (length l ≤ size m)%nat.
Proof.
  intros Hnd Hin. rewrite <- (size_dom (D:=gset loc)).
  rewrite <- (size_list_to_set (C:=gset loc) l Hnd).
  apply subseteq_size. intros a Ha. apply elem_of_list_to_set in Ha.
  apply elem_of_dom. by apply Hin.
Qed.

Lemma cell_alter_next m z p a t :
  cell m a t → cell (alter (set_next p) z m) a t.
Proof.
  intros (n & Hn & Ht). destruct (decide (z = a)) as [->|Hne].
  - exists (set_next p n). rewrite lookup_alter_eq, Hn.
    by rewrite task_of_set_next.
  - exists n. by rewrite lookup_alter_ne.
Qed.

Lemma cell_insert_ne m a b n t :
  a ≠ b → cell m b t → cell (<[a := n]> m) b t.
Proof. intros Hne (nb & Hb & Ht). exists nb. by rewrite lookup_insert_ne. Qed.

Lemma is_Some_alter (m : gmap loc N) f z a :
  is_Some (alter f z m !! a) ↔ is_Some (m !! a).
Proof.
  destruct (decide (z = a)) as [->|Hne].
  - rewrite lookup_alter_eq. by rewrite fmap_is_Some.
  - by rewrite lookup_alter_ne.
Qed.

(** Appending a node that was just allocated, as [addTask] and
    [loadFromFile] do. *)
Lemma link_last_spec m hd l a n t :
  chain m hd l → NoDup l.*1 → (length l ≤ size m)%nat → a ∉ l.*1 →
  m !! a = Some n → next n = None → task_of n = t →
  ∃ m' hd', link_last m hd a = Some (m', hd') ∧
            chain m' hd' (l ++ [(a, t)]) ∧
            (∀ b u, cell m b u → cell m' b u) ∧
            (∀ b, is_Some (m' !! b) ↔ is_Some (m !! b)).
Proof.
  intros Hc Hnd Hlen Ha Hn Hnx Ht. unfold link_last. destruct hd as [h|].
  - destruct (last_node_chain m h l (fuel m) Hc) as (z & Hz & Hlast).
    { unfold fuel. lia. }
    rewrite Hlast. simpl. eexists _, _. split; [done|]. split_and!.
    + by eapply chain_snoc.
    + intros b u. apply cell_alter_next.
    + intros b. apply is_Some_alter.
  - destruct l as [|[b u] r]; [|by destruct Hc].
    exists m, (Some a). split_and!; [done| |done..].
    simpl. split; [done|]. exists n. by rewrite Hnx.
Qed.

(** A write to the data of a node of the chain. *)
Lemma chain_update m p l a n' :
  chain m p l → (∀ n, m !! a = Some n → next n' = next n) →
  chain (<[a := n']> m) p (upd a (task_of n') <$> l).
Proof.
  intros Hc Hnx. revert p Hc. induction l as [|[b u] r IH]; intros p Hc; [done|].
  destruct Hc as [-> (nb & Hb & Hu & Hc)]. rewrite fmap_cons. unfold upd at 1. simpl.
  destruct (decide (b = a)) as [->|Hne].
  - split; [done|]. exists n'. rewrite lookup_insert_eq. split_and!; [done..|].
    rewrite (Hnx _ Hb). by apply IH.
  - split; [done|]. exists nb. rewrite lookup_insert_ne by done.
    split_and!; [done..|]. by apply IH.
Qed.

End Chains.

Lemma upd_fst a t' (l : list (loc * task)) : (upd a t' <$> l).*1 = l.*1.
Proof.
  induction l as [|[b u] r IH]; [done|]. rewrite !fmap_cons, IH. f_equal.
  unfold upd. simpl. by destruct (decide (b = a)).
Qed.


Lemma NoDup_insert_middle {A} (l sl : list A) x :
  NoDup (l ++ sl) → x ∉ l ++ sl → NoDup ((l ++ [x]) ++ sl).
Proof.
  intros Hnd Hx. rewrite <- app_assoc. simpl.
  apply NoDup_app in Hnd as (Hl & Hdis & Hsl).
  apply not_elem_of_app in Hx as [Hxl Hxs].
  apply NoDup_app. split_and!; [done| |by apply NoDup_cons].
  intros y Hy [->|Hys]%elem_of_cons; [done|]. by eapply Hdis.
Qed.

(** The first node of a list that carries an identifier. *)
Lemma first_with_id (l : list (loc * task)) a0 t0 :
  (a0, t0) ∈ l →
  ∃ l1 a t l2, l = l1 ++ (a, t) :: l2 ∧ task_id t = task_id t0 ∧
               ∀ x, x ∈ l1 → task_id x.2 ≠ task_id t0.
Proof.
  induction l as [|[b tb] r IH]; intros Hin; [by apply elem_of_nil in Hin|].
  destruct (decide (task_id tb = task_id t0)) as [Heq|Hne].
  - exists [], b, tb, r. split_and!; [done..|]. intros x Hx. by apply elem_of_nil in Hx.
  - apply elem_of_cons in Hin as [?|Hin]; [by simplify_eq|].
    destruct (IH Hin) as (l1 & a & t & l2 & -> & Ht & Hl1).
    exists ((b, tb) :: l1), a, t, l2. split_and!; [done..|].
    intros x [->|Hx]%elem_of_cons; [done|by apply Hl1].
Qed.

Section ChainLinks.
Context {N : Type} {LN : Linkable N}.

(** The node before a node of the chain points to it. *)
Lemma chain_last_next (m : gmap loc N) p l1 a t l2 z :
  chain m p (l1 ++ (a, t) :: l2) → last l1.*1 = Some z →
  ∃ cn, m !! z = Some cn ∧ next cn = Some a.
Proof.
  revert p. induction l1 as [|[b tb] r IH]; intros p Hc Hz; [done|].
  destruct Hc as [-> (nb & Hb & Htb & Hc)].
  destruct r as [|[c tc] r'].
  - simpl in Hz. injection Hz as <-. exists nb. split; [done|].
    by destruct Hc as [? _].
  - apply (IH (next nb)); [done|].
    rewrite fmap_cons, last_cons in Hz.
    destruct (last ((c, tc) :: r').*1) eqn:E; [done|].
    by apply last_None in E.
Qed.

End ChainLinks.

Lemma NoDup_insert_middle' {A} (l sl : list A) x :
  NoDup (l ++ sl) → x ∉ l ++ sl → NoDup (l ++ x :: sl).
Proof.
  intros Hnd Hx. apply (NoDup_insert_middle l sl x) in Hnd; [|done].
  by rewrite <- app_assoc in Hnd.
Qed.

(** Membership in the lists of the invariant, brought to a disjunction of
    memberships in their parts. *)
Ltac elems :=
  repeat (rewrite ?fmap_app, ?fmap_cons, ?elem_of_app, ?elem_of_cons,
            ?not_elem_of_app, ?not_elem_of_cons in * );
  simpl fst in *.

Lemma NoDup_remove_middle {A} (l1 l2 : list A) x :
  NoDup (l1 ++ x :: l2) → NoDup (l1 ++ l2) ∧ x ∉ l1 ++ l2.
Proof.
  intros H. apply NoDup_app in H as (H1 & Hd & H2).
  apply NoDup_cons in H2 as [Hx H2]. split.
  - apply NoDup_app. split_and!; [done| |done].
    intros y Hy Hy2. apply (Hd y Hy). by apply list_elem_of_further.
  - intros [Hin|Hin]%elem_of_app; [|done].
    apply (Hd x Hin). apply list_elem_of_here.
Qed.

Lemma NoDup_fst_unique {A B} (l : list (A * B)) a t u :
  NoDup l.*1 → (a, t) ∈ l → (a, u) ∈ l → t = u.
Proof.
  induction l as [|[b v] r IH]; intros Hnd Ht Hu; [by apply elem_of_nil in Ht|].
  rewrite fmap_cons in Hnd. apply NoDup_cons in Hnd as [Hb Hnd].
  apply elem_of_cons in Ht as [Ht|Ht]; apply elem_of_cons in Hu as [Hu|Hu].
  - congruence.
  - injection Ht as -> ->. destruct Hb. by apply (list_elem_of_fmap_2 fst _ (b, u)).
  - injection Hu as -> ->. destruct Hb. by apply (list_elem_of_fmap_2 fst _ (b, t)).
  - by apply IH.
Qed.

End LinkedFacts.

(** ** projecttt.cpp: the invariant and the properties *)

Module ProjectttSpec.
Import Cxx Linked Projecttt CxxFacts LinkedFacts.

(** *** The invariant and the calls *)

(** The loop of [deleteTask] stops at the first node carrying the
    identifier, with [prev] the node before it. *)
Lemma find_node_chain m i l1 a t l2 k prev p :
  chain m p (l1 ++ (a, t) :: l2) → task_id t = i →
  (∀ x, x ∈ l1 → task_id x.2 ≠ i) →
  (length (l1 ++ (a, t) :: l2) ≤ k)%nat →
  find_node k m i prev p =
    Some (match last l1.*1 with Some z => Some z | None => prev end, Some a).
Proof.
  revert k prev p. induction l1 as [|[b tb] r IH]; intros k prev p Hc Hi Hne Hk.
  - destruct Hc as [-> (n & Hn & Ht & Hc)]. simpl in Hk.
    destruct k as [|k]; [lia|]. simpl. rewrite Hn. simpl.
    assert (id n = i) as -> by (by rewrite <- Hi, <- Ht).
    by rewrite Z.eqb_refl.
  - destruct Hc as [-> (n & Hn & Ht & Hc)]. simpl in Hk.
    destruct k as [|k]; [lia|]. simpl. rewrite Hn. simpl.
    assert (id n ≠ i) as Hni.
    { specialize (Hne (b, tb) (list_elem_of_here _ _)). by rewrite <- Ht in Hne. }
    apply Z.eqb_neq in Hni. rewrite Hni.
    erewrite IH; [|done..| |lia].
    + f_equal. f_equal. rewrite last_cons. simpl.
      by destruct (last _).
    + intros x Hx. apply Hne. by apply list_elem_of_further.
Qed.

Lemma Inv_live_allocated w l sl a :
  Inv w l sl → a ∈ l.*1 → is_Some (store w !! a).
Proof.
  intros HI Ha. apply list_elem_of_fmap in Ha as ([b t] & -> & Hin).
  destruct (chain_cells _ _ _ _ _ (inv_chain _ _ _ HI) Hin) as (n & Hn & _).
  by exists n.
Qed.

Lemma Inv_nodup_live w l sl : Inv w l sl → NoDup l.*1.
Proof.
  intros HI. pose proof (inv_nodup _ _ _ HI) as H.
  rewrite fmap_app in H. by apply NoDup_app in H as (? & _ & _).
Qed.

(** The fuel given to the loops covers the whole list. *)
Lemma Inv_fuel w l sl : Inv w l sl → (length l ≤ size (store w))%nat.
Proof.
  intros HI. rewrite <- (length_fmap fst l). apply length_le_size.
  - by eapply Inv_nodup_live.
  - intros a. by eapply Inv_live_allocated.
Qed.

Lemma Inv_fresh w l sl :
  Inv w l sl → fresh (dom (store w)) ∉ (l ++ sl).*1.
Proof.
  intros HI Hin. apply (is_fresh (dom (store w))).
  apply elem_of_dom. rewrite fmap_app in Hin.
  apply elem_of_app in Hin as [Hin|Hin].
  - by eapply Inv_live_allocated.
  - apply list_elem_of_fmap in Hin as ([b t] & -> & Hin).
    destruct (inv_cells _ _ _ HI _ _ Hin) as (n & Hn & _). by exists n.
Qed.

(** Inserting a node at the end, with its identifier entered in the table:
    the step shared by [addTask] and a record line of [loadFromFile]. *)
Lemma Inv_append w l sl a n t m' hd' nid :
  Inv w l sl →
  a = fresh (dom (store w)) →
  link_last (<[a := n]> (store w)) (head (data w)) a = Some (m', hd') →
  next n = None → task_of n = t →
  INT_MIN ≤ task_id t → in_int (task_priority t) = true →
  task_id t < nid → nextId (data w) ≤ nid ≤ INT_MAX →
  totalTasks (data w) < INT_MAX →
  Inv (World m' (mkData hd' (<[task_id t := a]> (taskMap (data w)))
                   (deletedStack (data w)) nid (totalTasks (data w) + 1)))
      (l ++ [(a, t)]) sl.
Proof.
  intros HI -> Hlink Hnx Ht Hid Hpr Hlt Hnid Htot.
  set (a := fresh (dom (store w))) in *.
  pose proof (Inv_fresh _ _ _ HI) as Hfr. fold a in Hfr.
  assert (a ∉ l.*1) as Hal.
  { intros ?. apply Hfr. rewrite fmap_app. apply elem_of_app. by left. }
  assert (store w !! a = None) as Hnone.
  { apply not_elem_of_dom. apply is_fresh. }
  destruct (link_last_spec (<[a := n]> (store w)) (head (data w)) l a n t)
    as (m2 & hd2 & Hlink2 & Hch & Hcell & Hdom); [..|done|done|].
  - eapply chain_frame; [apply (inv_chain _ _ _ HI)|].
    intros b Hb. rewrite lookup_insert_ne; [done|]. intros Heq. apply Hal. by rewrite Heq.
  - by eapply Inv_nodup_live.
  - rewrite map_size_insert_None by done. pose proof (Inv_fuel _ _ _ HI). lia.
  - done.
  - apply lookup_insert_eq.
  - assert (m2 = m' ∧ hd2 = hd') as [-> ->].
    { rewrite Hlink in Hlink2. by injection Hlink2. }
    destruct (inv_total _ _ _ HI) as [Hlen Hmax].
    split; simpl.
    + done.
    + apply (inv_stack _ _ _ HI).
    + intros b u Hin. apply Hcell. apply cell_insert_ne.
      * intros <-. apply Hfr. rewrite fmap_app. apply elem_of_app. right.
        by apply (list_elem_of_fmap_2 fst _ (a, u)).
      * by apply (inv_cells _ _ _ HI).
    + rewrite !fmap_app. apply NoDup_insert_middle.
      * rewrite <- fmap_app. apply (inv_nodup _ _ _ HI).
      * by rewrite <- fmap_app.
    + intros b Hb. apply Hdom in Hb. rewrite !fmap_app.
      destruct (decide (a = b)) as [<-|Hne].
      * apply elem_of_app. left. apply elem_of_app. right. apply list_elem_of_here.
      * rewrite lookup_insert_ne in Hb by done.
        apply (inv_dom _ _ _ HI) in Hb. rewrite fmap_app in Hb.
        apply elem_of_app in Hb as [Hb|Hb]; apply elem_of_app; [left|by right].
        apply elem_of_app. by left.
    + intros i b Hib. destruct (decide (task_id t = i)) as [<-|Hne].
      * rewrite lookup_insert_eq in Hib. injection Hib as <-. exists t. split; [|done].
        apply elem_of_app. right. apply list_elem_of_here.
      * rewrite lookup_insert_ne in Hib by done.
        destruct (inv_map _ _ _ HI _ _ Hib) as (u & Hu & Hiu).
        exists u. split; [|done]. apply elem_of_app. by left.
    + intros b u Hin. rewrite <- app_assoc in Hin.
      apply elem_of_app in Hin as [Hin|Hin].
      * destruct (inv_ids _ _ _ HI b u) as [[??] ?]; [apply elem_of_app; by left|].
        split; [lia|done].
      * apply elem_of_cons in Hin as [Heq|Hin].
        -- injection Heq as -> ->. split; [lia|done].
        -- destruct (inv_ids _ _ _ HI b u) as [[??] ?]; [apply elem_of_app; by right|].
           split; [lia|done].
    + pose proof (inv_next _ _ _ HI). lia.
    + rewrite length_app. simpl. split; lia.
Qed.

Lemma link_last_defined w l sl n :
  Inv w l sl → next n = None →
  ∃ m' hd', link_last (<[fresh (dom (store w)) := n]> (store w))
              (head (data w)) (fresh (dom (store w))) = Some (m', hd').
Proof.
  intros HI Hnx. set (a := fresh (dom (store w))).
  pose proof (Inv_fresh _ _ _ HI) as Hfr. fold a in Hfr.
  assert (a ∉ l.*1) as Hal.
  { intros ?. apply Hfr. rewrite fmap_app. apply elem_of_app. by left. }
  assert (store w !! a = None) as Hnone.
  { apply not_elem_of_dom. apply is_fresh. }
  destruct (link_last_spec (<[a := n]> (store w)) (head (data w)) l a n (task_of n))
    as (m2 & hd2 & Hlink2 & _); [..|done|done|by eauto].
  - eapply chain_frame; [apply (inv_chain _ _ _ HI)|].
    intros b Hb. rewrite lookup_insert_ne; [done|]. intros Heq. apply Hal. by rewrite Heq.
  - by eapply Inv_nodup_live.
  - rewrite map_size_insert_None by done. pose proof (Inv_fuel _ _ _ HI). lia.
  - done.
  - apply lookup_insert_eq.
Qed.

(** The priority [addTask] stores. *)
Lemma clamp_range p :
  in_int (if (p <? 1) || (p >? 5) then 1 else p) = true.
Proof.
  apply in_int_spec. unfold INT_MIN, INT_MAX.
  destruct (p <? 1) eqn:E1; simpl; [lia|].
  destruct (p >? 5) eqn:E2; simpl; [lia|].
  apply Z.ltb_ge in E1. rewrite Z.gtb_ltb in E2. apply Z.ltb_ge in E2. lia.
Qed.

(** [addTask] with a description that is not empty: it appends the task
    and returns, unless a counter is at [INT_MAX]. *)
Lemma addTask_spec w l sl desc p :
  Inv w l sl → empty desc = false →
  match addTask w desc p with
  | Returns out w' =>
      out = [MsgAdded (nextId (data w))] ∧
      ∃ a, store w !! a = None ∧
           Inv w' (l ++ [(a, Task (nextId (data w)) desc
                              (if (p <? 1) || (p >? 5) then 1 else p) false)]) sl ∧
           taskMap (data w') = <[nextId (data w) := a]> (taskMap (data w)) ∧
           deletedStack (data w') = deletedStack (data w) ∧
           nextId (data w') = nextId (data w) + 1 ∧
           totalTasks (data w') = totalTasks (data w) + 1
  | Throws _ _ => False
  | Undefined => nextId (data w) = INT_MAX ∨ totalTasks (data w) = INT_MAX
  end.
Proof.
  intros HI Hd. unfold addTask, new. rewrite Hd.
  set (a := fresh (dom (store w))).
  set (n := mkNode _ _ _ _ _).
  destruct (link_last_defined w l sl n HI eq_refl) as (m' & hd' & Hlink).
  fold a in Hlink. rewrite Hlink. simpl.
  pose proof (inv_next _ _ _ HI) as Hnext.
  destruct (inv_total _ _ _ HI) as [Hlen Hmax].
  destruct (decide (nextId (data w) = INT_MAX)) as [?|Hn].
  { rewrite (int_add_None (nextId (data w)))
      by (unfold INT_MAX, INT_MIN in *; lia). simpl. by left. }
  rewrite (int_add_Some (nextId (data w)))
    by (unfold INT_MAX, INT_MIN in *; lia). simpl.
  destruct (decide (totalTasks (data w) = INT_MAX)) as [?|Ht].
  { rewrite (int_add_None (totalTasks (data w)))
      by (unfold INT_MAX, INT_MIN in *; lia). simpl. by right. }
  rewrite (int_add_Some (totalTasks (data w)))
    by (unfold INT_MAX, INT_MIN in *; lia). simpl.
  split; [done|]. exists a. split_and!; [|..|done|done|done|done].
  - apply not_elem_of_dom. apply is_fresh.
  - apply (Inv_append w l sl a n (task_of n) m' hd'); try done.
    + simpl. unfold INT_MIN. lia.
    + apply clamp_range.
    + simpl. lia.
    + lia.
    + lia.
Qed.

(** [deleteTask] for an identifier of the table: the first node of the
    list carrying it goes to the undo history. *)
Lemma deleteTask_spec w l sl i a0 :
  Inv w l sl → taskMap (data w) !! i = Some a0 →
  ∃ l1 a t l2 c w',
    l = l1 ++ (a, t) :: l2 ∧ task_id t = i ∧
    (∀ x, x ∈ l1 → task_id x.2 ≠ i) ∧
    deleteTask w i = Returns [MsgDeleted] w' ∧
    Inv w' (l1 ++ l2) ((c, t) :: sl) ∧
    taskMap (data w') = delete i (taskMap (data w)) ∧
    nextId (data w') = nextId (data w) ∧
    totalTasks (data w') = totalTasks (data w) - 1.
Proof.
  intros HI Hmap.
  destruct (inv_map _ _ _ HI _ _ Hmap) as (t0 & Hin0 & Hi0).
  destruct (first_with_id l a0 t0 Hin0) as (l1 & a & t & l2 & Hl & Hti & Hl1).
  rewrite Hi0 in Hti, Hl1. subst l.
  pose proof (inv_chain _ _ _ HI) as Hch.
  pose proof (Inv_nodup_live _ _ _ HI) as Hnd.
  pose proof (Inv_fuel _ _ _ HI) as Hfuel.
  destruct (chain_cells _ _ _ a t Hch) as (n & Hn & Hnt).
  { apply elem_of_app. right. apply list_elem_of_here. }
  pose proof (chain_remove _ _ _ _ _ _ n Hch Hnd Hn) as Hrem.
  set (m1 := match last l1.*1 with
             | None => store w
             | Some z => alter (set_next (next n)) z (store w)
             end).
  set (hd1 := match last l1.*1 with
              | None => next n
              | Some z => head (data w)
              end).
  assert (chain m1 hd1 (l1 ++ l2)) as Hch1.
  { unfold m1, hd1. destruct (last l1.*1); [done|].
    by destruct Hrem as (-> & _ & ?). }
  assert (∀ b u, cell (store w) b u → cell m1 b u) as Hcell1.
  { intros b u Hc. unfold m1. destruct (last l1.*1); [|done].
    exact (cell_alter_next (store w) p (next n) b u Hc). }
  assert (∀ b, is_Some (m1 !! b) ↔ is_Some (store w !! b)) as Hsome1.
  { intros b. unfold m1. destruct (last l1.*1); [|done].
    exact (is_Some_alter (store w) _ p b). }
  assert (dom m1 = dom (store w)) as Hdom1.
  { apply set_eq. intros b. rewrite !elem_of_dom. apply Hsome1. }
  set (c := fresh (dom m1)).
  set (cp := mkNode (id n) (description n) (priority n) (completed n) None).
  destruct (inv_total _ _ _ HI) as [Hlen Hmax].
  rewrite length_app in Hlen. simpl in Hlen.
  exists l1, a, t, l2, c,
    (World (delete a (<[c := cp]> m1))
       (mkData hd1 (delete i (taskMap (data w))) (c :: deletedStack (data w))
          (nextId (data w)) (totalTasks (data w) - 1))).
  split_and!; [done..| | |done|done|done].
  - unfold deleteTask. rewrite Hmap.
    rewrite (find_node_chain _ i l1 a t l2 _ None _ Hch Hti Hl1) by (unfold fuel; lia).
    simpl. rewrite Hn. simpl.
    rewrite int_sub_Some by (unfold INT_MIN, INT_MAX in *; lia). simpl.
    unfold c, cp, m1, hd1, new. by destruct (last l1.*1).
  - assert (c ∉ (l1 ++ (a, t) :: l2 ++ sl).*1) as Hc.
    { unfold c. rewrite Hdom1. rewrite app_comm_cons, app_assoc.
      by eapply Inv_fresh. }
    assert (m1 !! c = None) as Hcnone.
    { apply not_elem_of_dom. apply is_fresh. }
    pose proof (inv_nodup _ _ _ HI) as Hndall.
    rewrite <- app_assoc, <- app_comm_cons, fmap_app, fmap_cons in Hndall.
    apply NoDup_remove_middle in Hndall as [Hnd' Ha].
    elems. split; simpl.
    + eapply chain_frame; [done|]. intros b Hb. elems.
      rewrite lookup_delete_ne by intuition congruence.
      rewrite lookup_insert_ne by intuition congruence. done.
    + by rewrite (inv_stack _ _ _ HI).
    + intros b u [Heq|Hin]%elem_of_cons.
      * injection Heq as -> ->. exists cp.
        rewrite lookup_delete_ne by intuition congruence. by rewrite lookup_insert_eq.
      * pose proof (list_elem_of_fmap_2 fst _ _ Hin) as Hb. simpl in Hb.
        destruct (Hcell1 b u (inv_cells _ _ _ HI _ _ Hin)) as (nb & Hnb & Hu).
        exists nb. rewrite lookup_delete_ne by intuition congruence.
        by rewrite lookup_insert_ne by intuition congruence.
    + rewrite !fmap_app, fmap_cons, <- app_assoc. rewrite app_assoc.
      apply NoDup_insert_middle'.
      * by rewrite <- app_assoc.
      * elems. intuition congruence.
    + intros b Hb. elems.
      destruct (decide (b = a)) as [->|Hba].
      { by rewrite lookup_delete_eq in Hb; destruct Hb. }
      rewrite lookup_delete_ne in Hb by done.
      destruct (decide (b = c)) as [->|Hbc]; [intuition congruence|].
      rewrite lookup_insert_ne in Hb by done. apply Hsome1 in Hb.
      apply (inv_dom _ _ _ HI) in Hb. elems. intuition congruence.
    + intros j b Hjb. destruct (decide (i = j)) as [<-|Hij].
      { by rewrite lookup_delete_eq in Hjb. }
      rewrite lookup_delete_ne in Hjb by done.
      destruct (inv_map _ _ _ HI _ _ Hjb) as (u & Hu & Huj).
      exists u. split; [|done]. elems.
      destruct Hu as [?|[Heq|?]]; [by left| |by right].
      injection Heq as -> ->. congruence.
    + intros b u Hin. elems.
      assert ((b, u) = (c, t) ∨ (b, u) ∈ (l1 ++ (a, t) :: l2) ++ sl) as [Heq|Hin'].
      { elems. tauto. }
      * injection Heq as -> ->. apply (inv_ids _ _ _ HI a t). elems. tauto.
      * by apply (inv_ids _ _ _ HI b u).
    + apply (inv_next _ _ _ HI).
    + rewrite length_app. split; lia.
Qed.

(** [undoDelete] with a history that is not empty: the copy on top of the
    stack becomes the first node of the list. *)
Lemma undoDelete_spec w l c t sl :
  Inv w l ((c, t) :: sl) →
  match undoDelete w with
  | Returns out w' =>
      out = [MsgRestored (task_id t)] ∧
      Inv w' ((c, t) :: l) sl ∧
      taskMap (data w') = <[task_id t := c]> (taskMap (data w)) ∧
      nextId (data w') = Z.max (nextId (data w)) (task_id t + 1) ∧
      nextId (data w') = nextId (data w) ∧
      totalTasks (data w') = totalTasks (data w) + 1
  | Throws _ _ => False
  | Undefined => totalTasks (data w) = INT_MAX
  end.
Proof.
  intros HI. unfold undoDelete.
  pose proof (inv_stack _ _ _ HI) as Hst. rewrite fmap_cons in Hst. simpl in Hst.
  rewrite Hst.
  destruct (inv_cells _ _ _ HI c t) as (n & Hn & Hnt); [apply list_elem_of_here|].
  rewrite Hn. simpl.
  destruct (inv_total _ _ _ HI) as [Hlen Hmax].
  pose proof (inv_next _ _ _ HI) as Hnext.
  destruct (inv_ids _ _ _ HI c t) as [Hid Hpr].
  { elems. tauto. }
  assert (id n = task_id t) as Hidn by (by rewrite <- Hnt).
  destruct (decide (totalTasks (data w) = INT_MAX)) as [?|Ht].
  { rewrite (int_add_None (totalTasks (data w)))
      by (unfold INT_MAX, INT_MIN in *; lia). done. }
  rewrite (int_add_Some (totalTasks (data w)))
    by (unfold INT_MAX, INT_MIN in *; lia). simpl.
  rewrite (int_add_Some (id n)) by (unfold INT_MAX, INT_MIN in *; lia). simpl.
  rewrite Hidn.
  split_and!; [done| |done|done|lia|done].
  pose proof (inv_nodup _ _ _ HI) as Hnd.
  rewrite fmap_app, fmap_cons in Hnd.
  apply NoDup_remove_middle in Hnd as [Hnd Hc]. simpl in Hc.
  split; simpl.
  - split; [done|]. exists (set_next (head (data w)) n).
    rewrite lookup_insert_eq. split_and!; [done..|]. simpl.
    eapply chain_frame; [apply (inv_chain _ _ _ HI)|].
    intros b Hb. rewrite lookup_insert_ne; [done|]. intros <-. elems. tauto.
  - done.
  - intros b u Hin. apply cell_insert_ne.
    + intros <-. pose proof (list_elem_of_fmap_2 fst _ _ Hin). elems. tauto.
    + apply (inv_cells _ _ _ HI). by apply list_elem_of_further.
  - rewrite fmap_app. apply NoDup_cons. split; [elems; tauto|done].
  - intros b Hb. destruct (decide (c = b)) as [<-|Hne]; [elems; tauto|].
    rewrite lookup_insert_ne in Hb by done.
    apply (inv_dom _ _ _ HI) in Hb. elems. tauto.
  - intros i b Hib. destruct (decide (task_id t = i)) as [<-|Hne].
    + rewrite lookup_insert_eq in Hib. injection Hib as <-.
      exists t. split; [apply list_elem_of_here|done].
    + rewrite lookup_insert_ne in Hib by done.
      destruct (inv_map _ _ _ HI _ _ Hib) as (u & Hu & Hiu).
      exists u. split; [by apply list_elem_of_further|done].
  - intros b u Hin. rewrite Z.max_l by lia.
    apply (inv_ids _ _ _ HI b u). elems. tauto.
  - lia.
  - split; [lia|]. unfold INT_MAX in *. lia.
Qed.

Lemma undoDelete_empty w :
  deletedStack (data w) = [] → undoDelete w = Returns [MsgNothingToUndo] w.
Proof. intros H. unfold undoDelete. by rewrite H. Qed.

(** *** Writes through the table *)

Lemma Inv_cell_unique w l sl a t n :
  Inv w l sl → (a, t) ∈ l → store w !! a = Some n → t = task_of n.
Proof.
  intros HI Hin Hn.
  destruct (chain_cells _ _ _ _ _ (inv_chain _ _ _ HI) Hin) as (n0 & Hn0 & Ht).
  simpl in Ht. congruence.
Qed.

(** A write to the data of a live node keeps the invariant. *)
Lemma Inv_update w l sl a t n n' :
  Inv w l sl → (a, t) ∈ l → store w !! a = Some n →
  next n' = next n → id n' = id n → in_int (priority n') = true →
  Inv (World (<[a := n']> (store w)) (data w)) (upd a (task_of n') <$> l) sl.
Proof.
  intros HI Hin Hn Hnx Hid Hpr.
  pose proof (Inv_cell_unique _ _ _ _ _ _ HI Hin Hn) as ->.
  pose proof (list_elem_of_fmap_2 fst _ _ Hin) as Hal. simpl in Hal.
  pose proof (inv_nodup _ _ _ HI) as Hnd. rewrite fmap_app in Hnd.
  apply NoDup_app in Hnd as (Hndl & Hdis & Hnds).
  split; cbn [store data head taskMap deletedStack nextId totalTasks].
  - refine (chain_update (store w) _ l a n' (inv_chain _ _ _ HI) _).
    intros n0 Hn0. simpl. congruence.
  - apply (inv_stack _ _ _ HI).
  - intros b u Hb. apply cell_insert_ne; [|by apply (inv_cells _ _ _ HI)].
    intros <-. apply (Hdis a Hal). by apply (list_elem_of_fmap_2 fst _ (a, u)).
  - rewrite fmap_app, upd_fst, <- fmap_app. apply (inv_nodup _ _ _ HI).
  - intros b Hb. rewrite fmap_app, upd_fst, <- fmap_app.
    destruct (decide (a = b)) as [<-|Hne].
    + rewrite fmap_app. apply elem_of_app. by left.
    + rewrite lookup_insert_ne in Hb by done. by apply (inv_dom _ _ _ HI).
  - intros i b Hib. destruct (inv_map _ _ _ HI _ _ Hib) as (u & Hu & Hiu).
    exists (upd a (task_of n') (b, u)).2. split.
    + assert (upd a (task_of n') (b, u) = (b, (upd a (task_of n') (b, u)).2)) as Heq.
      { unfold upd. simpl. by destruct (decide (b = a)) as [->|?]. }
      rewrite <- Heq. by apply list_elem_of_fmap_2.
    + unfold upd. simpl. destruct (decide (b = a)) as [->|?]; [|done]. simpl.
      rewrite Hid. rewrite <- Hiu.
      by rewrite (Inv_cell_unique _ _ _ _ _ _ HI Hu Hn).
  - intros b u Hb. apply elem_of_app in Hb as [Hb|Hb].
    + apply list_elem_of_fmap in Hb as ([b0 u0] & Heq & Hb0).
      unfold upd in Heq. simpl in Heq.
      destruct (decide (b0 = a)) as [->|?].
      * injection Heq as -> ->. simpl. rewrite Hid.
        destruct (inv_ids _ _ _ HI a (task_of n)) as [? _]; [elems; tauto|].
        by split.
      * injection Heq as -> ->. apply (inv_ids _ _ _ HI b0 u0). elems. tauto.
    + apply (inv_ids _ _ _ HI b u). elems. tauto.
  - apply (inv_next _ _ _ HI).
  - rewrite length_fmap. apply (inv_total _ _ _ HI).
Qed.

Lemma editTask_spec w l sl i a nd np :
  Inv w l sl → taskMap (data w) !! i = Some a →
  ∃ n, store w !! a = Some n ∧ id n = i ∧
    let n' := mkNode i (if empty nd then description n else nd)
                (edited_priority (priority n) np) (completed n) (next n) in
    editTask w i nd np =
      Returns ([MsgCurrentDescription (description n); MsgPromptDescription;
                MsgCurrentPriority (priority n); MsgPromptPriority]
               ++ edit_report np ++ [MsgUpdated i])
        (World (<[a := n']> (store w)) (data w)) ∧
    Inv (World (<[a := n']> (store w)) (data w)) (upd a (task_of n') <$> l) sl.
Proof.
  intros HI Hmap. destruct (inv_map _ _ _ HI _ _ Hmap) as (t & Hin & Hti).
  destruct (chain_cells _ _ _ _ _ (inv_chain _ _ _ HI) Hin) as (n & Hn & Hnt).
  assert (id n = i) as Hidn by (by rewrite <- Hti, <- Hnt).
  exists n. split; [done|]. split; [done|]. cbv zeta. split.
  - unfold editTask. cbv zeta. rewrite Hmap, Hn. simpl.
    destruct n as [ni nd0 npr nc nn]. simpl in *. subst ni.
    destruct np as [v|]; simpl.
    + destruct ((1 <=? v) && (v <=? 5)); simpl.
      * by destruct (empty nd).
      * destruct (negb (v =? 0)); by destruct (empty nd).
    + by destruct (empty nd).
  - eapply Inv_update; [done..| | |]; simpl; [done|done|].
    destruct (inv_ids _ _ _ HI a t) as [_ Hpr]; [elems; tauto|].
    rewrite <- Hnt in Hpr. simpl in Hpr.
    unfold edited_priority. destruct np as [v|]; [|done].
    destruct ((1 <=? v) && (v <=? 5)) eqn:E; [|done].
    apply andb_true_iff in E as [E1 E2]. apply Z.leb_le in E1, E2.
    apply in_int_spec. unfold INT_MIN, INT_MAX. lia.
Qed.

Lemma markComplete_spec w l sl i a done :
  Inv w l sl → taskMap (data w) !! i = Some a →
  ∃ n, store w !! a = Some n ∧ id n = i ∧
    markComplete w i done =
      Returns [MsgMarked i done]
        (World (<[a := set_completed done n]> (store w)) (data w)) ∧
    Inv (World (<[a := set_completed done n]> (store w)) (data w))
        (upd a (task_of (set_completed done n)) <$> l) sl.
Proof.
  intros HI Hmap. destruct (inv_map _ _ _ HI _ _ Hmap) as (t & Hin & Hti).
  destruct (chain_cells _ _ _ _ _ (inv_chain _ _ _ HI) Hin) as (n & Hn & Hnt).
  assert (id n = i) as Hidn by (by rewrite <- Hti, <- Hnt).
  exists n. split_and!; [done..| |].
  - unfold markComplete. by rewrite Hmap, Hn.
  - eapply Inv_update; [done..|]. simpl.
    destruct (inv_ids _ _ _ HI a t) as [_ Hpr]; [elems; tauto|].
    by rewrite <- Hnt in Hpr.
Qed.

(** [searchTask] shows the task the table holds for the identifier. *)
Lemma searchTask_spec w l sl i a :
  Inv w l sl → taskMap (data w) !! i = Some a →
  ∃ t, (a, t) ∈ l ∧ task_id t = i ∧
       searchTask w i =
         Returns [MsgTaskFound i (task_description t) (task_priority t)
                    (task_completed t)] w.
Proof.
  intros HI Hmap. destruct (inv_map _ _ _ HI _ _ Hmap) as (t & Hin & Hti).
  destruct (chain_cells _ _ _ _ _ (inv_chain _ _ _ HI) Hin) as (n & Hn & Hnt).
  exists t. split_and!; [done..|]. unfold searchTask. rewrite Hmap, Hn. simpl.
  by rewrite <- Hti, <- Hnt.
Qed.

Lemma searchTask_absent w i :
  taskMap (data w) !! i = None → searchTask w i = Returns [MsgNotFound] w.
Proof. intros H. unfold searchTask. by rewrite H. Qed.

(** The traversal shows the live list. *)
Lemma listAll_spec w l sl :
  Inv w l sl → ∃ ns, listAll w = Some ns ∧ task_of <$> ns = l.*2.
Proof.
  intros HI.
  refine (walk_chain (store w) (head (data w)) l _ (inv_chain _ _ _ HI) _).
  pose proof (Inv_fuel _ _ _ HI). unfold fuel. lia.
Qed.

Lemma tasks_spec w l sl : Inv w l sl → tasks w = Some l.*2.
Proof.
  intros HI. destruct (listAll_spec _ _ _ HI) as (ns & Hl & Hns).
  unfold tasks. rewrite Hl. simpl. by rewrite <- Hns.
Qed.

Lemma printAll_spec w l sl :
  Inv w l sl → ∃ out, printAll w = Returns out w.
Proof.
  intros HI. unfold printAll. destruct (head (data w)); [|by eauto].
  destruct (listAll_spec _ _ _ HI) as (ns & -> & _). simpl. by eauto.
Qed.

(** *** Loading *)

Lemma stoi_in_int s z : stoi s = Value z → in_int z = true.
Proof.
  unfold stoi. destruct (split_sign (skip_spaces s)) as [neg u].
  destruct (starts_with_digit u); [|done].
  destruct (in_int _) eqn:E; [|done]. by intros [= <-].
Qed.

Lemma insert_record_spec w l sl tid desc prio done :
  Inv w l sl → in_int tid = true → in_int prio = true →
  match insert_record w tid desc prio done with
  | Returns out w' =>
      out = [] ∧
      ∃ a, store w !! a = None ∧
           Inv w' (l ++ [(a, Task tid desc prio (negb (done =? 0)))]) sl ∧
           taskMap (data w') = <[tid := a]> (taskMap (data w)) ∧
           nextId (data w') = Z.max (nextId (data w)) (tid + 1) ∧
           totalTasks (data w') = totalTasks (data w) + 1
  | Throws _ _ => False
  | Undefined => tid = INT_MAX ∨ totalTasks (data w) = INT_MAX
  end.
Proof.
  intros HI Htid Hprio. unfold insert_record, new.
  set (a := fresh (dom (store w))).
  set (n := mkNode _ _ _ _ _).
  destruct (link_last_defined w l sl n HI eq_refl) as (m' & hd' & Hlink).
  fold a in Hlink. rewrite Hlink. simpl.
  pose proof (inv_next _ _ _ HI) as Hnext.
  destruct (inv_total _ _ _ HI) as [Hlen Hmax].
  apply in_int_spec in Htid.
  destruct (decide (tid = INT_MAX)) as [?|Hn].
  { rewrite (int_add_None tid) by (unfold INT_MAX, INT_MIN in *; lia). simpl. by left. }
  rewrite (int_add_Some tid) by (unfold INT_MAX, INT_MIN in *; lia). simpl.
  destruct (decide (totalTasks (data w) = INT_MAX)) as [?|Ht].
  { rewrite (int_add_None (totalTasks (data w)))
      by (unfold INT_MAX, INT_MIN in *; lia). simpl. by right. }
  rewrite (int_add_Some (totalTasks (data w)))
    by (unfold INT_MAX, INT_MIN in *; lia). simpl.
  split; [done|]. exists a. split_and!; [|..|done|done|done].
  - apply not_elem_of_dom. apply is_fresh.
  - apply (Inv_append w l sl a n (task_of n) m' hd'); try done.
    + simpl. lia.
    + simpl. lia.
    + unfold INT_MAX in *. lia.
    + lia.
Qed.

Lemma load_line_inv w l sl line :
  Inv w l sl →
  match load_line w line with
  | Returns out w' =>
      out = [] ∧ nextId (data w) ≤ nextId (data w') ∧ ∃ l', Inv w' l' sl
  | Throws e w' => w' = w
  | Undefined => True
  end.
Proof.
  intros HI. unfold load_line. destruct (empty line); [split_and!; [done|lia|by eauto]|]. cbv zeta.
  destruct (find_from pipe 0 line) as [q1|]; [|split_and!; [done|lia|by eauto]].
  destruct (find_from pipe (pos_succ (Some q1)) line) as [q2|]; [|split_and!; [done|lia|by eauto]].
  destruct (find_from pipe (pos_succ (Some q2)) line) as [q3|]; [|split_and!; [done|lia|by eauto]].
  destruct (stoi (substr line 0 q1)) as [tid|e] eqn:E1; [|done].
  destruct (stoi (substr line (q2 + 1) (q3 - q2 - 1))) as [prio|e] eqn:E2; [|done].
  destruct (stoi (substr_from line (q3 + 1))) as [dn|e] eqn:E3; [|done].
  pose proof (insert_record_spec w l sl tid
                (substr line (q1 + 1) (q2 - q1 - 1)) prio dn HI
                (stoi_in_int _ _ E1) (stoi_in_int _ _ E2)) as H.
  destruct (insert_record _ _ _ _ _); [|done..].
  destruct H as (-> & a & _ & HI' & _ & Hn & _).
  split_and!; [done|lia|by eauto].
Qed.

Lemma load_lines_inv w l sl lines :
  Inv w l sl →
  match load_lines w lines with
  | Returns out w' =>
      out = [] ∧ nextId (data w) ≤ nextId (data w') ∧ ∃ l', Inv w' l' sl
  | Throws e w' => nextId (data w) ≤ nextId (data w') ∧ ∃ l', Inv w' l' sl
  | Undefined => True
  end.
Proof.
  revert w l. induction lines as [|line rest IH]; intros w l HI; simpl.
  - split_and!; [done|lia|by eauto].
  - pose proof (load_line_inv w l sl line HI) as H.
    destruct (load_line w line) as [out w'|e w'|]; [| |done].
    + destruct H as (_ & Hn & l' & HI'). specialize (IH w' l' HI').
      destruct (load_lines w' rest) as [out2 w2|e w2|]; [| |done].
      * destruct IH as (-> & Hn2 & HI2). split_and!; [done|lia|done].
      * destruct IH as (Hn2 & HI2). split; [lia|done].
    + subst w'. split; [lia|by eauto].
Qed.

(** *** Every reachable world satisfies the invariant *)

Lemma Inv_initial : Inv initial [] [].
Proof.
  split; simpl; try done.
  - intros a t Hin. by apply elem_of_nil in Hin.
  - apply NoDup_nil_2.
  - intros a [x Hx]. by rewrite lookup_empty in Hx.
  - intros a t Hin. by apply elem_of_nil in Hin.
Qed.

Lemma addTask_empty w desc p :
  empty desc = true → addTask w desc p = Returns [MsgDescEmpty] w.
Proof. intros H. unfold addTask. by rewrite H. Qed.

Lemma deleteTask_absent w i :
  taskMap (data w) !! i = None → deleteTask w i = Returns [MsgNotFound] w.
Proof. intros H. unfold deleteTask. cbv zeta. by rewrite H. Qed.

Lemma editTask_absent w i nd np :
  taskMap (data w) !! i = None → editTask w i nd np = Returns [MsgNotFound] w.
Proof. intros H. unfold editTask. cbv zeta. by rewrite H. Qed.

Lemma markComplete_absent w i done :
  taskMap (data w) !! i = None → markComplete w i done = Returns [MsgNotFound] w.
Proof. intros H. unfold markComplete. by rewrite H. Qed.

Lemma Inv_stack_nil w l sl :
  Inv w l sl → deletedStack (data w) = [] → sl = [].
Proof.
  intros HI H. pose proof (inv_stack _ _ _ HI) as Hst. rewrite H in Hst.
  by destruct sl.
Qed.

Lemma perform_inv w l sl o out w' :
  Inv w l sl → perform w o = Returns out w' → ∃ l' sl', Inv w' l' sl'.
Proof.
  intros HI Hp. destruct o as [file|desc p|i nd np|i| |i dn|i|]; simpl in Hp.
  - destruct file as [text|]; simpl in Hp; [|injection Hp as <- <-; by eauto].
    pose proof (load_lines_inv w l sl (getlines EmptyString text) HI) as H.
    rewrite Hp in H. destruct H as (_ & _ & l' & HI'). by eauto.
  - destruct (empty desc) eqn:Hd.
    + rewrite addTask_empty in Hp by done. injection Hp as <- <-. by eauto.
    + pose proof (addTask_spec w l sl desc p HI Hd) as H. rewrite Hp in H.
      destruct H as (_ & a & _ & HI' & _). by eauto.
  - destruct (taskMap (data w) !! i) as [a|] eqn:Hm.
    + destruct (editTask_spec w l sl i a nd np HI Hm) as (n & _ & _ & He & HI').
      cbv zeta in He, HI'. rewrite He in Hp. injection Hp as <- <-. by eauto.
    + rewrite editTask_absent in Hp by done. injection Hp as <- <-. by eauto.
  - destruct (taskMap (data w) !! i) as [a|] eqn:Hm.
    + destruct (deleteTask_spec w l sl i a HI Hm)
        as (l1 & b & t & l2 & c & w2 & _ & _ & _ & Hd & HI' & _).
      rewrite Hd in Hp. injection Hp as <- <-. by eauto.
    + rewrite deleteTask_absent in Hp by done. injection Hp as <- <-. by eauto.
  - destruct sl as [|[c t] sl'].
    + rewrite undoDelete_empty in Hp.
      * injection Hp as <- <-. by eauto.
      * by rewrite (inv_stack _ _ _ HI).
    + pose proof (undoDelete_spec w l c t sl' HI) as H. rewrite Hp in H.
      destruct H as (_ & HI' & _). by eauto.
  - destruct (taskMap (data w) !! i) as [a|] eqn:Hm.
    + destruct (markComplete_spec w l sl i a dn HI Hm) as (n & _ & _ & He & HI').
      rewrite He in Hp. injection Hp as <- <-. by eauto.
    + rewrite markComplete_absent in Hp by done. injection Hp as <- <-. by eauto.
  - destruct (taskMap (data w) !! i) as [a|] eqn:Hm.
    + destruct (searchTask_spec w l sl i a HI Hm) as (t & _ & _ & He).
      rewrite He in Hp. injection Hp as <- <-. by eauto.
    + rewrite searchTask_absent in Hp by done. injection Hp as <- <-. by eauto.
  - destruct (printAll_spec w l sl HI) as (out' & He).
    rewrite He in Hp. injection Hp as <- <-. by eauto.
Qed.

Lemma exec_cons w o rest out w' :
  exec w (o :: rest) = Some (out, w') ↔
  ∃ out1 w1 out2, perform w o = Returns out1 w1 ∧
                  exec w1 rest = Some (out2, w') ∧ out = out1 ++ out2.
Proof.
  simpl. destruct (perform w o) as [out1 w1| |]; [|by split; [|intros (?&?&?&?&_)]..].
  destruct (exec w1 rest) as [[out2 w2]|] eqn:E; simpl; split.
  - intros [= <- <-]. by eauto 10.
  - intros (oa & wa & ob & Hr & He & ->). injection Hr as <- <-.
    rewrite E in He. by injection He as <- <-.
  - done.
  - intros (oa & wa & ob & Hr & He & _). injection Hr as <- <-.
    by rewrite E in He.
Qed.

Lemma exec_inv w l sl ops out w' :
  Inv w l sl → exec w ops = Some (out, w') → ∃ l' sl', Inv w' l' sl'.
Proof.
  revert w l sl out. induction ops as [|o rest IH]; intros w l sl out HI He.
  - injection He as <- <-. by eauto.
  - apply exec_cons in He as (out1 & w1 & out2 & Hp & He & _).
    destruct (perform_inv _ _ _ _ _ _ HI Hp) as (l1 & sl1 & HI1). by eapply IH.
Qed.

Lemma exec_app w ops1 ops2 out1 w1 out2 w2 :
  exec w ops1 = Some (out1, w1) → exec w1 ops2 = Some (out2, w2) →
  exec w (ops1 ++ ops2) = Some (out1 ++ out2, w2).
Proof.
  revert w out1. induction ops1 as [|o rest IH]; intros w out1 H1 H2.
  - by injection H1 as <- <-.
  - apply exec_cons in H1 as (oa & wa & ob & Hp & He & ->).
    simpl. rewrite Hp. rewrite (IH _ _ He H2). simpl. by rewrite app_assoc.
Qed.

Lemma reachable_Inv w : reachable w → ∃ l sl, Inv w l sl.
Proof. intros (ops & out & He). eapply exec_inv; [apply Inv_initial|done]. Qed.

Lemma reachable_exec w ops out w' :
  reachable w → exec w ops = Some (out, w') → reachable w'.
Proof.
  intros (ops0 & out0 & H0) He. exists (ops0 ++ ops), (out0 ++ out).
  by eapply exec_app.
Qed.

(** *** Rejected calls *)

Lemma addTask_nonempty_out w desc p out w' :
  empty desc = false → addTask w desc p = Returns out w' →
  out = [MsgAdded (nextId (data w))].
Proof.
  intros Hd. unfold addTask, new. rewrite Hd.
  destruct (link_last _ _ _) as [[m' hd']|]; simpl; [|done].
  destruct (int_add (nextId (data w)) 1); simpl; [|done].
  destruct (int_add (totalTasks (data w)) 1); simpl; [|done].
  by intros [= <- <-].
Qed.

(** The part of C8 for [projecttt.cpp].
    [addTask] reports "Description cannot be empty!" exactly when the
    description is empty, and the call then leaves the whole world, that is
    the list, the table, [nextId] and [totalTasks], as it was. *)
Theorem addTask_rejects_iff_empty (w : world) (desc : string) (p : Z) :
  ((∃ out w', addTask w desc p = Returns out w' ∧ MsgDescEmpty ∈ out)
   ↔ empty desc = true) ∧
  (empty desc = true → addTask w desc p = Returns [MsgDescEmpty] w) ∧
  (∀ out w', addTask w desc p = Returns out w' → MsgDescEmpty ∈ out →
             w' = w ∧ tasks w' = tasks w ∧
             taskMap (data w') = taskMap (data w) ∧
             nextId (data w') = nextId (data w) ∧
             totalTasks (data w') = totalTasks (data w)).
Proof.
  assert (∀ out w', addTask w desc p = Returns out w' → MsgDescEmpty ∈ out →
                    empty desc = true) as Hne.
  { intros out w' Ha Hin. destruct (empty desc) eqn:Hd; [done|].
    rewrite (addTask_nonempty_out _ _ _ _ _ Hd Ha) in Hin.
    apply list_elem_of_singleton in Hin. done. }
  split_and!.
  - split.
    + intros (out & w' & Ha & Hin). by eapply Hne.
    + intros Hd. exists [MsgDescEmpty], w. split; [by apply addTask_empty|].
      apply list_elem_of_here.
  - apply addTask_empty.
  - intros out w' Ha Hin. pose proof (Hne _ _ Ha Hin) as Hd.
    rewrite addTask_empty in Ha by done. by injection Ha as <- <-.
Qed.

Lemma addTask_rejects_iff_empty_witness :
  addTask initial "" 3 = Returns [MsgDescEmpty] initial.
Proof.
  apply (addTask_rejects_iff_empty initial "" 3). reflexivity.
Defined.

(** C9. [undoDelete] reports "No deleted task to undo." exactly when the
    undo stack is empty, and the call then leaves the whole world as it
    was. *)
Theorem undoDelete_rejects_iff_empty (w : world) :
  ((∃ out w', undoDelete w = Returns out w' ∧ MsgNothingToUndo ∈ out)
   ↔ deletedStack (data w) = []) ∧
  (deletedStack (data w) = [] → undoDelete w = Returns [MsgNothingToUndo] w) ∧
  (∀ out w', undoDelete w = Returns out w' → MsgNothingToUndo ∈ out →
             w' = w ∧ tasks w' = tasks w ∧
             taskMap (data w') = taskMap (data w) ∧
             nextId (data w') = nextId (data w) ∧
             totalTasks (data w') = totalTasks (data w)).
Proof.
  assert (∀ out w', undoDelete w = Returns out w' → MsgNothingToUndo ∈ out →
                    deletedStack (data w) = []) as Hne.
  { intros out w' Hu Hin. unfold undoDelete in Hu. cbv zeta in Hu.
    destruct (deletedStack (data w)) as [|c rest]; [done|].
    destruct (store w !! c) as [n|]; simpl in Hu; [|done].
    destruct (int_add (totalTasks (data w)) 1); simpl in Hu; [|done].
    destruct (int_add (id n) 1); simpl in Hu; [|done].
    injection Hu as <- <-. apply list_elem_of_singleton in Hin. done. }
  split_and!.
  - split.
    + intros (out & w' & Hu & Hin). by eapply Hne.
    + intros Hs. exists [MsgNothingToUndo], w. split; [by apply undoDelete_empty|].
      apply list_elem_of_here.
  - apply undoDelete_empty.
  - intros out w' Hu Hin. pose proof (Hne _ _ Hu Hin) as Hs.
    rewrite undoDelete_empty in Hu by done. by injection Hu as <- <-.
Qed.

Lemma undoDelete_rejects_iff_empty_witness :
  undoDelete initial = Returns [MsgNothingToUndo] initial.
Proof.
  apply (undoDelete_rejects_iff_empty initial). reflexivity.
Defined.

(** *** Adding *)

Lemma Inv_live_unique w l sl a t u :
  Inv w l sl → (a, t) ∈ l → (a, u) ∈ l → t = u.
Proof. intros HI. apply NoDup_fst_unique. by eapply Inv_nodup_live. Qed.

(** What a call of [addTask] that returns has done. *)
Lemma addTask_returns w l sl desc p out w' :
  Inv w l sl → empty desc = false → addTask w desc p = Returns out w' →
  out = [MsgAdded (nextId (data w))] ∧
  ∃ a, store w !! a = None ∧
       Inv w' (l ++ [(a, Task (nextId (data w)) desc (stored_priority p) false)]) sl ∧
       taskMap (data w') = <[nextId (data w) := a]> (taskMap (data w)) ∧
       deletedStack (data w') = deletedStack (data w) ∧
       nextId (data w') = nextId (data w) + 1 ∧
       totalTasks (data w') = totalTasks (data w) + 1 ∧
       searchTask w' (nextId (data w)) =
         Returns [MsgTaskFound (nextId (data w)) desc (stored_priority p) false] w'.
Proof.
  intros HI Hd Ha. pose proof (addTask_spec w l sl desc p HI Hd) as H.
  rewrite Ha in H. destruct H as (-> & a & Hnone & HI' & Hmap & Hst & Hn & Ht).
  split; [done|]. exists a. split_and!; [done..|].
  assert (taskMap (data w') !! nextId (data w) = Some a) as Hlk.
  { rewrite Hmap. apply lookup_insert_eq. }
  destruct (searchTask_spec _ _ _ _ _ HI' Hlk) as (t & Hin & Hti & Hs).
  rewrite Hs.
  assert (t = Task (nextId (data w)) desc (stored_priority p) false) as ->.
  { eapply Inv_live_unique; [done..|]. apply elem_of_app. right.
    apply list_elem_of_here. }
  done.
Qed.

(** [addTask] returns when the description is not empty and the counters
    are below [INT_MAX]. *)
Lemma addTask_succeeds w l sl desc p :
  Inv w l sl → empty desc = false →
  nextId (data w) < INT_MAX → totalTasks (data w) < INT_MAX →
  ∃ out w', addTask w desc p = Returns out w'.
Proof.
  intros HI Hd Hn Ht. pose proof (addTask_spec w l sl desc p HI Hd) as H.
  destruct (addTask w desc p) as [out w'| |]; [by eauto|done|lia].
Qed.

Lemma stored_priority_out p : p < 1 ∨ 5 < p → stored_priority p = 1.
Proof.
  intros Hp. unfold stored_priority.
  destruct (p <? 1) eqn:E1; [done|]. destruct (p >? 5) eqn:E2; [done|].
  apply Z.ltb_ge in E1. rewrite Z.gtb_ltb in E2. apply Z.ltb_ge in E2. lia.
Qed.

Lemma stored_priority_in p : 1 ≤ p ≤ 5 → stored_priority p = p.
Proof.
  intros Hp. unfold stored_priority.
  destruct (p <? 1) eqn:E1; [apply Z.ltb_lt in E1; lia|].
  destruct (p >? 5) eqn:E2; [|done].
  rewrite Z.gtb_ltb in E2. apply Z.ltb_lt in E2. lia.
Qed.

(** The part of C7 for [projecttt.cpp].
    In a reachable world whose counters are below [INT_MAX], [addTask]
    with a description that is not empty and a priority outside 1..5 (for
    instance 0 or 9) returns, and the task it creates has priority 1: it is
    the last of the list and [searchTask] shows it with priority 1. *)
Theorem addTask_out_of_range_priority (w : world) (desc : string) (p : Z) :
  reachable w → empty desc = false → p < 1 ∨ 5 < p →
  nextId (data w) < INT_MAX → totalTasks (data w) < INT_MAX →
  ∃ w' ts,
    addTask w desc p = Returns [MsgAdded (nextId (data w))] w' ∧
    tasks w = Some ts ∧
    tasks w' = Some (ts ++ [Task (nextId (data w)) desc 1 false]) ∧
    searchTask w' (nextId (data w)) =
      Returns [MsgTaskFound (nextId (data w)) desc 1 false] w'.
Proof.
  intros Hr Hd Hp Hn Ht. destruct (reachable_Inv w Hr) as (l & sl & HI).
  destruct (addTask_succeeds w l sl desc p HI Hd Hn Ht) as (out & w' & Ha).
  destruct (addTask_returns _ _ _ _ _ _ _ HI Hd Ha)
    as (-> & a & _ & HI' & _ & _ & _ & _ & Hs).
  rewrite (stored_priority_out p Hp) in HI', Hs.
  exists w', l.*2. split_and!; [done| | |done].
  - by eapply tasks_spec.
  - rewrite (tasks_spec _ _ _ HI'). by rewrite fmap_app.
Qed.

Lemma addTask_out_of_range_priority_witness :
  ∃ w' ts,
    addTask initial "buy milk" 9 = Returns [MsgAdded 1] w' ∧
    tasks initial = Some ts ∧
    tasks w' = Some (ts ++ [Task 1 "buy milk" 1 false]) ∧
    searchTask w' 1 = Returns [MsgTaskFound 1 "buy milk" 1 false] w'.
Proof.
  apply (addTask_out_of_range_priority initial "buy milk" 9).
  - exists [], []. reflexivity.
  - reflexivity.
  - right. lia.
  - reflexivity.
  - reflexivity.
Defined.

Lemma searchTask_found_inv w i m :
  searchTask w i = Returns [m] w → m ≠ MsgNotFound →
  ∃ a, taskMap (data w) !! i = Some a.
Proof.
  unfold searchTask. destruct (taskMap (data w) !! i) as [a|]; [by eauto|].
  intros [= <-]. done.
Qed.

(** A later [addTask] does not change what [searchTask] shows for an
    identifier issued before. *)
Lemma searchTask_stable_add w l sl desc p out w' i d' p' c' :
  Inv w l sl → empty desc = false → addTask w desc p = Returns out w' →
  i < nextId (data w) →
  searchTask w i = Returns [MsgTaskFound i d' p' c'] w →
  searchTask w' i = Returns [MsgTaskFound i d' p' c'] w'.
Proof.
  intros HI Hd Ha Hi Hs.
  destruct (searchTask_found_inv _ _ _ Hs) as (b & Hb); [done|].
  destruct (searchTask_spec _ _ _ _ _ HI Hb) as (t & Hin & Hti & Hs2).
  rewrite Hs in Hs2. injection Hs2 as -> -> ->.
  destruct (addTask_returns _ _ _ _ _ _ _ HI Hd Ha)
    as (_ & a & _ & HI' & Hmap & _).
  assert (taskMap (data w') !! i = Some b) as Hb'.
  { rewrite Hmap. rewrite lookup_insert_ne by lia. done. }
  destruct (searchTask_spec _ _ _ _ _ HI' Hb') as (t' & Hin' & Hti' & Hs').
  assert (t' = t) as ->.
  { eapply Inv_live_unique; [done..|]. apply elem_of_app. by left. }
  done.
Qed.

(** A run of [addTask] calls that all return. *)
Lemma exec_adds w l sl (adds : list (string * Z)) out w' :
  Inv w l sl → Forall (λ x, empty x.1 = false) adds →
  exec w (add_op <$> adds) = Some (out, w') →
  out = imap (λ k _, MsgAdded (nextId (data w) + Z.of_nat k)) adds ∧
  nextId (data w') = nextId (data w) + Z.of_nat (length adds) ∧
  (∀ i d' p' c', i < nextId (data w) →
     searchTask w i = Returns [MsgTaskFound i d' p' c'] w →
     searchTask w' i = Returns [MsgTaskFound i d' p' c'] w') ∧
  (∀ k d p, adds !! k = Some (d, p) →
     searchTask w' (nextId (data w) + Z.of_nat k) =
       Returns [MsgTaskFound (nextId (data w) + Z.of_nat k) d
                  (stored_priority p) false] w').
Proof.
  revert w l out. induction adds as [|[d p] rest IH]; intros w l out HI Hne He.
  - injection He as <- <-. split_and!; [done|simpl; lia|done|].
    intros k d p Hk. by rewrite lookup_nil in Hk.
  - rewrite fmap_cons in He.
    apply exec_cons in He as (out1 & w1 & out2 & Hp & He & ->).
    apply Forall_cons in Hne as [Hd Hne]. simpl in Hp, Hd.
    destruct (addTask_returns _ _ _ _ _ _ _ HI Hd Hp)
      as (-> & a & _ & HI1 & _ & _ & Hn1 & _ & Hs1).
    destruct (IH _ _ _ HI1 Hne He) as (-> & Hn' & Hstable & Hnew).
    split_and!.
    + simpl. change (Z.of_nat 0) with 0. rewrite Z.add_0_r. f_equal.
      apply imap_ext. intros k x _. simpl. rewrite Hn1. f_equal. lia.
    + rewrite Hn', Hn1. simpl length. lia.
    + intros i d' p' c' Hi Hs. apply Hstable; [lia|].
      exact (searchTask_stable_add _ _ _ _ _ _ _ _ _ _ _ HI Hd Hp Hi Hs).
    + intros [|k] d' p' Hk; simpl in Hk.
      * injection Hk as <- <-. rewrite Z.add_0_r. apply Hstable; [lia|done].
      * specialize (Hnew k d' p' Hk). rewrite Hn1 in Hnew.
        by replace (nextId (data w) + Z.of_nat (S k))
          with (nextId (data w) + 1 + Z.of_nat k) by lia.
Qed.

(** The part of C4 for [projecttt.cpp].
    In a reachable world, a call of [addTask] with a description that
    is not empty returns whenever the counters are below [INT_MAX]; a call
    that returns has given the task the identifier [nextId], appended it to
    the end of the list, entered it in the table, incremented [nextId] and
    [totalTasks], and announced the identifier; over a run of such calls the
    identifiers announced increase by one each time, and [searchTask] shows
    each added task with its description, the priority stored for it (the
    one given when it is in 1..5) and not completed. *)
Theorem addTask_correct (w : world) :
  reachable w →
  (∀ desc p, empty desc = false →
     nextId (data w) < INT_MAX → totalTasks (data w) < INT_MAX →
     ∃ out w', addTask w desc p = Returns out w') ∧
  (∀ desc p out w', empty desc = false → addTask w desc p = Returns out w' →
     let i := nextId (data w) in
     out = [MsgAdded i] ∧
     (∃ ts, tasks w = Some ts ∧
            tasks w' = Some (ts ++ [Task i desc (stored_priority p) false])) ∧
     (∃ a n, taskMap (data w') = <[i := a]> (taskMap (data w)) ∧
             store w' !! a = Some n ∧
             task_of n = Task i desc (stored_priority p) false) ∧
     nextId (data w') = i + 1 ∧
     totalTasks (data w') = totalTasks (data w) + 1 ∧
     searchTask w' i =
       Returns [MsgTaskFound i desc (stored_priority p) false] w' ∧
     (1 ≤ p ≤ 5 → stored_priority p = p)) ∧
  (∀ (adds : list (string * Z)) out w',
     Forall (λ x, empty x.1 = false) adds →
     exec w (add_op <$> adds) = Some (out, w') →
     out = imap (λ k _, MsgAdded (nextId (data w) + Z.of_nat k)) adds ∧
     (∀ j k i1 i2, (j < k)%nat → issued out !! j = Some i1 →
                   issued out !! k = Some i2 → i1 < i2) ∧
     (∀ k d p, adds !! k = Some (d, p) →
        searchTask w' (nextId (data w) + Z.of_nat k) =
          Returns [MsgTaskFound (nextId (data w) + Z.of_nat k) d
                     (stored_priority p) false] w')).
Proof.
  intros Hr. destruct (reachable_Inv w Hr) as (l & sl & HI). split_and!.
  - intros desc p Hd Hn Ht. by eapply addTask_succeeds.
  - intros desc p out w' Hd Ha. cbv zeta.
    destruct (addTask_returns _ _ _ _ _ _ _ HI Hd Ha)
      as (-> & a & _ & HI' & Hmap & _ & Hn & Ht & Hs).
    split_and!; [done| | |done..|apply stored_priority_in].
    + exists l.*2. split; [by eapply tasks_spec|].
      rewrite (tasks_spec _ _ _ HI'). by rewrite fmap_app.
    + destruct (chain_cells _ _ _ a
                  (Task (nextId (data w)) desc (stored_priority p) false)
                  (inv_chain _ _ _ HI')) as (n & Hn' & Hnt).
      { apply elem_of_app. right. apply list_elem_of_here. }
      by exists a, n.
  - intros adds out w' Hne He.
    destruct (exec_adds _ _ _ _ _ _ HI Hne He) as (-> & _ & _ & Hnew).
    split_and!; [done| |done].
    assert (∀ (xs : list (string * Z)) b,
              issued (imap (λ k _, MsgAdded (b + Z.of_nat k)) xs)
              = imap (λ k _, b + Z.of_nat k) xs) as Hiss.
    { induction xs as [|x xs IHx]; intros b; [done|]. simpl. f_equal.
      unfold issued in IHx.
      rewrite (imap_ext _ (λ k _, MsgAdded (b + 1 + Z.of_nat k)) xs)
        by (intros; simpl; f_equal; lia).
      rewrite IHx. apply imap_ext. intros. simpl. lia. }
    intros j k i1 i2 Hjk. rewrite Hiss, !list_lookup_imap.
    destruct (adds !! j); simpl; [|done]. destruct (adds !! k); simpl; [|done].
    intros [= <-] [= <-]. lia.
Qed.

Lemma addTask_correct_witness :
  ∃ out w', addTask initial "write report" 3 = Returns out w'.
Proof.
  apply (addTask_correct initial).
  - exists [], []. reflexivity.
  - reflexivity.
  - reflexivity.
  - reflexivity.
Defined.

(** *** Deleting and restoring *)

Lemma delete_undo_Inv w l sl i a0 :
  Inv w l sl → taskMap (data w) !! i = Some a0 →
  ∃ l1 a t l2 c w1 w2,
    l = l1 ++ (a, t) :: l2 ∧ task_id t = i ∧
    (∀ x, x ∈ l1 → task_id x.2 ≠ i) ∧
    deleteTask w i = Returns [MsgDeleted] w1 ∧
    Inv w1 (l1 ++ l2) ((c, t) :: sl) ∧
    totalTasks (data w1) = totalTasks (data w) - 1 ∧
    undoDelete w1 = Returns [MsgRestored i] w2 ∧
    Inv w2 ((c, t) :: l1 ++ l2) sl ∧
    taskMap (data w2) = <[i := c]> (delete i (taskMap (data w))) ∧
    nextId (data w2) = nextId (data w) ∧
    totalTasks (data w2) = totalTasks (data w).
Proof.
  intros HI Hmap.
  destruct (deleteTask_spec w l sl i a0 HI Hmap)
    as (l1 & a & t & l2 & c & w1 & Hl & Hti & Hl1 & Hd & HI1 & Hm1 & Hn1 & Ht1).
  pose proof (undoDelete_spec w1 (l1 ++ l2) c t sl HI1) as Hu.
  destruct (inv_total _ _ _ HI) as [_ Hmax].
  destruct (undoDelete w1) as [out w2| |] eqn:Hundo; [|done|lia].
  destruct Hu as (-> & HI2 & Hm2 & _ & Hn2 & Ht2).
  exists l1, a, t, l2, c, w1, w2. rewrite Hti in *.
  split_and!; try done; try lia; try congruence.
Qed.

(** C1, as stated, fails for a task of the list that the table does not
    hold.  After the load of a file with two records of identifier 1 and
    [deleteTask] for 1, which removes the first of them and erases the
    entry, the second task is in the list and counted in [totalTasks], but
    [deleteTask] for its identifier reports "Task not found!" and changes
    nothing, and [undoDelete] then restores the other task: the list has
    two tasks where it had one. *)
Lemma delete_undo_unindexed_task :
  ∃ w w2,
    exec initial [OpLoad (Some twice_1); OpDelete 1] = Some ([MsgDeleted], w) ∧
    tasks w = Some [Task 1 "b" 1 false] ∧
    totalTasks (data w) = 1 ∧
    taskMap (data w) !! 1 = None ∧
    deleteTask w 1 = Returns [MsgNotFound] w ∧
    undoDelete w = Returns [MsgRestored 1] w2 ∧
    tasks w2 = Some [Task 1 "a" 1 false; Task 1 "b" 1 false] ∧
    totalTasks (data w2) = 2.
Proof.
  eexists _, _. repeat (split; [vm_compute; reflexivity|]).
  vm_compute. reflexivity.
Qed.

(** C1, amended. In a reachable world, for an identifier [i] of the table,
    [deleteTask] followed by [undoDelete] returns and restores the deleted
    task (the first of the list with identifier [i]) with its identifier,
    description, priority and completion state; [totalTasks] and the number
    of tasks are back to what they were; and the restored task is the first
    of the list, the other tasks following in their order. *)
Theorem delete_then_undo_restores (w : world) (i : Z) (a : loc) :
  reachable w → taskMap (data w) !! i = Some a →
  ∃ t ts1 ts2 w1 w2,
    tasks w = Some (ts1 ++ t :: ts2) ∧ task_id t = i ∧
    Forall (λ u, task_id u ≠ i) ts1 ∧
    deleteTask w i = Returns [MsgDeleted] w1 ∧
    tasks w1 = Some (ts1 ++ ts2) ∧
    totalTasks (data w1) = totalTasks (data w) - 1 ∧
    undoDelete w1 = Returns [MsgRestored i] w2 ∧
    tasks w2 = Some (t :: ts1 ++ ts2) ∧
    totalTasks (data w2) = totalTasks (data w) ∧
    length (t :: ts1 ++ ts2) = length (ts1 ++ t :: ts2) ∧
    searchTask w2 i =
      Returns [MsgTaskFound i (task_description t) (task_priority t)
                 (task_completed t)] w2.
Proof.
  intros Hr Hmap. destruct (reachable_Inv w Hr) as (l & sl & HI).
  destruct (delete_undo_Inv w l sl i a HI Hmap)
    as (l1 & b & t & l2 & c & w1 & w2 & Hl & Hti & Hl1 & Hd & HI1 & Ht1 & Hu
        & HI2 & Hm2 & Hn2 & Ht2).
  exists t, l1.*2, l2.*2, w1, w2. split_and!; try done.
  - rewrite (tasks_spec _ _ _ HI), Hl. by rewrite fmap_app, fmap_cons.
  - apply Forall_fmap. apply Forall_forall. intros x Hx. by apply Hl1.
  - rewrite (tasks_spec _ _ _ HI1). by rewrite fmap_app.
  - rewrite (tasks_spec _ _ _ HI2). by rewrite fmap_cons, fmap_app.
  - simpl. rewrite !length_app. simpl. lia.
  - assert (taskMap (data w2) !! i = Some c) as Hc.
    { rewrite Hm2. apply lookup_insert_eq. }
    destruct (searchTask_spec _ _ _ _ _ HI2 Hc) as (t' & Hin & _ & Hs).
    assert (t' = t) as ->; [|done].
    eapply Inv_live_unique; [done..|]. apply list_elem_of_here.
Qed.

Lemma delete_then_undo_restores_witness :
  ∃ w, exec initial [OpAdd "a" 2; OpAdd "b" 4; OpMark 2 true; OpAdd "c" 1]
       = Some ([MsgAdded 1; MsgAdded 2; MsgMarked 2 true; MsgAdded 3], w) ∧
  ∃ t ts1 ts2 w1 w2,
    tasks w = Some (ts1 ++ t :: ts2) ∧ task_id t = 2 ∧
    Forall (λ u, task_id u ≠ 2) ts1 ∧
    deleteTask w 2 = Returns [MsgDeleted] w1 ∧
    tasks w1 = Some (ts1 ++ ts2) ∧
    totalTasks (data w1) = totalTasks (data w) - 1 ∧
    undoDelete w1 = Returns [MsgRestored 2] w2 ∧
    tasks w2 = Some (t :: ts1 ++ ts2) ∧
    totalTasks (data w2) = totalTasks (data w) ∧
    length (t :: ts1 ++ ts2) = length (ts1 ++ t :: ts2) ∧
    searchTask w2 2 =
      Returns [MsgTaskFound 2 (task_description t) (task_priority t)
                 (task_completed t)] w2.
Proof.
  eexists. split; [vm_compute; reflexivity|].
  eapply (delete_then_undo_restores _ 2).
  - exists [OpAdd "a" 2; OpAdd "b" 4; OpMark 2 true; OpAdd "c" 1],
      [MsgAdded 1; MsgAdded 2; MsgMarked 2 true; MsgAdded 3].
    vm_compute. reflexivity.
  - vm_compute. reflexivity.
Defined.

(** *** Identifiers *)

Lemma issued_rows (l : list Node) : issued (map row l) = [].
Proof. by induction l. Qed.

Lemma issued_app a b : issued (a ++ b) = issued a ++ issued b.
Proof. apply omap_app. Qed.

Lemma restored_rows (l : list Node) i : MsgRestored i ∉ map row l.
Proof.
  induction l as [|n r IH]; simpl; [by apply not_elem_of_nil|].
  apply not_elem_of_cons. split; [done|apply IH].
Qed.

Lemma Inv_store_id w l sl a n :
  Inv w l sl → store w !! a = Some n → id n < nextId (data w).
Proof.
  intros HI Hn.
  assert (a ∈ (l ++ sl).*1) as Ha by (apply (inv_dom _ _ _ HI); by eexists).
  apply list_elem_of_fmap in Ha as ([b t] & -> & Hin). simpl in Hn.
  destruct (inv_ids _ _ _ HI _ _ Hin) as [[_ Hlt] _].
  assert (cell (store w) b t) as (n' & Hn' & Ht).
  { apply elem_of_app in Hin as [Hin|Hin].
    - by eapply chain_cells; [apply (inv_chain _ _ _ HI)|].
    - by apply (inv_cells _ _ _ HI). }
  rewrite Hn in Hn'. injection Hn' as <-. by rewrite <- Ht in Hlt.
Qed.

(** What one call does to [nextId] and which identifiers it announces. *)
Lemma perform_ids w l sl o out w' :
  Inv w l sl → perform w o = Returns out w' →
  nextId (data w) ≤ nextId (data w') ∧
  (issued out = [] ∨
   issued out = [nextId (data w)] ∧ nextId (data w) < nextId (data w')) ∧
  (∀ i, MsgRestored i ∈ out → i < nextId (data w')).
Proof.
  intros HI Hp.
  assert (∀ m : message, (∀ i, m ≠ MsgAdded i) → (∀ i, m ≠ MsgRestored i) →
            out = [m] → w' = w →
            nextId (data w) ≤ nextId (data w') ∧
            (issued out = [] ∨
             issued out = [nextId (data w)] ∧ nextId (data w) < nextId (data w')) ∧
            (∀ i, MsgRestored i ∈ out → i < nextId (data w'))) as Hsame.
  { intros m Hm1 Hm2 -> ->. split_and!; [lia| |].
    - left. unfold issued. simpl. destruct m; try done. by destruct (Hm1 i).
    - intros i Hi. apply list_elem_of_singleton in Hi. by destruct (Hm2 i). }
  destruct o as [file|desc p|i nd np|i| |i dn|i|]; simpl in Hp.
  - destruct file as [text|]; simpl in Hp.
    + pose proof (load_lines_inv w l sl (getlines EmptyString text) HI) as H.
      rewrite Hp in H. destruct H as (-> & Hn & _).
      split_and!; [done|by left|]. intros i Hi. by apply elem_of_nil in Hi.
    + injection Hp as <- <-. split_and!; [lia|by left|].
      intros i Hi. by apply elem_of_nil in Hi.
  - destruct (empty desc) eqn:Hd.
    + rewrite addTask_empty in Hp by done. injection Hp as <- <-.
      by apply (Hsame MsgDescEmpty).
    + destruct (addTask_returns _ _ _ _ _ _ _ HI Hd Hp)
        as (-> & a & _ & _ & _ & _ & Hn & _).
      split_and!; [lia|right; split; [done|lia]|].
      intros i Hi. apply list_elem_of_singleton in Hi. done.
  - destruct (taskMap (data w) !! i) as [a|] eqn:Hm.
    + destruct (editTask_spec w l sl i a nd np HI Hm) as (n & _ & _ & He & _).
      cbv zeta in He. rewrite He in Hp. injection Hp as <- <-. simpl.
      split_and!; [lia| |].
      * left. unfold edit_report. destruct np as [v|]; [|done].
        destruct ((1 <=? v) && (v <=? 5)); [done|]. by destruct (negb (v =? 0)).
      * intros j Hj. unfold edit_report in Hj.
        repeat (apply elem_of_cons in Hj as [Hj|Hj]; [done|]).
        destruct np as [v|].
        -- destruct ((1 <=? v) && (v <=? 5)); [|destruct (negb (v =? 0))]; simpl in Hj;
             repeat (apply elem_of_cons in Hj as [Hj|Hj]; [done|]);
             by apply elem_of_nil in Hj.
        -- simpl in Hj. repeat (apply elem_of_cons in Hj as [Hj|Hj]; [done|]).
           by apply elem_of_nil in Hj.
    + rewrite editTask_absent in Hp by done. injection Hp as <- <-.
      by apply (Hsame MsgNotFound).
  - destruct (taskMap (data w) !! i) as [a|] eqn:Hm.
    + destruct (deleteTask_spec w l sl i a HI Hm)
        as (l1 & b & t & l2 & c & w2 & _ & _ & _ & Hd & _ & _ & Hn & _).
      rewrite Hd in Hp. injection Hp as <- <-.
      split_and!; [lia|by left|].
      intros j Hj. apply list_elem_of_singleton in Hj. done.
    + rewrite deleteTask_absent in Hp by done. injection Hp as <- <-.
      by apply (Hsame MsgNotFound).
  - destruct sl as [|[c t] sl'].
    + rewrite undoDelete_empty in Hp by (by rewrite (inv_stack _ _ _ HI)).
      injection Hp as <- <-. by apply (Hsame MsgNothingToUndo).
    + pose proof (undoDelete_spec w l c t sl' HI) as H. rewrite Hp in H.
      destruct H as (-> & _ & _ & _ & Hn & _).
      split_and!; [lia|by left|].
      intros j Hj. apply list_elem_of_singleton in Hj. injection Hj as ->.
      rewrite Hn. destruct (inv_ids _ _ _ HI c t) as [[_ ?] _]; [|done].
      apply elem_of_app. right. apply list_elem_of_here.
  - destruct (taskMap (data w) !! i) as [a|] eqn:Hm.
    + destruct (markComplete_spec w l sl i a dn HI Hm) as (n & _ & _ & He & _).
      rewrite He in Hp. injection Hp as <- <-. simpl.
      split_and!; [lia|by left|].
      intros j Hj. apply list_elem_of_singleton in Hj. done.
    + rewrite markComplete_absent in Hp by done. injection Hp as <- <-.
      by apply (Hsame MsgNotFound).
  - destruct (taskMap (data w) !! i) as [a|] eqn:Hm.
    + destruct (searchTask_spec w l sl i a HI Hm) as (t & _ & _ & He).
      rewrite He in Hp. injection Hp as <- <-.
      by apply (Hsame (MsgTaskFound i (task_description t) (task_priority t)
                         (task_completed t))).
    + rewrite searchTask_absent in Hp by done. injection Hp as <- <-.
      by apply (Hsame MsgNotFound).
  - unfold printAll in Hp. destruct (head (data w)).
    + destruct (listAll w) as [ns|]; simpl in Hp; [|done].
      injection Hp as <- <-. split_and!; [lia| |].
      * left. change (issued (map row ns ++ [MsgListFooter]) = []).
        by rewrite issued_app, issued_rows.
      * intros j Hj. apply elem_of_cons in Hj as [Hj|Hj]; [done|].
        apply elem_of_app in Hj as [Hj|Hj]; [by apply restored_rows in Hj|].
        apply list_elem_of_singleton in Hj. done.
    + injection Hp as <- <-. by apply (Hsame MsgNoTasks).
Qed.

(** Over a run of calls [nextId] never decreases, the identifiers
    announced by [addTask] increase strictly, and every identifier
    announced or restored is below the final [nextId]. *)
Lemma exec_ids w l sl ops out w' :
  Inv w l sl → exec w ops = Some (out, w') →
  nextId (data w) ≤ nextId (data w') ∧
  StronglySorted Z.lt (issued out) ∧
  (∀ i, i ∈ issued out → nextId (data w) ≤ i < nextId (data w')) ∧
  (∀ i, MsgRestored i ∈ out → i < nextId (data w')).
Proof.
  revert w l sl out. induction ops as [|o rest IH]; intros w l sl out HI He.
  - injection He as <- <-. split_and!; [lia|constructor| |].
    + intros i Hi. by apply elem_of_nil in Hi.
    + intros i Hi. by apply elem_of_nil in Hi.
  - apply exec_cons in He as (out1 & w1 & out2 & Hp & He & ->).
    destruct (perform_inv _ _ _ _ _ _ HI Hp) as (l1 & sl1 & HI1).
    destruct (perform_ids _ _ _ _ _ _ HI Hp) as (Hn1 & Hiss & Hres1).
    destruct (IH _ _ _ _ HI1 He) as (Hn2 & Hsorted & Hrange & Hres2).
    rewrite issued_app. split_and!.
    + lia.
    + apply StronglySorted_app_2; [|by destruct Hiss as [->|[-> _]]; repeat constructor|done].
      intros x1 x2 Hx1 Hx2. apply Hrange in Hx2.
      destruct Hiss as [Hiss|[Hiss Hlt]]; rewrite Hiss in Hx1.
      * by apply elem_of_nil in Hx1.
      * apply list_elem_of_singleton in Hx1. lia.
    + intros i [Hi|Hi]%elem_of_app.
      * destruct Hiss as [Hiss|[Hiss Hlt]]; rewrite Hiss in Hi.
        -- by apply elem_of_nil in Hi.
        -- apply list_elem_of_singleton in Hi. lia.
      * apply Hrange in Hi. lia.
    + intros i [Hi|Hi]%elem_of_app.
      * apply Hres1 in Hi. lia.
      * by apply Hres2.
Qed.

Lemma StronglySorted_lt_NoDup (l : list Z) : StronglySorted Z.lt l → NoDup l.
Proof.
  induction 1 as [|x l Hs IH Hall]; [apply NoDup_nil_2|].
  apply NoDup_cons. split; [|done]. intros Hx.
  rewrite Forall_forall in Hall. specialize (Hall x Hx). lia.
Qed.

(** C3. In a reachable world [nextId] is above the identifier of every
    task, live or in the undo history; over any run of calls from there it
    never decreases, the identifiers [addTask] announces increase strictly
    (so none is announced twice) and are at least the [nextId] the run
    started with, and every identifier announced or restored is below the
    final [nextId]; [addTask] after [deleteTask] announces an identifier
    above the deleted one; and [undoDelete] sets [nextId] to the maximum of
    its value and the restored identifier plus one. *)
Theorem identifier_monotonicity (w : world) :
  reachable w →
  (∀ a n, store w !! a = Some n → id n < nextId (data w)) ∧
  (∀ ops out w', exec w ops = Some (out, w') →
     nextId (data w) ≤ nextId (data w') ∧
     StronglySorted Z.lt (issued out) ∧
     NoDup (issued out) ∧
     (∀ i, i ∈ issued out → nextId (data w) ≤ i < nextId (data w')) ∧
     (∀ i, MsgRestored i ∈ out → i < nextId (data w')) ∧
     (∀ a n, store w' !! a = Some n → id n < nextId (data w'))) ∧
  (∀ i a d p, taskMap (data w) !! i = Some a → empty d = false →
     ∃ w1, deleteTask w i = Returns [MsgDeleted] w1 ∧
           (∀ out w2, addTask w1 d p = Returns out w2 →
                      out = [MsgAdded (nextId (data w))]) ∧
           (nextId (data w) < INT_MAX →
            ∃ w2, addTask w1 d p = Returns [MsgAdded (nextId (data w))] w2) ∧
           i < nextId (data w)) ∧
  (∀ out w' i, undoDelete w = Returns out w' → MsgRestored i ∈ out →
     nextId (data w') = Z.max (nextId (data w)) (i + 1)).
Proof.
  intros Hr. destruct (reachable_Inv w Hr) as (l & sl & HI). split_and!.
  - intros a n. by eapply Inv_store_id.
  - intros ops out w' He.
    destruct (exec_ids _ _ _ _ _ _ HI He) as (Hn & Hs & Hrange & Hres).
    destruct (exec_inv _ _ _ _ _ _ HI He) as (l' & sl' & HI').
    split_and!; [done|done|by apply StronglySorted_lt_NoDup|done|done|].
    intros a n. by eapply Inv_store_id.
  - intros i a d p Hm Hd.
    destruct (deleteTask_spec w l sl i a HI Hm)
      as (l1 & b & t & l2 & c & w1 & Hl & Hti & _ & Hdel & HI1 & _ & Hn1 & Ht1).
    exists w1. split_and!; [done| | |].
    + intros out w2 Ha.
      destruct (addTask_returns _ _ _ _ _ _ _ HI1 Hd Ha) as (-> & _).
      by rewrite Hn1.
    + intros Hlt. destruct (inv_total _ _ _ HI) as [_ Hmax].
      destruct (addTask_succeeds w1 _ _ d p HI1 Hd) as (out & w2 & Ha); [lia..|].
      destruct (addTask_returns _ _ _ _ _ _ _ HI1 Hd Ha) as (-> & _).
      exists w2. by rewrite <- Hn1.
    + destruct (inv_ids _ _ _ HI b t) as [[_ ?] _]; [|lia].
      rewrite Hl. apply elem_of_app. left. apply elem_of_app. right.
      apply list_elem_of_here.
  - intros out w' i Hu Hin. destruct sl as [|[c t] sl'].
    + rewrite undoDelete_empty in Hu by (by rewrite (inv_stack _ _ _ HI)).
      injection Hu as <- <-. apply list_elem_of_singleton in Hin. done.
    + pose proof (undoDelete_spec w l c t sl' HI) as H. rewrite Hu in H.
      destruct H as (-> & _ & _ & Hmax & _).
      apply list_elem_of_singleton in Hin. injection Hin as ->. done.
Qed.

Lemma identifier_monotonicity_witness :
  ∃ w, exec initial [OpAdd "a" 2; OpAdd "b" 4; OpDelete 1]
       = Some ([MsgAdded 1; MsgAdded 2; MsgDeleted], w) ∧
       ∀ ops out w', exec w ops = Some (out, w') →
         nextId (data w) ≤ nextId (data w') ∧
         StronglySorted Z.lt (issued out) ∧
         NoDup (issued out) ∧
         (∀ i, i ∈ issued out → nextId (data w) ≤ i < nextId (data w')) ∧
         (∀ i, MsgRestored i ∈ out → i < nextId (data w')) ∧
         (∀ a n, store w' !! a = Some n → id n < nextId (data w')).
Proof.
  eexists. split; [vm_compute; reflexivity|].
  eapply identifier_monotonicity.
  exists [OpAdd "a" 2; OpAdd "b" 4; OpDelete 1], [MsgAdded 1; MsgAdded 2; MsgDeleted].
  vm_compute. reflexivity.
Defined.

(** *** Editing *)

(** C6, as stated, fails for the value 0: [editTask] keeps the priority
    and writes no complaint.  After [addTask "a" 3], answering the prompts
    of [editTask 1] with an empty line and 0 writes the two prompts and
    "Task 1 updated." only. *)
Lemma editTask_zero_not_reported :
  ∃ w out w',
    exec initial [OpAdd "a" 3] = Some ([MsgAdded 1], w) ∧
    editTask w 1 "" (Some 0) = Returns out w' ∧
    out = [MsgCurrentDescription "a"; MsgPromptDescription;
           MsgCurrentPriority 3; MsgPromptPriority; MsgUpdated 1] ∧
    ¬ (MsgInvalidInput ∈ out ∨ MsgInvalidPriority ∈ out).
Proof.
  eexists _, _, _. split; [vm_compute; reflexivity|].
  split; [vm_compute; reflexivity|]. split; [reflexivity|].
  intros [H|H]; repeat (apply elem_of_cons in H as [H|H]; [discriminate|]);
    by apply elem_of_nil in H.
Qed.

(** C6, amended. In a reachable world, [editTask] for an identifier of
    the table returns; an empty line leaves the description as it was; a
    value in 1..5 becomes the priority; input that is not a number leaves
    the priority as it was and is reported ("Invalid input. Priority
    unchanged."); a value outside 1..5 other than 0 leaves the priority as
    it was and is reported ("Invalid priority. Keeping old value."); the
    value 0 leaves the priority as it was and nothing is reported.  The
    priority is never replaced by 1, which is what [addTask] stores for a
    value outside 1..5. *)
Theorem editTask_priority_policy
    (w : world) (i : Z) (a : loc) (newDesc : string) (newPrio : option Z) :
  reachable w → taskMap (data w) !! i = Some a →
  ∃ n out w' n',
    store w !! a = Some n ∧
    editTask w i newDesc newPrio = Returns out w' ∧
    store w' !! a = Some n' ∧ data w' = data w ∧
    id n' = id n ∧ completed n' = completed n ∧
    description n' = (if empty newDesc then description n else newDesc) ∧
    (∀ v, newPrio = Some v → 1 ≤ v ≤ 5 → priority n' = v) ∧
    (newPrio = None → priority n' = priority n ∧ MsgInvalidInput ∈ out) ∧
    (∀ v, newPrio = Some v → ¬ (1 ≤ v ≤ 5) → v ≠ 0 →
          priority n' = priority n ∧ MsgInvalidPriority ∈ out ∧
          stored_priority v = 1) ∧
    (newPrio = Some 0 →
       priority n' = priority n ∧
       (MsgInvalidInput ∉ out) ∧ (MsgInvalidPriority ∉ out)) ∧
    searchTask w' i =
      Returns [MsgTaskFound i (description n') (priority n') (completed n')] w'.
Proof.
  intros Hr Hm. destruct (reachable_Inv w Hr) as (l & sl & HI).
  destruct (editTask_spec w l sl i a newDesc newPrio HI Hm)
    as (n & Hn & Hid & He & _). cbv zeta in He.
  eexists n, _, _, _. split; [done|]. split; [exact He|].
  split; [apply lookup_insert_eq|]. simpl.
  split_and!; try done.
  - intros v -> Hv. simpl.
    destruct (1 <=? v) eqn:E1; [|apply Z.leb_gt in E1; lia].
    destruct (v <=? 5) eqn:E2; [done|apply Z.leb_gt in E2; lia].
  - intros ->. split; [done|]. simpl.
    do 4 apply list_elem_of_further. apply list_elem_of_here.
  - intros v -> Hv Hv0. simpl.
    assert ((1 <=? v) && (v <=? 5) = false) as ->.
    { apply andb_false_iff.
      destruct (Z.leb_spec 1 v); [|by left]. right. apply Z.leb_gt. lia. }
    split_and!; [done| |apply stored_priority_out; lia].
    apply Z.eqb_neq in Hv0. rewrite Hv0. simpl.
    do 4 apply list_elem_of_further. apply list_elem_of_here.
  - intros ->. simpl. split_and!; [done| |];
      intros H; repeat (apply elem_of_cons in H as [H|H]; [discriminate|]);
      by apply elem_of_nil in H.
  - unfold searchTask. simpl. by rewrite Hm, lookup_insert_eq.
Qed.

Lemma editTask_priority_policy_witness :
  ∃ w, exec initial [OpAdd "a" 3] = Some ([MsgAdded 1], w) ∧
  ∃ n out w' n',
    store w !! 1%positive = Some n ∧
    editTask w 1 "" (Some 9) = Returns out w' ∧
    store w' !! 1%positive = Some n' ∧ data w' = data w ∧
    id n' = id n ∧ completed n' = completed n ∧
    description n' = (if empty "" then description n else "") ∧
    (∀ v, Some 9 = Some v → 1 ≤ v ≤ 5 → priority n' = v) ∧
    (Some 9 = None → priority n' = priority n ∧ MsgInvalidInput ∈ out) ∧
    (∀ v, Some 9 = Some v → ¬ (1 ≤ v ≤ 5) → v ≠ 0 →
          priority n' = priority n ∧ MsgInvalidPriority ∈ out ∧
          stored_priority v = 1) ∧
    (Some 9 = Some 0 →
       priority n' = priority n ∧
       (MsgInvalidInput ∉ out) ∧ (MsgInvalidPriority ∉ out)) ∧
    searchTask w' 1 =
      Returns [MsgTaskFound 1 (description n') (priority n') (completed n')] w'.
Proof.
  eexists. split; [vm_compute; reflexivity|].
  apply (editTask_priority_policy _ 1 1%positive "" (Some 9)).
  - exists [OpAdd "a" 3], [MsgAdded 1]. vm_compute. reflexivity.
  - vm_compute. reflexivity.
Defined.

(** *** The sequence and the index *)

Lemma ids_of_app l1 l2 : ids_of (l1 ++ l2) = ids_of l1 ++ ids_of l2.
Proof. apply fmap_app. Qed.

Lemma ids_of_cons a t l : ids_of ((a, t) :: l) = task_id t :: ids_of l.
Proof. done. Qed.

Lemma elem_of_ids_of l a t : (a, t) ∈ l → task_id t ∈ ids_of l.
Proof. intros H. by apply (list_elem_of_fmap_2 (λ x, task_id x.2) _ (a, t)). Qed.

Lemma SInv_consistent w l sl : SInv w l sl → consistent w.
Proof.
  intros (HI & _ & Hmap). exists l. split_and!; [apply (inv_chain _ _ _ HI)|done|].
  apply (inv_map _ _ _ HI).
Qed.

Lemma SInv_tasks_distinct w l sl :
  SInv w l sl → ∃ ts, tasks w = Some ts ∧ NoDup (task_id <$> ts).
Proof.
  intros (HI & Hnd & _). exists l.*2. split; [by eapply tasks_spec|].
  rewrite ids_of_app in Hnd. apply NoDup_app in Hnd as (Hnd & _).
  unfold ids_of in Hnd. by rewrite <- list_fmap_compose.
Qed.

Lemma Inv_id_known w l sl a t :
  Inv w l sl → (a, t) ∈ l ++ sl → id_known w (task_id t).
Proof.
  intros HI Hin.
  assert (cell (store w) a t) as (n & Hn & Ht).
  { apply elem_of_app in Hin as [Hin|Hin].
    - by eapply chain_cells; [apply (inv_chain _ _ _ HI)|].
    - by apply (inv_cells _ _ _ HI). }
  exists a, n. split; [done|]. by rewrite <- Ht.
Qed.

Lemma not_known_not_in_ids w l sl i :
  Inv w l sl → ¬ id_known w i → i ∉ ids_of (l ++ sl).
Proof.
  intros HI Hk Hin. apply list_elem_of_fmap in Hin as ([a t] & -> & Hin).
  apply Hk. by eapply Inv_id_known.
Qed.

(** A new node whose identifier is new too. *)
Lemma SInv_append w l sl w' a t :
  SInv w l sl → Inv w' (l ++ [(a, t)]) sl →
  taskMap (data w') = <[task_id t := a]> (taskMap (data w)) →
  task_id t ∉ ids_of (l ++ sl) →
  SInv w' (l ++ [(a, t)]) sl.
Proof.
  intros (HI & Hnd & Hmap) HI' Hm Hnew. split_and!; [done| |].
  - rewrite !ids_of_app in *. by apply NoDup_insert_middle.
  - intros b u [Hin|Hin]%elem_of_app; rewrite Hm.
    + rewrite lookup_insert_ne; [by apply Hmap|].
      intros Heq. apply Hnew. rewrite Heq, ids_of_app. apply elem_of_app. left.
      by eapply elem_of_ids_of.
    + apply list_elem_of_singleton in Hin. injection Hin as -> ->.
      apply lookup_insert_eq.
Qed.

Lemma SInv_delete w l1 a t l2 sl w' c :
  SInv w (l1 ++ (a, t) :: l2) sl → Inv w' (l1 ++ l2) ((c, t) :: sl) →
  taskMap (data w') = delete (task_id t) (taskMap (data w)) →
  SInv w' (l1 ++ l2) ((c, t) :: sl).
Proof.
  intros (HI & Hnd & Hmap) HI' Hm.
  rewrite !ids_of_app, ids_of_cons, <- app_assoc in Hnd. simpl in Hnd.
  apply NoDup_remove_middle in Hnd as [Hnd Hi].
  split_and!; [done| |].
  - rewrite !ids_of_app, ids_of_cons, <- app_assoc.
    rewrite app_assoc. apply NoDup_insert_middle'; by rewrite <- app_assoc.
  - intros b u Hin. rewrite Hm. rewrite lookup_delete_ne.
    + apply Hmap. elems. tauto.
    + intros Heq. apply Hi. rewrite Heq.
      apply elem_of_app in Hin as [Hin|Hin]; apply elem_of_app; [left|right].
      * by eapply elem_of_ids_of.
      * apply elem_of_app. left. by eapply elem_of_ids_of.
Qed.

Lemma SInv_undo w l c t sl w' :
  SInv w l ((c, t) :: sl) → Inv w' ((c, t) :: l) sl →
  taskMap (data w') = <[task_id t := c]> (taskMap (data w)) →
  SInv w' ((c, t) :: l) sl.
Proof.
  intros (HI & Hnd & Hmap) HI' Hm.
  rewrite ids_of_app, ids_of_cons in Hnd.
  apply NoDup_remove_middle in Hnd as [Hnd Hi].
  split_and!; [done| |].
  - rewrite <- app_comm_cons, ids_of_cons, ids_of_app. by apply NoDup_cons.
  - intros b u [Heq|Hin]%elem_of_cons; rewrite Hm.
    + injection Heq as -> ->. apply lookup_insert_eq.
    + rewrite lookup_insert_ne; [by apply Hmap|].
      intros Heq. apply Hi. rewrite Heq. apply elem_of_app. left.
      by eapply elem_of_ids_of.
Qed.

Lemma ids_of_upd l a t' :
  (∀ t, (a, t) ∈ l → task_id t' = task_id t) →
  ids_of (upd a t' <$> l) = ids_of l.
Proof.
  induction l as [|[b u] r IH]; intros Hsame; [done|].
  rewrite fmap_cons. unfold ids_of at 1 2. rewrite !fmap_cons.
  fold (ids_of (upd a t' <$> r)) (ids_of r). f_equal.
  - unfold upd. simpl. destruct (decide (b = a)) as [->|Hne]; simpl; [|done].
    apply Hsame, list_elem_of_here.
  - apply IH. intros t Ht. apply Hsame. by apply list_elem_of_further.
Qed.

Lemma SInv_update w l sl a n n' :
  SInv w l sl → store w !! a = Some n → id n' = id n →
  Inv (World (<[a := n']> (store w)) (data w)) (upd a (task_of n') <$> l) sl →
  SInv (World (<[a := n']> (store w)) (data w)) (upd a (task_of n') <$> l) sl.
Proof.
  intros (HI & Hnd & Hmap) Hn Hid HI'.
  assert (∀ t, (a, t) ∈ l → task_id (task_of n') = task_id t) as Hsame.
  { intros t Ht. rewrite (Inv_cell_unique _ _ _ _ _ _ HI Ht Hn). done. }
  split_and!; [done| |].
  - rewrite ids_of_app, ids_of_upd by done. by rewrite <- ids_of_app.
  - intros b u Hin. simpl. apply list_elem_of_fmap in Hin as ([b0 u0] & Heq & Hin).
    unfold upd in Heq. simpl in Heq. destruct (decide (b0 = a)) as [->|Hne].
    + injection Heq as -> ->. rewrite (Hsame u0 Hin). by apply Hmap.
    + injection Heq as -> ->. by apply Hmap.
Qed.

Lemma load_line_cases w l sl line out w' :
  Inv w l sl → load_line w line = Returns out w' →
  w' = w ∨
  ∃ tid a t, line_id line = Some tid ∧ task_id t = tid ∧
             Inv w' (l ++ [(a, t)]) sl ∧
             taskMap (data w') = <[tid := a]> (taskMap (data w)).
Proof.
  intros HI. unfold load_line, line_id.
  destruct (empty line); [intros [= <- <-]; by left|]. cbv zeta.
  destruct (find_from pipe 0 line) as [q1|]; [|intros [= <- <-]; by left].
  destruct (find_from pipe (pos_succ (Some q1)) line) as [q2|];
    [|intros [= <- <-]; by left].
  destruct (find_from pipe (pos_succ (Some q2)) line) as [q3|];
    [|intros [= <- <-]; by left].
  destruct (stoi (substr line 0 q1)) as [tid|e] eqn:E1; [|done].
  destruct (stoi (substr line (q2 + 1) (q3 - q2 - 1))) as [prio|e] eqn:E2; [|done].
  destruct (stoi (substr_from line (q3 + 1))) as [dn|e] eqn:E3; [|done].
  intros Hins.
  pose proof (insert_record_spec w l sl tid
                (substr line (q1 + 1) (q2 - q1 - 1)) prio dn HI
                (stoi_in_int _ _ E1) (stoi_in_int _ _ E2)) as H.
  rewrite Hins in H. destruct H as (_ & a & _ & HI' & Hm & _).
  right.
  exists tid, a, (Task tid (substr line (q1 + 1) (q2 - q1 - 1)) prio (negb (dn =? 0))).
  split_and!; done.
Qed.

Lemma load_lines_sinv w l sl lines :
  SInv w l sl → NoDup (omap line_id lines) →
  (∀ i, i ∈ omap line_id lines → i ∉ ids_of (l ++ sl)) →
  match load_lines w lines with
  | Returns _ w' => ∃ l', SInv w' l' sl
  | Throws _ w' => ∃ l', SInv w' l' sl
  | Undefined => True
  end.
Proof.
  revert w l. induction lines as [|line rest IH]; intros w l HS Hnd Hnew; simpl.
  - by eauto.
  - pose proof (load_line_inv w l sl line (proj1 HS)) as Hthrow.
    destruct (load_line w line) as [out w'|e w'|] eqn:Hl; [| |done].
    + destruct (load_line_cases _ _ _ _ _ _ (proj1 HS) Hl)
        as [->|(tid & a & t & Hid & Ht & HI' & Hm)].
      * apply (IH w l HS).
        -- simpl in Hnd. destruct (line_id line); [|done].
           by apply NoDup_cons in Hnd as [_ ?].
        -- intros i Hi. apply Hnew. simpl. destruct (line_id line); [|done].
           by apply list_elem_of_further.
      * simpl in Hnd, Hnew. rewrite Hid in Hnd, Hnew.
        apply NoDup_cons in Hnd as [Htid Hnd].
        assert (SInv w' (l ++ [(a, t)]) sl) as HS'.
        { apply (SInv_append w); [done|done|by rewrite Ht|].
          rewrite Ht. apply Hnew. apply list_elem_of_here. }
        apply (IH w' _ HS' Hnd). intros i Hi.
        rewrite <- app_assoc, ids_of_app. simpl.
        specialize (Hnew i (list_elem_of_further _ _ _ Hi)).
        rewrite ids_of_app in Hnew. apply not_elem_of_app in Hnew as [H1 H2].
        apply not_elem_of_app. split; [done|].
        apply not_elem_of_cons. split; [|done]. intros ->. apply Htid.
        by rewrite <- Ht.
    + subst w'. by eauto.
Qed.

Lemma perform_sinv w l sl o out w' :
  SInv w l sl → perform w o = Returns out w' →
  (∀ file, o = OpLoad file → distinct_file w file) →
  ∃ l' sl', SInv w' l' sl'.
Proof.
  intros HS Hp Hfile. pose proof HS as (HI & Hnd & Hmap).
  destruct o as [file|desc p|i nd np|i| |i dn|i|]; simpl in Hp.
  - destruct file as [text|]; simpl in Hp; [|injection Hp as <- <-; by eauto].
    destruct (Hfile _ eq_refl) as [Hfnd Hfnew].
    pose proof (load_lines_sinv w l sl (getlines EmptyString text) HS Hfnd) as H.
    rewrite Hp in H. destruct H as (l' & HS'); [|by eauto].
    intros i Hi. by eapply not_known_not_in_ids; [|apply Hfnew].
  - destruct (empty desc) eqn:Hd.
    + rewrite addTask_empty in Hp by done. injection Hp as <- <-. by eauto.
    + destruct (addTask_returns _ _ _ _ _ _ _ HI Hd Hp)
        as (_ & a & _ & HI' & Hm & _).
      eexists _, _. eapply SInv_append; [done..|]. simpl.
      intros Hin. apply list_elem_of_fmap in Hin as ([b u] & Heq & Hin).
      destruct (inv_ids _ _ _ HI _ _ Hin) as [[_ Hlt] _]. simpl in Heq. lia.
  - destruct (taskMap (data w) !! i) as [a|] eqn:Hm.
    + destruct (editTask_spec w l sl i a nd np HI Hm) as (n & Hn & Hid & He & HI').
      cbv zeta in He, HI'. rewrite He in Hp. injection Hp as <- <-.
      eexists _, _. eapply SInv_update; [done..| |done]. by simpl.
    + rewrite editTask_absent in Hp by done. injection Hp as <- <-. by eauto.
  - destruct (taskMap (data w) !! i) as [a|] eqn:Hm.
    + destruct (deleteTask_spec w l sl i a HI Hm)
        as (l1 & b & t & l2 & c & w2 & -> & Hti & _ & Hd & HI' & Hm' & _).
      rewrite Hd in Hp. injection Hp as <- <-.
      eexists _, _. eapply SInv_delete; [done..|]. by rewrite Hti.
    + rewrite deleteTask_absent in Hp by done. injection Hp as <- <-. by eauto.
  - destruct sl as [|[c t] sl'].
    + rewrite undoDelete_empty in Hp by (by rewrite (inv_stack _ _ _ HI)).
      injection Hp as <- <-. by eauto.
    + pose proof (undoDelete_spec w l c t sl' HI) as H. rewrite Hp in H.
      destruct H as (_ & HI' & Hm' & _).
      eexists _, _. by eapply SInv_undo.
  - destruct (taskMap (data w) !! i) as [a|] eqn:Hm.
    + destruct (markComplete_spec w l sl i a dn HI Hm) as (n & Hn & Hid & He & HI').
      rewrite He in Hp. injection Hp as <- <-.
      eexists _, _. eapply SInv_update; [done..| |done]. by simpl.
    + rewrite markComplete_absent in Hp by done. injection Hp as <- <-. by eauto.
  - destruct (taskMap (data w) !! i) as [a|] eqn:Hm.
    + destruct (searchTask_spec w l sl i a HI Hm) as (t & _ & _ & He).
      rewrite He in Hp. injection Hp as <- <-. by eauto.
    + rewrite searchTask_absent in Hp by done. injection Hp as <- <-. by eauto.
  - destruct (printAll_spec w l sl HI) as (out' & He).
    rewrite He in Hp. injection Hp as <- <-. by eauto.
Qed.

Lemma exec_sinv w l sl ops out w' :
  SInv w l sl → exec w ops = Some (out, w') → loads_distinct w ops →
  ∃ l' sl', SInv w' l' sl'.
Proof.
  revert w l sl out. induction ops as [|o rest IH]; intros w l sl out HS He Hld.
  - injection He as <- <-. by eauto.
  - apply exec_cons in He as (out1 & w1 & out2 & Hp & He & _).
    destruct Hld as [Hfile Hrest]. rewrite Hp in Hrest.
    destruct (perform_sinv _ _ _ _ _ _ HS Hp) as (l1 & sl1 & HS1).
    { intros file ->. done. }
    by eapply IH.
Qed.

Lemma SInv_initial : SInv initial [] [].
Proof.
  split_and!; [apply Inv_initial|apply NoDup_nil_2|].
  intros a t Hin. by apply elem_of_nil in Hin.
Qed.

(** C2, as stated, fails for loading: a file with two records of the same
    identifier leaves two nodes in the list and one entry in the table, so
    the first node is not the one the table holds for its identifier. *)
Lemma load_duplicate_ids_inconsistent :
  ∃ w, loadFromFile initial (Some twice_1) = Returns [] w ∧
       tasks w = Some [Task 1 "a" 1 false; Task 1 "b" 1 false] ∧
       map_to_list (taskMap (data w)) = [(1, 2%positive)] ∧
       ¬ consistent w.
Proof.
  eexists. split; [vm_compute; reflexivity|].
  split; [vm_compute; reflexivity|]. split; [vm_compute; reflexivity|].
  intros (l & Hc & Hall & _).
  destruct l as [|[a t] r]; [done|].
  destruct Hc as [Ha (n & Hn & Ht & _)]. injection Ha as <-.
  specialize (Hall 1%positive t (list_elem_of_here _ _)).
  vm_compute in Hn. injection Hn as <-. rewrite <- Ht in Hall.
  vm_compute in Hall. discriminate.
Qed.

(** C2, amended. After any run of calls from the empty structure in which
    every file loaded holds records whose identifiers differ from each other
    and from those of all tasks, live or deleted, of the world it is loaded
    into, the list and the table hold the same tasks: every node of the
    list is in the table under its identifier, every entry of the table is
    a node of the list with that identifier, and the identifiers of the
    list are distinct.  This also holds for the world a load of such a file
    leaves when a later line makes it throw. *)
Theorem sequence_index_consistent (ops : list op) (out : list message) (w : world) :
  exec initial ops = Some (out, w) → loads_distinct initial ops →
  consistent w ∧
  (∃ ts, tasks w = Some ts ∧ NoDup (task_id <$> ts)) ∧
  (∀ file e w', distinct_file w file → loadFromFile w file = Throws e w' →
                consistent w').
Proof.
  intros He Hld.
  destruct (exec_sinv _ _ _ _ _ _ SInv_initial He Hld) as (l & sl & HS).
  split_and!; [by eapply SInv_consistent|by eapply SInv_tasks_distinct|].
  intros [text|] e w' Hfile Hl; simpl in Hl; [|done].
  destruct Hfile as [Hfnd Hfnew].
  pose proof (load_lines_sinv w l sl (getlines EmptyString text) HS Hfnd) as H.
  rewrite Hl in H. destruct H as (l' & HS'); [|by eapply SInv_consistent].
  intros i Hi. eapply not_known_not_in_ids; [apply HS|by apply Hfnew].
Qed.

Lemma sequence_index_consistent_witness :
  ∃ w, exec initial [OpLoad (Some two_records); OpAdd "c" 2; OpDelete 1; OpUndo]
       = Some ([MsgAdded 3; MsgDeleted; MsgRestored 1], w) ∧
       consistent w.
Proof.
  eexists. split; [vm_compute; reflexivity|].
  refine (proj1 (sequence_index_consistent
                   [OpLoad (Some two_records); OpAdd "c" 2; OpDelete 1; OpUndo]
                   [MsgAdded 3; MsgDeleted; MsgRestored 1] _ _ _)).
  - vm_compute. reflexivity.
  - split; [split|].
    + vm_compute. apply NoDup_cons. split.
      { intros H. apply list_elem_of_singleton in H. discriminate. }
      apply NoDup_singleton.
    + intros i _ (a & n & Hn & _). unfold initial in Hn. simpl in Hn.
      by rewrite lookup_empty in Hn.
    + vm_compute. tauto.
Defined.

(** *** Lines of the file *)

(** What [loadFromFile] does with a line of four fields. *)
Lemma load_line_fields w f1 f2 f3 f4 :
  find_from pipe 0 f1 = None → find_from pipe 0 f2 = None →
  find_from pipe 0 f3 = None →
  load_line w (fields f1 f2 f3 f4) =
    match stoi f1 with
    | Raise e => Throws e w
    | Value tid =>
        match stoi f3 with
        | Raise e => Throws e w
        | Value prio =>
            match stoi f4 with
            | Raise e => Throws e w
            | Value done => insert_record w tid f2 prio done
            end
        end
    end.
Proof.
  intros H1 H2 H3. unfold load_line, fields.
  rewrite empty_append_sep. cbv zeta.
  rewrite (find_from_first pipe f1) by done. unfold pos_succ.
  rewrite (find_from_after pipe f1 f2) by done.
  set (s2 := f1 +:+ String pipe f2).
  assert (f1 +:+ String pipe (f2 +:+ String pipe (f3 +:+ String pipe f4))
          = s2 +:+ String pipe (f3 +:+ String pipe f4)) as Hs2.
  { unfold s2. by rewrite append_assoc. }
  assert (S (String.length f1) + String.length f2 = String.length s2)%nat as Hl2.
  { unfold s2. rewrite length_append. simpl. lia. }
  rewrite Hl2. rewrite Hs2 at 1.
  rewrite (find_from_after pipe s2 f3) by done.
  set (s3 := s2 +:+ String pipe f3).
  assert (S (String.length s2) + String.length f3 = String.length s3)%nat as Hl3.
  { unfold s3. rewrite length_append. simpl. lia. }
  rewrite Hl3.
  (* the four fields *)
  unfold substr.
  rewrite (substring_prefix f1).
  replace (String.length f1 + 1)%nat with (S (String.length f1)) by lia.
  replace (String.length s2 - String.length f1 - 1)%nat
    with (String.length f2) by lia.
  rewrite (substring_after f1 pipe f2).
  rewrite Hs2.
  replace (String.length s2 + 1)%nat with (S (String.length s2)) by lia.
  replace (String.length s3 - String.length s2 - 1)%nat
    with (String.length f3) by lia.
  rewrite (substring_after s2 pipe f3).
  assert (s2 +:+ String pipe (f3 +:+ String pipe f4) = s3 +:+ String pipe f4)
    as Hs3.
  { unfold s3. by rewrite append_assoc. }
  rewrite Hs3.
  replace (String.length s3 + 1)%nat with (S (String.length s3)) by lia.
  rewrite (substr_from_after s3 pipe f4).
  done.
Qed.

(** Lines with fewer than three ['|'] are skipped. *)
Lemma load_line_skipped w line :
  (count_char pipe line < 3)%nat → load_line w line = Returns [] w.
Proof.
  intros Hc. unfold load_line. destruct (empty line); [done|]. cbv zeta.
  destruct (decide (count_char pipe line = O)) as [H0|H0].
  { apply find_from_count in H0. by rewrite H0. }
  destruct (count_char_split pipe line) as (f1 & r1 & -> & Hf1 & Hc1); [lia|].
  rewrite (find_from_first pipe f1) by done. unfold pos_succ.
  destruct (decide (count_char pipe r1 = O)) as [H1|H1].
  { apply find_from_count in H1.
    by rewrite (find_from_after_none pipe f1 r1). }
  destruct (count_char_split pipe r1) as (f2 & r2 & -> & Hf2 & Hc2); [lia|].
  rewrite (find_from_after pipe f1 f2) by done.
  assert (count_char pipe r2 = O) as H2 by lia.
  apply find_from_count in H2.
  set (s2 := f1 +:+ String pipe f2).
  assert (f1 +:+ String pipe (f2 +:+ String pipe r2) = s2 +:+ String pipe r2)
    as Hs2.
  { unfold s2. by rewrite append_assoc. }
  assert (S (String.length f1) + String.length f2 = String.length s2)%nat as Hl2.
  { unfold s2. rewrite length_append. simpl. lia. }
  rewrite Hl2, Hs2. by rewrite (find_from_after_none pipe s2 r2).
Qed.

(** Lines with three ['|'] or more are lines of four fields. *)
Lemma count_char_fields line :
  (3 ≤ count_char pipe line)%nat →
  ∃ f1 f2 f3 f4, line = fields f1 f2 f3 f4 ∧
    find_from pipe 0 f1 = None ∧ find_from pipe 0 f2 = None ∧
    find_from pipe 0 f3 = None.
Proof.
  intros Hc.
  destruct (count_char_split pipe line) as (f1 & r1 & -> & Hf1 & Hc1); [lia|].
  destruct (count_char_split pipe r1) as (f2 & r2 & -> & Hf2 & Hc2); [lia|].
  destruct (count_char_split pipe r2) as (f3 & r3 & -> & Hf3 & Hc3); [lia|].
  by exists f1, f2, f3, r3.
Qed.

Lemma load_lines_app w lines1 w1 lines2 :
  load_lines w lines1 = Returns [] w1 →
  load_lines w (lines1 ++ lines2) = load_lines w1 lines2.
Proof.
  revert w. induction lines1 as [|line rest IH]; intros w; simpl.
  - by intros [= <-].
  - destruct (load_line w line) as [out w'| |]; [|done..]. apply IH.
Qed.

Lemma insert_record_changes w tid desc prio dn out w' :
  insert_record w tid desc prio dn = Returns out w' →
  totalTasks (data w') = totalTasks (data w) + 1.
Proof.
  unfold insert_record, Linked.new.
  destruct (link_last _ _ _) as [[m' hd']|]; simpl; [|done].
  destruct (int_add tid 1); simpl; [|done].
  unfold int_add. destruct (in_int (totalTasks (data w) + 1)); simpl; [|done].
  by intros [= <- <-].
Qed.

(** C10. [loadFromFile] skips a line exactly when it holds fewer than
    three ['|'].  A line with three or more is a line of four fields, and
    when [stoi] throws for its first, third or fourth field (in that order)
    the exception leaves [loadFromFile]: the line is not skipped, the lines
    after it are not read, and the lines before it stay inserted.  For
    instance the line "abc|d|2|0" throws [std::invalid_argument]. *)
Theorem loadFromFile_not_total :
  (∀ w line, (count_char pipe line < 3)%nat → load_line w line = Returns [] w) ∧
  (∀ w line out, (3 ≤ count_char pipe line)%nat →
     load_line w line ≠ Returns out w) ∧
  (∀ line, (3 ≤ count_char pipe line)%nat →
     ∃ f1 f2 f3 f4, line = fields f1 f2 f3 f4 ∧
       find_from pipe 0 f1 = None ∧ find_from pipe 0 f2 = None ∧
       find_from pipe 0 f3 = None) ∧
  (∀ w f1 f2 f3 f4 e,
     find_from pipe 0 f1 = None → find_from pipe 0 f2 = None →
     find_from pipe 0 f3 = None →
     stoi f1 = Raise e ∨
     (∃ tid, stoi f1 = Value tid ∧ stoi f3 = Raise e) ∨
     (∃ tid prio, stoi f1 = Value tid ∧ stoi f3 = Value prio ∧
                  stoi f4 = Raise e) →
     load_line w (fields f1 f2 f3 f4) = Throws e w) ∧
  (∀ w lines1 w1 bad e rest,
     load_lines w lines1 = Returns [] w1 → load_line w1 bad = Throws e w1 →
     load_lines w (lines1 ++ bad :: rest) = Throws e w1) ∧
  (stoi "abc" = Raise invalid_argument ∧
   ∃ w1, loadFromFile initial (Some bad_second_line) = Throws invalid_argument w1 ∧
         tasks w1 = Some [Task 1 "a" 1 false]).
Proof.
  split_and!.
  - apply load_line_skipped.
  - intros w line out Hc Hl.
    destruct (count_char_fields line Hc) as (f1 & f2 & f3 & f4 & -> & H1 & H2 & H3).
    rewrite load_line_fields in Hl by done.
    destruct (stoi f1); [|done]. destruct (stoi f3); [|done].
    destruct (stoi f4); [|done].
    apply insert_record_changes in Hl. lia.
  - apply count_char_fields.
  - intros w f1 f2 f3 f4 e H1 H2 H3 Hbad. rewrite load_line_fields by done.
    destruct Hbad as [->|[(tid & -> & ->)|(tid & prio & -> & -> & ->)]]; done.
  - intros w lines1 w1 bad e rest H1 Hbad.
    rewrite (load_lines_app _ _ _ _ H1). simpl. by rewrite Hbad.
  - reflexivity.
  - eexists. split; vm_compute; reflexivity.
Qed.

(** *** Saving and loading again *)

Lemma find_from_String_ne c a s :
  a ≠ c → find_from c 0 s = None → find_from c 0 (String a s) = None.
Proof.
  intros Hne Hs. simpl. destruct (Ascii.eqb_spec a c); [done|]. by rewrite Hs.
Qed.

Lemma find_from_append_none c s t :
  find_from c 0 s = None → find_from c 0 t = None →
  find_from c 0 (s +:+ t) = None.
Proof. intros Hs Ht. rewrite find_from_none_append by done. by rewrite Ht. Qed.

Lemma replace_at_count s pos :
  find_from pipe 0 s = Some pos →
  count_char pipe s = S (count_char pipe (replace_at pos s)).
Proof.
  revert pos. induction s as [|a r IH]; intros pos; simpl; [done|].
  destruct (Ascii.eqb a pipe) eqn:E.
  - intros [= <-]. simpl. done.
  - destruct (find_from pipe 0 r) as [q|] eqn:Hq; simpl; [|done].
    intros [= <-]. simpl. rewrite E. simpl. by apply IH.
Qed.

Lemma sanitize_loop_free k s :
  (count_char pipe s ≤ k)%nat →
  find_from pipe 0 (sanitize_loop k s) = None.
Proof.
  revert s. induction k as [|k IH]; intros s Hk; simpl.
  - apply find_from_count. lia.
  - destruct (find_from pipe 0 s) as [pos|] eqn:Hf; [|done].
    apply IH. pose proof (replace_at_count s pos Hf). lia.
Qed.

Lemma count_char_le_length c s : (count_char c s ≤ String.length s)%nat.
Proof.
  induction s as [|a r IH]; simpl; [lia|]. destruct (Ascii.eqb a c); lia.
Qed.

(** The loop of [saveToFile] ends within the rounds it is given, with a
    text that holds no ['|']. *)
Lemma sanitize_no_pipe d : find_from pipe 0 (sanitize d) = None.
Proof. apply sanitize_loop_free, count_char_le_length. Qed.

Lemma sanitize_free d : find_from pipe 0 d = None → sanitize d = d.
Proof.
  intros H. unfold sanitize. destruct (String.length d); simpl; [done|].
  by rewrite H.
Qed.

Lemma record_line_body n : record_line n = record_body n +:+ endl.
Proof.
  unfold record_line, record_body, fields, endl.
  repeat (rewrite append_assoc || rewrite append_String). done.
Qed.

Lemma record_body_one_line n :
  plain n → find_from newline 0 (record_body n) = None.
Proof.
  intros [Hp Hn]. unfold record_body, fields.
  rewrite (sanitize_free _ Hp).
  assert (∀ z, find_from newline 0 (to_string z) = None) as Hz.
  { intros z. by apply to_string_free. }
  apply find_from_append_none; [done|].
  apply find_from_String_ne; [done|].
  apply find_from_append_none; [done|].
  apply find_from_String_ne; [done|].
  apply find_from_append_none; [done|].
  apply find_from_String_ne; [done|]. by destruct (completed n).
Qed.

Lemma getlines_file_text ns :
  Forall plain ns → getlines EmptyString (file_text ns) = record_body <$> ns.
Proof.
  induction 1 as [|n ns Hn Hns IH]; [done|]. simpl.
  rewrite record_line_body. unfold endl. rewrite append_assoc, append_String.
  rewrite append_empty_l.
  rewrite getlines_line by (by apply record_body_one_line).
  by rewrite append_empty_l, IH.
Qed.

(** The line written for a node is read back as its fields. *)
Lemma load_line_record_body w n :
  plain n → in_int (id n) = true → in_int (priority n) = true →
  load_line w (record_body n)
  = insert_record w (id n) (description n) (priority n)
      (if completed n then 1 else 0).
Proof.
  intros [Hp Hn] Hi Hpr. unfold record_body.
  rewrite load_line_fields.
  - rewrite !stoi_to_string by done. rewrite (sanitize_free _ Hp).
    by destruct (completed n).
  - by apply to_string_free.
  - by rewrite (sanitize_free _ Hp).
  - by apply to_string_free.
Qed.

Lemma load_records ns w l sl :
  Inv w l sl →
  Forall (λ n, plain n ∧ in_int (id n) = true ∧ id n < INT_MAX ∧
               in_int (priority n) = true) ns →
  totalTasks (data w) + Z.of_nat (length ns) ≤ INT_MAX →
  ∃ w' l', load_lines w (record_body <$> ns) = Returns [] w' ∧
           Inv w' (l ++ l') sl ∧ l'.*2 = task_of <$> ns.
Proof.
  intros HI Hns. revert w l HI. induction Hns as [|n ns (Hpl & Hi & Hlt & Hpr) Hns IH];
    intros w l HI Htot.
  - exists w, []. rewrite app_nil_r. done.
  - rewrite fmap_cons. simpl load_lines. rewrite load_line_record_body by done.
    pose proof (insert_record_spec w l sl (id n) (description n) (priority n)
                  (if completed n then 1 else 0) HI Hi Hpr) as H.
    simpl length in Htot.
    destruct (insert_record _ _ _ _ _) as [out w1|e w1|]; [|done|lia].
    destruct H as (-> & a & _ & HI1 & _ & _ & Ht1).
    destruct (IH w1 _ HI1) as (w' & l' & Hl & HI' & Hl'); [lia|].
    exists w', ((a, task_of n) :: l'). split_and!.
    + done.
    + rewrite <- app_assoc in HI'. simpl in HI'.
      by replace (negb ((if completed n then 1 else 0) =? 0)) with (completed n)
        in HI' by (by destruct (completed n)).
    + rewrite fmap_cons. simpl. by rewrite Hl'.
Qed.

Lemma listAll_nodes w l sl ns :
  Inv w l sl → listAll w = Some ns →
  Forall (λ n, in_int (id n) = true ∧ id n < INT_MAX ∧
               in_int (priority n) = true) ns ∧
  length ns = length l.
Proof.
  intros HI Hl. destruct (listAll_spec _ _ _ HI) as (ns' & Hl' & Hns).
  rewrite Hl in Hl'. injection Hl' as <-. split.
  - apply Forall_forall. intros n Hn.
    assert (task_of n ∈ l.*2) as Ht.
    { rewrite <- Hns. by apply (list_elem_of_fmap_2 task_of). }
    apply list_elem_of_fmap in Ht as ([a t] & Heq & Hin). simpl in Heq.
    destruct (inv_ids _ _ _ HI a t) as [[Hlo Hhi] Hpr].
    { apply elem_of_app. by left. }
    rewrite <- Heq in Hlo, Hhi, Hpr. simpl in Hlo, Hhi, Hpr.
    pose proof (inv_next _ _ _ HI). split_and!; [|lia|done].
    apply in_int_spec. lia.
  - rewrite <- (length_fmap task_of ns), Hns. by rewrite length_fmap.
Qed.

(** C5, as stated, fails for a description that holds no ['|'] but a
    newline: the record is written on two lines, each of which has fewer
    than three ['|'], and loading the file skips both. *)
Lemma save_load_newline_lost :
  ∃ w text w',
    exec initial [OpAdd two_line_description 1] = Some ([MsgAdded 1], w) ∧
    find_from pipe 0 two_line_description = None ∧
    tasks w = Some [Task 1 two_line_description 1 false] ∧
    saveToFile w true = (Returns [MsgSaved] w, Some text) ∧
    loadFromFile initial (Some text) = Returns [] w' ∧
    tasks w' = Some [] ∧ tasks w' ≠ tasks w.
Proof.
  eexists _, _, _. split_and!; try (vm_compute; reflexivity).
  vm_compute. discriminate.
Qed.

(** C5, amended. In a reachable world the traversal returns the nodes of
    the list; when their descriptions hold neither ['|'] nor a newline,
    [saveToFile] writes one line [id|description|priority|flag] per node,
    and [loadFromFile] of that text into the empty structure returns with
    the same tasks (identifier, description, priority, completion) in the
    same order and with [nextId] above every loaded identifier. *)
Theorem save_load_round_trip (w : world) :
  reachable w →
  ∃ ns, listAll w = Some ns ∧ tasks w = Some (task_of <$> ns) ∧
        saveToFile w true = (Returns [MsgSaved] w, Some (file_text ns)) ∧
        (Forall plain ns →
         getlines EmptyString (file_text ns) = record_body <$> ns ∧
         ∃ w', loadFromFile initial (Some (file_text ns)) = Returns [] w' ∧
               tasks w' = tasks w ∧
               (∀ t, t ∈ task_of <$> ns → task_id t < nextId (data w'))).
Proof.
  intros Hr. destruct (reachable_Inv w Hr) as (l & sl & HI).
  destruct (listAll_spec _ _ _ HI) as (ns & Hl & Hns).
  exists ns. split_and!; [done| | |].
  - by rewrite (tasks_spec _ _ _ HI), Hns.
  - unfold saveToFile. by rewrite Hl.
  - intros Hplain. split; [by apply getlines_file_text|].
    destruct (listAll_nodes _ _ _ _ HI Hl) as [Hnodes Hlen].
    destruct (load_records ns initial [] [] Inv_initial) as (w' & l' & Hload & HI' & Hl').
    + apply Forall_forall. intros n Hn. rewrite Forall_forall in Hplain, Hnodes.
      destruct (Hnodes n Hn) as (? & ? & ?). by split_and!; [apply Hplain|..].
    + simpl. destruct (inv_total _ _ _ HI) as [Ht Hmax]. lia.
    + exists w'. simpl in HI'. split_and!.
      * simpl. by rewrite getlines_file_text.
      * rewrite (tasks_spec _ _ _ HI'), (tasks_spec _ _ _ HI). by rewrite Hl', Hns.
      * intros t Ht. rewrite <- Hl' in Ht.
        apply list_elem_of_fmap in Ht as ([a u] & -> & Hin).
        destruct (inv_ids _ _ _ HI' a u) as [[_ ?] _]; [|done].
        apply elem_of_app. by left.
Qed.

Lemma save_load_round_trip_witness :
  exec initial sample_ops
  = Some ([MsgAdded 1; MsgAdded 2; MsgMarked 1 true; MsgDeleted; MsgRestored 2],
          sample_world) ∧
  ∃ ns w', listAll sample_world = Some ns ∧
           saveToFile sample_world true
           = (Returns [MsgSaved] sample_world, Some (file_text ns)) ∧
           loadFromFile initial (Some (file_text ns)) = Returns [] w' ∧
           tasks w' = tasks sample_world.
Proof.
  split; [vm_compute; reflexivity|].
  destruct (save_load_round_trip sample_world) as (ns & Hl & _ & Hs & Hrt).
  { exists sample_ops,
      [MsgAdded 1; MsgAdded 2; MsgMarked 1 true; MsgDeleted; MsgRestored 2].
    vm_compute. reflexivity. }
  destruct Hrt as (_ & w' & Hload & Heq & _).
  { vm_compute in Hl. injection Hl as <-.
    repeat constructor. }
  exists ns, w'. split_and!; done.
Defined.

End ProjectttSpec.

(** ** The class [ToDoList]: the invariant and the properties *)

Module ToDoListSpec.
Import Cxx Linked ToDoList CxxFacts LinkedFacts.

Lemma tl_Inv_fuel w l : Inv w l → (length l ≤ base.size (store w))%nat.
Proof.
  intros HI. rewrite <- (length_fmap fst l). apply length_le_size.
  - apply (inv_nodup _ _ HI).
  - intros a Ha. apply list_elem_of_fmap in Ha as ([b t] & -> & Hin).
    destruct (chain_cells _ _ _ _ _ (inv_chain _ _ HI) Hin) as (n & Hn & _).
    by exists n.
Qed.

Lemma tl_Inv_fresh w l : Inv w l → fresh (dom (store w)) ∉ l.*1.
Proof.
  intros HI Hin. apply (is_fresh (dom (store w))). apply elem_of_dom.
  apply list_elem_of_fmap in Hin as ([b t] & -> & Hin).
  destruct (chain_cells _ _ _ _ _ (inv_chain _ _ HI) Hin) as (n & Hn & _).
  by exists n.
Qed.

Lemma tl_Inv_initial : Inv initial [].
Proof.
  split; simpl; try done.
  - apply NoDup_nil_2.
  - intros a [x Hx]. by rewrite lookup_empty in Hx.
  - intros a t Hin. by apply elem_of_nil in Hin.
Qed.

(** [addTask] with a description that is not empty: it appends the task
    and returns, unless a counter is at [INT_MAX]. *)
Lemma tl_addTask_spec w l desc p :
  Inv w l → empty desc = false →
  match addTask w desc p with
  | Returns out w' =>
      out = (if (p <? 1) || (p >? 5) then [MsgPriorityReset] else [])
            ++ [MsgAdded (taskCounter (this w))] ∧
      ∃ a, store w !! a = None ∧
           Inv w' (l ++ [(a, Task (taskCounter (this w)) desc
                              (stored_priority p) false)]) ∧
           hashTable (this w') = <[taskCounter (this w) := a]> (hashTable (this w)) ∧
           taskCounter (this w') = taskCounter (this w) + 1 ∧
           size (this w') = size (this w) + 1
  | Undefined => taskCounter (this w) = INT_MAX ∨ size (this w) = INT_MAX
  end.
Proof.
  intros HI Hd. unfold addTask, Linked.new. rewrite Hd. cbv zeta.
  set (pw := if (p <? 1) || (p >? 5) then (1, [MsgPriorityReset]) else (p, [])).
  assert (pw = (stored_priority p,
                if (p <? 1) || (p >? 5) then [MsgPriorityReset] else [])) as ->.
  { unfold pw, stored_priority. by destruct ((p <? 1) || (p >? 5)). }
  set (a := fresh (dom (store w))).
  set (n := Node_new _ _ _).
  pose proof (tl_Inv_fresh _ _ HI) as Hfr. fold a in Hfr.
  assert (store w !! a = None) as Hnone.
  { apply not_elem_of_dom. apply is_fresh. }
  destruct (link_last_spec (<[a := n]> (store w)) (head (this w)) l a n (task_of n))
    as (m' & hd' & Hlink & Hch & Hcell & Hdom); [..|done|done|].
  { eapply chain_frame; [apply (inv_chain _ _ HI)|].
    intros b Hb. rewrite lookup_insert_ne; [done|]. intros Heq. apply Hfr.
    by rewrite Heq. }
  { apply (inv_nodup _ _ HI). }
  { rewrite map_size_insert_None by done. pose proof (tl_Inv_fuel _ _ HI). lia. }
  { done. }
  { apply lookup_insert_eq. }
  rewrite Hlink. simpl.
  pose proof (inv_counter _ _ HI) as Hcnt.
  destruct (inv_size _ _ HI) as [Hlen Hmax].
  destruct (decide (taskCounter (this w) = INT_MAX)) as [?|Hn].
  { rewrite (int_add_None (taskCounter (this w)))
      by (unfold INT_MAX, INT_MIN in *; lia). simpl. by left. }
  rewrite (int_add_Some (taskCounter (this w)))
    by (unfold INT_MAX, INT_MIN in *; lia). simpl.
  destruct (decide (size (this w) = INT_MAX)) as [?|Hs].
  { rewrite (int_add_None (size (this w)))
      by (unfold INT_MAX, INT_MIN in *; lia). simpl. by right. }
  rewrite (int_add_Some (size (this w)))
    by (unfold INT_MAX, INT_MIN in *; lia). simpl.
  split; [done|]. exists a. split_and!; [done| |done..].
  split; cbn [store this head hashTable taskCounter size].
  - done.
  - rewrite fmap_app. apply NoDup_app. split_and!; [apply (inv_nodup _ _ HI)| |].
    + intros b Hb Hb'. apply list_elem_of_singleton in Hb'. simpl in Hb'.
      subst b. done.
    + apply NoDup_singleton.
  - intros b Hb. apply Hdom in Hb. rewrite fmap_app. apply elem_of_app.
    destruct (decide (a = b)) as [<-|Hne]; [right; apply list_elem_of_here|].
    rewrite lookup_insert_ne in Hb by done. left. by apply (inv_dom _ _ HI).
  - intros i b Hib. destruct (decide (taskCounter (this w) = i)) as [<-|Hne].
    + rewrite lookup_insert_eq in Hib. injection Hib as <-.
      eexists. split; [apply elem_of_app; right; apply list_elem_of_here|done].
    + rewrite lookup_insert_ne in Hib by done.
      destruct (inv_map _ _ HI _ _ Hib) as (u & Hu & Hiu).
      exists u. split; [apply elem_of_app; by left|done].
  - intros b u [Hin|Hin]%elem_of_app.
    + pose proof (inv_ids _ _ HI _ _ Hin). lia.
    + apply list_elem_of_singleton in Hin. injection Hin as -> ->. simpl. lia.
  - lia.
  - rewrite length_app. simpl. split; lia.
Qed.

(** The loop of [deleteTask] stops at the node before the first node that
    carries the identifier. *)
Lemma find_before_chain m i l1 a t l2 k h :
  chain m (Some h) (l1 ++ (a, t) :: l2) → l1 ≠ [] → task_id t = i →
  (∀ x, x ∈ l1 → task_id x.2 ≠ i) →
  (length (l1 ++ (a, t) :: l2) ≤ k)%nat →
  ∃ z, last l1.*1 = Some z ∧ find_before k m i h = Some z.
Proof.
  revert k h. induction l1 as [|[b tb] r IH]; intros k h Hc Hne Hi Hl1 Hk; [done|].
  destruct Hc as [Hh (nb & Hb & Htb & Hc)]. injection Hh as ->.
  simpl in Hk. destruct k as [|k]; [lia|]. simpl find_before. rewrite Hb. simpl.
  destruct r as [|[c tc] r'].
  - destruct Hc as [Hnx (na & Ha & Hta & _)].
    change (ToDoList.next nb = Some a) in Hnx. rewrite Hnx, Ha. simpl.
    assert (taskId na = i) as -> by (by rewrite <- Hi, <- Hta).
    rewrite Z.eqb_refl. simpl. by exists b.
  - pose proof Hc as [Hnx (nc & Hcn & Htc & _)].
    change (ToDoList.next nb = Some c) in Hnx. rewrite Hnx, Hcn. simpl.
    assert (taskId nc ≠ i) as Hci.
    { specialize (Hl1 (c, tc)). rewrite <- Htc in Hl1. apply Hl1.
      apply list_elem_of_further, list_elem_of_here. }
    apply Z.eqb_neq in Hci. rewrite Hci. simpl.
    destruct (IH k c) as (z & Hz & Hf); [by rewrite <- Hnx|done|done| |simpl in *; lia|].
    { intros x Hx. apply Hl1. by apply list_elem_of_further. }
    exists z. split; [exact Hz|done].
Qed.

(** [deleteTask] for an identifier of the table: the first node of the
    list carrying it is removed. *)
Lemma tl_deleteTask_spec w l i a0 :
  Inv w l → hashTable (this w) !! i = Some a0 →
  ∃ l1 a t l2 w',
    l = l1 ++ (a, t) :: l2 ∧ task_id t = i ∧
    deleteTask w i = Returns [MsgDeleted i] w' ∧
    Inv w' (l1 ++ l2) ∧
    hashTable (this w') = delete i (hashTable (this w)) ∧
    taskCounter (this w') = taskCounter (this w) ∧
    size (this w') = size (this w) - 1.
Proof.
  intros HI Hmap.
  destruct (inv_map _ _ HI _ _ Hmap) as (t0 & Hin0 & Hi0).
  destruct (first_with_id l a0 t0 Hin0) as (l1 & a & t & l2 & Hl & Hti & Hl1).
  rewrite Hi0 in Hti, Hl1. subst l.
  pose proof (inv_chain _ _ HI) as Hch.
  pose proof (inv_nodup _ _ HI) as Hnd.
  pose proof (tl_Inv_fuel _ _ HI) as Hfuel.
  destruct (inv_size _ _ HI) as [Hlen Hmax].
  rewrite length_app in Hlen. simpl in Hlen.
  destruct (chain_cells _ _ _ a t Hch) as (n & Hn & Hnt).
  { apply elem_of_app. right. apply list_elem_of_here. }
  pose proof (chain_remove _ _ _ _ _ _ n Hch Hnd Hn) as Hrem.
  assert (∃ h hn m1 hd1,
            head (this w) = Some h ∧ store w !! h = Some hn ∧
            unlink (store w) (head (this w)) i h hn = Some (delete a m1, hd1) ∧
            chain m1 hd1 (l1 ++ l2) ∧
            (∀ b, is_Some (m1 !! b) ↔ is_Some (store w !! b)))
    as (h & hn & m1 & hd1 & Hh & Hhn & Hun & Hch1 & Hsome1).
  { unfold unlink. destruct l1 as [|[b tb] r].
    - destruct Hch as [Hh (n' & Hn' & _ & Hc)]. rewrite Hn in Hn'.
      injection Hn' as <-.
      exists a, n, (store w), (ToDoList.next n).
      assert (taskId n = i) as -> by (by rewrite <- Hti, <- Hnt).
      rewrite Z.eqb_refl. split_and!; done.
    - pose proof Hch as [Hh (nb & Hb & Htb & _)].
      assert (taskId nb ≠ i) as Hbi.
      { specialize (Hl1 (b, tb) (list_elem_of_here _ _)). by rewrite <- Htb in Hl1. }
      apply Z.eqb_neq in Hbi.
      rewrite Hh in Hch.
      destruct (find_before_chain (store w) i ((b, tb) :: r) a t l2
                  (fuel (store w)) b Hch) as (z & Hz & Hf);
        [done|done|done|unfold fuel; lia|].
      destruct (chain_last_next _ _ _ _ _ _ _ Hch Hz) as (cn & Hcn & Hnx).
      change (ToDoList.next cn = Some a) in Hnx.
      rewrite Hh in Hrem. rewrite Hz in Hrem.
      exists b, nb, (alter (set_next (ToDoList.next n)) z (store w)), (Some b).
      rewrite Hbi, Hf. simpl. rewrite Hcn. simpl. rewrite Hnx, Hn. simpl.
      rewrite Hh.
      refine (conj eq_refl (conj Hb (conj eq_refl (conj Hrem _)))).
      intros c. exact (is_Some_alter (store w) _ z c). }
  assert (deleteTask w i = Returns [MsgDeleted i]
            (World (delete a m1)
               (mkList hd1 (delete i (hashTable (this w)))
                  (taskCounter (this w)) (size (this w) - 1)))) as Hdel.
  { unfold deleteTask. cbv zeta. rewrite Hh in Hun |- *. rewrite Hmap. simpl.
    rewrite Hhn. simpl. rewrite Hun. simpl.
    rewrite int_sub_Some by (unfold INT_MIN, INT_MAX in *; lia). done. }
  eexists l1, a, t, l2, _. split_and!; [done|done|exact Hdel| |done..].
  rewrite fmap_app, fmap_cons in Hnd.
  apply NoDup_remove_middle in Hnd as [Hnd' Ha]. simpl in Ha.
  split; cbn [store this head hashTable taskCounter size].
  - eapply chain_frame; [done|]. intros b Hb.
    rewrite lookup_delete_ne; [done|]. intros <-. apply Ha. by rewrite <- fmap_app.
  - by rewrite fmap_app.
  - intros b Hb. destruct (decide (b = a)) as [->|Hba].
    { by rewrite lookup_delete_eq in Hb; destruct Hb. }
    rewrite lookup_delete_ne in Hb by done. apply Hsome1 in Hb.
    apply (inv_dom _ _ HI) in Hb. elems. tauto.
  - intros j b Hjb. destruct (decide (i = j)) as [<-|Hij].
    { by rewrite lookup_delete_eq in Hjb. }
    rewrite lookup_delete_ne in Hjb by done.
    destruct (inv_map _ _ HI _ _ Hjb) as (u & Hu & Huj).
    exists u. split; [|done]. elems.
    destruct Hu as [?|[Heq|?]]; [by left| |by right].
    injection Heq as -> ->. congruence.
  - intros b u Hin. apply (inv_ids _ _ HI b u). elems. tauto.
  - apply (inv_counter _ _ HI).
  - rewrite length_app. split; lia.
Qed.

(** A write to the data of a live node keeps the invariant. *)
Lemma tl_Inv_update w l a t n n' :
  Inv w l → (a, t) ∈ l → store w !! a = Some n →
  ToDoList.next n' = ToDoList.next n → taskId n' = taskId n →
  Inv (World (<[a := n']> (store w)) (this w)) (upd a (task_of n') <$> l).
Proof.
  intros HI Hin Hn Hnx Hid.
  assert (t = task_of n) as ->.
  { destruct (chain_cells _ _ _ _ _ (inv_chain _ _ HI) Hin) as (n0 & Hn0 & Ht).
    simpl in Ht. congruence. }
  split; cbn [store this head hashTable taskCounter size].
  - refine (chain_update (store w) _ l a n' (inv_chain _ _ HI) _).
    intros n0 Hn0. simpl. congruence.
  - rewrite upd_fst. apply (inv_nodup _ _ HI).
  - intros b Hb. rewrite upd_fst. destruct (decide (a = b)) as [<-|Hne].
    + by apply (list_elem_of_fmap_2 fst _ (a, task_of n)).
    + rewrite lookup_insert_ne in Hb by done. by apply (inv_dom _ _ HI).
  - intros i b Hib. destruct (inv_map _ _ HI _ _ Hib) as (u & Hu & Hiu).
    exists (upd a (task_of n') (b, u)).2. split.
    + assert (upd a (task_of n') (b, u) = (b, (upd a (task_of n') (b, u)).2)) as Heq.
      { unfold upd. simpl. by destruct (decide (b = a)) as [->|?]. }
      rewrite <- Heq. by apply list_elem_of_fmap_2.
    + unfold upd. simpl. destruct (decide (b = a)) as [->|?]; [|done]. simpl.
      rewrite Hid. rewrite <- Hiu.
      destruct (chain_cells _ _ _ _ _ (inv_chain _ _ HI) Hu) as (n0 & Hn0 & Ht).
      simpl in Ht. rewrite Hn in Hn0. injection Hn0 as <-. by rewrite <- Ht.
  - intros b u Hb. apply list_elem_of_fmap in Hb as ([b0 u0] & Heq & Hb0).
    unfold upd in Heq. simpl in Heq. destruct (decide (b0 = a)) as [->|?].
    + injection Heq as -> ->. simpl. rewrite Hid.
      apply (inv_ids _ _ HI a (task_of n) Hin).
    + injection Heq as -> ->. by apply (inv_ids _ _ HI b0 u0).
  - apply (inv_counter _ _ HI).
  - rewrite length_fmap. apply (inv_size _ _ HI).
Qed.

Lemma tl_searchTask_spec w l i a :
  Inv w l → hashTable (this w) !! i = Some a →
  ∃ t, (a, t) ∈ l ∧ task_id t = i ∧
       searchTask w i =
         Returns [MsgTaskDetails i (task_description t) (task_priority t)
                    (task_completed t)] w.
Proof.
  intros HI Hmap. destruct (inv_map _ _ HI _ _ Hmap) as (t & Hin & Hti).
  destruct (chain_cells _ _ _ _ _ (inv_chain _ _ HI) Hin) as (n & Hn & Hnt).
  exists t. split_and!; [done..|]. unfold searchTask. rewrite Hmap, Hn. simpl.
  by rewrite <- Hti, <- Hnt.
Qed.

Lemma tl_tasks_spec w l : Inv w l → tasks w = Some l.*2.
Proof.
  intros HI.
  destruct (walk_chain (store w) (head (this w)) l (fuel (store w))
              (inv_chain _ _ HI)) as (ns & Hw & Hns).
  { pose proof (tl_Inv_fuel _ _ HI). unfold fuel. lia. }
  unfold tasks, listAll. rewrite Hw. simpl. by rewrite <- Hns.
Qed.

Lemma tl_perform_inv w l o out w' :
  Inv w l → perform w o = Returns out w' → ∃ l', Inv w' l'.
Proof.
  intros HI Hp. destruct o as [desc p|i|i|i|i|]; simpl in Hp.
  - destruct (empty desc) eqn:Hd.
    + unfold addTask in Hp. rewrite Hd in Hp. injection Hp as <- <-. by eauto.
    + pose proof (tl_addTask_spec w l desc p HI Hd) as H. rewrite Hp in H.
      destruct H as (_ & a & _ & HI' & _). by eauto.
  - destruct (hashTable (this w) !! i) as [a|] eqn:Hm.
    + destruct (tl_deleteTask_spec w l i a HI Hm)
        as (l1 & b & t & l2 & w2 & _ & _ & Hd & HI' & _).
      rewrite Hd in Hp. injection Hp as <- <-. by eauto.
    + unfold deleteTask in Hp. cbv zeta in Hp. rewrite Hm in Hp.
      injection Hp as <- <-. by eauto.
  - unfold markComplete in Hp.
    destruct (hashTable (this w) !! i) as [a|] eqn:Hm;
      [|injection Hp as <- <-; by eauto].
    destruct (inv_map _ _ HI _ _ Hm) as (t & Hin & _).
    destruct (chain_cells _ _ _ _ _ (inv_chain _ _ HI) Hin) as (n & Hn & _).
    rewrite Hn in Hp. simpl in Hp.
    destruct (completed n); injection Hp as <- <-; [by eauto|].
    eexists. by eapply tl_Inv_update.
  - unfold markIncomplete in Hp.
    destruct (hashTable (this w) !! i) as [a|] eqn:Hm;
      [|injection Hp as <- <-; by eauto].
    destruct (inv_map _ _ HI _ _ Hm) as (t & Hin & _).
    destruct (chain_cells _ _ _ _ _ (inv_chain _ _ HI) Hin) as (n & Hn & _).
    rewrite Hn in Hp. simpl in Hp.
    destruct (negb (completed n)); injection Hp as <- <-; [by eauto|].
    eexists. by eapply tl_Inv_update.
  - destruct (hashTable (this w) !! i) as [a|] eqn:Hm.
    + destruct (tl_searchTask_spec w l i a HI Hm) as (t & _ & _ & He).
      rewrite He in Hp. injection Hp as <- <-. by eauto.
    + unfold searchTask in Hp. rewrite Hm in Hp. injection Hp as <- <-. by eauto.
  - unfold displayAll in Hp. destruct (head (this w)).
    + destruct (listAll w); simpl in Hp; [|done]. injection Hp as <- <-. by eauto.
    + injection Hp as <- <-. by eauto.
Qed.

Lemma tl_exec_cons w o rest out w' :
  exec w (o :: rest) = Some (out, w') ↔
  ∃ out1 w1 out2, perform w o = Returns out1 w1 ∧
                  exec w1 rest = Some (out2, w') ∧ out = out1 ++ out2.
Proof.
  simpl. destruct (perform w o) as [out1 w1|]; [|by split; [|intros (?&?&?&?&_)]].
  destruct (exec w1 rest) as [[out2 w2]|] eqn:E; simpl; split.
  - intros [= <- <-]. by eauto 10.
  - intros (oa & wa & ob & Hr & He & ->). injection Hr as <- <-.
    rewrite E in He. by injection He as <- <-.
  - done.
  - intros (oa & wa & ob & Hr & He & _). injection Hr as <- <-.
    by rewrite E in He.
Qed.

Lemma tl_exec_inv w l ops out w' :
  Inv w l → exec w ops = Some (out, w') → ∃ l', Inv w' l'.
Proof.
  revert w l out. induction ops as [|o rest IH]; intros w l out HI He.
  - injection He as <- <-. by eauto.
  - apply tl_exec_cons in He as (out1 & w1 & out2 & Hp & He & _).
    destruct (tl_perform_inv _ _ _ _ _ HI Hp) as (l1 & HI1). by eapply IH.
Qed.

Lemma tl_reachable_Inv w : reachable w → ∃ l, Inv w l.
Proof. intros (ops & out & He). eapply tl_exec_inv; [apply tl_Inv_initial|done]. Qed.

Lemma tl_stored_priority_out p : p < 1 ∨ 5 < p → stored_priority p = 1.
Proof.
  intros Hp. unfold stored_priority.
  destruct (p <? 1) eqn:E1; [done|]. destruct (p >? 5) eqn:E2; [done|].
  apply Z.ltb_ge in E1. rewrite Z.gtb_ltb in E2. apply Z.ltb_ge in E2. lia.
Qed.

Lemma tl_stored_priority_in p : 1 ≤ p ≤ 5 → stored_priority p = p.
Proof.
  intros Hp. unfold stored_priority.
  destruct (p <? 1) eqn:E1; [apply Z.ltb_lt in E1; lia|].
  destruct (p >? 5) eqn:E2; [|done].
  rewrite Z.gtb_ltb in E2. apply Z.ltb_lt in E2. lia.
Qed.

Lemma tl_addTask_returns w l desc p out w' :
  Inv w l → empty desc = false → addTask w desc p = Returns out w' →
  out = (if (p <? 1) || (p >? 5) then [MsgPriorityReset] else [])
        ++ [MsgAdded (taskCounter (this w))] ∧
  ∃ a, Inv w' (l ++ [(a, Task (taskCounter (this w)) desc (stored_priority p) false)]) ∧
       hashTable (this w') = <[taskCounter (this w) := a]> (hashTable (this w)) ∧
       taskCounter (this w') = taskCounter (this w) + 1 ∧
       size (this w') = size (this w) + 1 ∧
       searchTask w' (taskCounter (this w)) =
         Returns [MsgTaskDetails (taskCounter (this w)) desc
                    (stored_priority p) false] w'.
Proof.
  intros HI Hd Ha. pose proof (tl_addTask_spec w l desc p HI Hd) as H.
  rewrite Ha in H. destruct H as (-> & a & Hnone & HI' & Hmap & Hn & Ht).
  split; [done|]. exists a. split_and!; [done..|].
  assert (hashTable (this w') !! taskCounter (this w) = Some a) as Hlk.
  { rewrite Hmap. apply lookup_insert_eq. }
  destruct (tl_searchTask_spec _ _ _ _ HI' Hlk) as (t & Hin & Hti & Hs).
  rewrite Hs.
  assert (t = Task (taskCounter (this w)) desc (stored_priority p) false) as ->.
  { eapply NoDup_fst_unique; [apply (inv_nodup _ _ HI')|done|].
    apply elem_of_app. right. apply list_elem_of_here. }
  done.
Qed.

Lemma tl_addTask_succeeds w l desc p :
  Inv w l → empty desc = false →
  taskCounter (this w) < INT_MAX → size (this w) < INT_MAX →
  ∃ out w', addTask w desc p = Returns out w'.
Proof.
  intros HI Hd Hn Ht. pose proof (tl_addTask_spec w l desc p HI Hd) as H.
  destruct (addTask w desc p) as [out w'|]; [by eauto|lia].
Qed.

(** The part of C8 for the class [ToDoList].  The class rejects an empty
    description as [projecttt.cpp] does: the
    complaint is written exactly for an empty description and the call then
    changes nothing. *)
Lemma ToDoList_addTask_rejects_iff_empty (w : world) (desc : string) (p : Z) :
  ((∃ out w', addTask w desc p = Returns out w' ∧ MsgDescEmpty ∈ out)
   ↔ empty desc = true) ∧
  (empty desc = true → addTask w desc p = Returns [MsgDescEmpty] w) ∧
  (∀ out w', addTask w desc p = Returns out w' → MsgDescEmpty ∈ out → w' = w).
Proof.
  assert (empty desc = true → addTask w desc p = Returns [MsgDescEmpty] w) as Hemp.
  { intros Hd. unfold addTask. by rewrite Hd. }
  assert (∀ out w', addTask w desc p = Returns out w' → MsgDescEmpty ∈ out →
                    empty desc = true) as Hne.
  { intros out w' Ha Hin. destruct (empty desc) eqn:Hd; [done|].
    unfold addTask, Linked.new in Ha. rewrite Hd in Ha. cbv zeta in Ha.
    destruct ((p <? 1) || (p >? 5));
      destruct (link_last _ _ _) as [[m' hd']|]; simpl in Ha; try done;
      destruct (int_add (taskCounter (this w)) 1); simpl in Ha; try done;
      destruct (int_add (size (this w)) 1); simpl in Ha; try done;
      injection Ha as <- <-;
      repeat (apply elem_of_cons in Hin as [Hin|Hin]; [discriminate|]);
      by apply elem_of_nil in Hin. }
  split_and!.
  - split.
    + intros (out & w' & Ha & Hin). by eapply Hne.
    + intros Hd. exists [MsgDescEmpty], w. split; [by apply Hemp|].
      apply list_elem_of_here.
  - done.
  - intros out w' Ha Hin. pose proof (Hne _ _ Ha Hin) as Hd.
    rewrite Hemp in Ha by done. by injection Ha as <- <-.
Qed.

(** The part of C7 for the class [ToDoList].  The class stores priority 1
    for a priority outside 1..5, after the
    warning "Priority must be between 1 and 5. Setting to 1.". *)
Lemma ToDoList_addTask_out_of_range_priority (w : world) (desc : string) (p : Z) :
  reachable w → empty desc = false → p < 1 ∨ 5 < p →
  taskCounter (this w) < INT_MAX → size (this w) < INT_MAX →
  ∃ w' ts,
    addTask w desc p
      = Returns [MsgPriorityReset; MsgAdded (taskCounter (this w))] w' ∧
    tasks w = Some ts ∧
    tasks w' = Some (ts ++ [Task (taskCounter (this w)) desc 1 false]) ∧
    searchTask w' (taskCounter (this w)) =
      Returns [MsgTaskDetails (taskCounter (this w)) desc 1 false] w'.
Proof.
  intros Hr Hd Hp Hn Ht. destruct (tl_reachable_Inv w Hr) as (l & HI).
  destruct (tl_addTask_succeeds w l desc p HI Hd Hn Ht) as (out & w' & Ha).
  destruct (tl_addTask_returns _ _ _ _ _ _ HI Hd Ha)
    as (-> & a & HI' & _ & _ & _ & Hs).
  rewrite (tl_stored_priority_out p Hp) in HI', Hs.
  assert ((p <? 1) || (p >? 5) = true) as Hb.
  { apply orb_true_iff. destruct Hp; [left; by apply Z.ltb_lt|right].
    rewrite Z.gtb_ltb. by apply Z.ltb_lt. }
  rewrite Hb in Ha. exists w', l.*2. split_and!; [done| | |done].
  - by eapply tl_tasks_spec.
  - rewrite (tl_tasks_spec _ _ HI'). by rewrite fmap_app.
Qed.

Lemma tl_searchTask_stable_add w l desc p out w' i d' p' c' :
  Inv w l → empty desc = false → addTask w desc p = Returns out w' →
  i < taskCounter (this w) →
  searchTask w i = Returns [MsgTaskDetails i d' p' c'] w →
  searchTask w' i = Returns [MsgTaskDetails i d' p' c'] w'.
Proof.
  intros HI Hd Ha Hi Hs.
  assert (∃ b, hashTable (this w) !! i = Some b) as (b & Hb).
  { unfold searchTask in Hs. destruct (hashTable (this w) !! i); [by eauto|done]. }
  destruct (tl_searchTask_spec _ _ _ _ HI Hb) as (t & Hin & Hti & Hs2).
  rewrite Hs in Hs2. injection Hs2 as -> -> ->.
  destruct (tl_addTask_returns _ _ _ _ _ _ HI Hd Ha) as (_ & a & HI' & Hmap & _).
  assert (hashTable (this w') !! i = Some b) as Hb'.
  { rewrite Hmap. rewrite lookup_insert_ne by lia. done. }
  destruct (tl_searchTask_spec _ _ _ _ HI' Hb') as (t' & Hin' & Hti' & Hs').
  assert (t' = t) as ->; [|done].
  eapply NoDup_fst_unique; [apply (inv_nodup _ _ HI')|done|].
  apply elem_of_app. by left.
Qed.

Lemma tl_exec_adds w l (adds : list (string * Z)) out w' :
  Inv w l → Forall (λ x, empty x.1 = false) adds →
  exec w (add_op <$> adds) = Some (out, w') →
  issued out = imap (λ k _, taskCounter (this w) + Z.of_nat k) adds ∧
  taskCounter (this w') = taskCounter (this w) + Z.of_nat (length adds) ∧
  (∀ i d' p' c', i < taskCounter (this w) →
     searchTask w i = Returns [MsgTaskDetails i d' p' c'] w →
     searchTask w' i = Returns [MsgTaskDetails i d' p' c'] w') ∧
  (∀ k d p, adds !! k = Some (d, p) →
     searchTask w' (taskCounter (this w) + Z.of_nat k) =
       Returns [MsgTaskDetails (taskCounter (this w) + Z.of_nat k) d
                  (stored_priority p) false] w').
Proof.
  revert w l out. induction adds as [|[d p] rest IH]; intros w l out HI Hne He.
  - injection He as <- <-. split_and!; [done|simpl; lia|done|].
    intros k d p Hk. by rewrite lookup_nil in Hk.
  - rewrite fmap_cons in He.
    apply tl_exec_cons in He as (out1 & w1 & out2 & Hp & He & ->).
    apply Forall_cons in Hne as [Hd Hne]. simpl in Hp, Hd.
    destruct (tl_addTask_returns _ _ _ _ _ _ HI Hd Hp)
      as (-> & a & HI1 & _ & Hn1 & _ & Hs1).
    destruct (IH _ _ _ HI1 Hne He) as (Hiss & Hn' & Hstable & Hnew).
    split_and!.
    + assert (issued ((if (p <? 1) || (p >? 5) then [MsgPriorityReset] else [])
                      ++ [MsgAdded (taskCounter (this w))])
              = [taskCounter (this w)]) as Hone.
      { by destruct ((p <? 1) || (p >? 5)). }
      unfold issued in Hone |- *. rewrite omap_app, Hone. fold (issued out2).
      rewrite Hiss. simpl imap.
      change (Z.of_nat 0) with 0. rewrite Z.add_0_r.
      simpl. f_equal. apply imap_ext. intros k x _. simpl. rewrite Hn1. lia.
    + rewrite Hn', Hn1. simpl length. lia.
    + intros i d' p' c' Hi Hs. apply Hstable; [lia|].
      exact (tl_searchTask_stable_add _ _ _ _ _ _ _ _ _ _ HI Hd Hp Hi Hs).
    + intros [|k] d' p' Hk; simpl in Hk.
      * injection Hk as <- <-. rewrite Z.add_0_r. apply Hstable; [lia|done].
      * specialize (Hnew k d' p' Hk). rewrite Hn1 in Hnew.
        by replace (taskCounter (this w) + Z.of_nat (S k))
          with (taskCounter (this w) + 1 + Z.of_nat k) by lia.
Qed.

(** The part of C4 for the class [ToDoList].  The class adds as
    [projecttt.cpp] does. *)
Lemma ToDoList_addTask_correct (w : world) :
  reachable w →
  (∀ desc p, empty desc = false →
     taskCounter (this w) < INT_MAX → size (this w) < INT_MAX →
     ∃ out w', addTask w desc p = Returns out w') ∧
  (∀ desc p out w', empty desc = false → addTask w desc p = Returns out w' →
     let i := taskCounter (this w) in
     issued out = [i] ∧
     (∃ ts, tasks w = Some ts ∧
            tasks w' = Some (ts ++ [Task i desc (stored_priority p) false])) ∧
     (∃ a, hashTable (this w') = <[i := a]> (hashTable (this w))) ∧
     taskCounter (this w') = i + 1 ∧
     size (this w') = size (this w) + 1 ∧
     searchTask w' i =
       Returns [MsgTaskDetails i desc (stored_priority p) false] w' ∧
     (1 ≤ p ≤ 5 → stored_priority p = p)) ∧
  (∀ (adds : list (string * Z)) out w',
     Forall (λ x, empty x.1 = false) adds →
     exec w (add_op <$> adds) = Some (out, w') →
     issued out = imap (λ k _, taskCounter (this w) + Z.of_nat k) adds ∧
     (∀ k d p, adds !! k = Some (d, p) →
        searchTask w' (taskCounter (this w) + Z.of_nat k) =
          Returns [MsgTaskDetails (taskCounter (this w) + Z.of_nat k) d
                     (stored_priority p) false] w')).
Proof.
  intros Hr. destruct (tl_reachable_Inv w Hr) as (l & HI). split_and!.
  - intros desc p Hd Hn Ht. by eapply tl_addTask_succeeds.
  - intros desc p out w' Hd Ha. cbv zeta.
    destruct (tl_addTask_returns _ _ _ _ _ _ HI Hd Ha)
      as (-> & a & HI' & Hmap & Hn & Ht & Hs).
    split_and!; [|  | |done..|apply tl_stored_priority_in].
    + unfold issued. by destruct ((p <? 1) || (p >? 5)).
    + exists l.*2. split; [by eapply tl_tasks_spec|].
      rewrite (tl_tasks_spec _ _ HI'). by rewrite fmap_app.
    + by exists a.
  - intros adds out w' Hne He.
    destruct (tl_exec_adds _ _ _ _ _ HI Hne He) as (Hiss & _ & _ & Hnew).
    by split.
Qed.

End ToDoListSpec.

(** ** [addTask] in the two programs *)

Module AddTaskSpec.
Import Cxx Linked CxxFacts LinkedFacts.

(** C8. In both programs [addTask] writes its complaint about the
    description ("Description cannot be empty!" in [projecttt.cpp], "Task
    description cannot be empty!" in the class [ToDoList]) exactly when the
    description is empty, and the call then leaves the whole world as it
    was: the list, the table, the counter of identifiers and the number of
    tasks. *)
Theorem addTask_rejects_iff_empty_in_both_programs
    (w : Projecttt.world) (v : ToDoList.world) (desc : string) (p : Z) :
  (((∃ out w', Projecttt.addTask w desc p = Projecttt.Returns out w' ∧
               Projecttt.MsgDescEmpty ∈ out)
    ↔ empty desc = true) ∧
   (empty desc = true →
    Projecttt.addTask w desc p = Projecttt.Returns [Projecttt.MsgDescEmpty] w) ∧
   (∀ out w', Projecttt.addTask w desc p = Projecttt.Returns out w' →
              Projecttt.MsgDescEmpty ∈ out →
              w' = w ∧ Projecttt.tasks w' = Projecttt.tasks w ∧
              Projecttt.taskMap (Projecttt.data w')
              = Projecttt.taskMap (Projecttt.data w) ∧
              Projecttt.nextId (Projecttt.data w')
              = Projecttt.nextId (Projecttt.data w) ∧
              Projecttt.totalTasks (Projecttt.data w')
              = Projecttt.totalTasks (Projecttt.data w)))
  ∧
  (((∃ out v', ToDoList.addTask v desc p = ToDoList.Returns out v' ∧
               ToDoList.MsgDescEmpty ∈ out)
    ↔ empty desc = true) ∧
   (empty desc = true →
    ToDoList.addTask v desc p = ToDoList.Returns [ToDoList.MsgDescEmpty] v) ∧
   (∀ out v', ToDoList.addTask v desc p = ToDoList.Returns out v' →
              ToDoList.MsgDescEmpty ∈ out →
              v' = v ∧ ToDoList.tasks v' = ToDoList.tasks v ∧
              ToDoList.hashTable (ToDoList.this v')
              = ToDoList.hashTable (ToDoList.this v) ∧
              ToDoList.taskCounter (ToDoList.this v')
              = ToDoList.taskCounter (ToDoList.this v) ∧
              ToDoList.size (ToDoList.this v')
              = ToDoList.size (ToDoList.this v))).
Proof.
  split.
  - exact (ProjectttSpec.addTask_rejects_iff_empty w desc p).
  - destruct (ToDoListSpec.ToDoList_addTask_rejects_iff_empty v desc p)
      as (Hiff & Hemp & Hsame).
    split_and!; [done..|].
    intros out v' Ha Hin. by rewrite (Hsame out v' Ha Hin).
Qed.

Lemma addTask_rejects_iff_empty_in_both_programs_witness :
  Projecttt.addTask Projecttt.sample_world "" 3
  = Projecttt.Returns [Projecttt.MsgDescEmpty] Projecttt.sample_world ∧
  ToDoList.addTask ToDoListReports.sample_world "" 3
  = ToDoList.Returns [ToDoList.MsgDescEmpty] ToDoListReports.sample_world.
Proof.
  destruct (addTask_rejects_iff_empty_in_both_programs
              Projecttt.sample_world ToDoListReports.sample_world "" 3)
    as ((_ & Hp & _) & (_ & Ht & _)).
  split; [by apply Hp|by apply Ht].
Defined.

(** C7. In both programs, in a reachable world whose counters are below
    [INT_MAX], [addTask] with a description that is not empty and a priority
    outside 1..5 (for instance 0 or 9) returns, and the task it creates has
    priority 1: it is the last of the list and [searchTask] shows it with
    priority 1.  The class [ToDoList] writes the warning "Priority must be
    between 1 and 5. Setting to 1." before it announces the identifier;
    [projecttt.cpp] writes no warning. *)
Theorem addTask_out_of_range_priority_in_both_programs
    (w : Projecttt.world) (v : ToDoList.world) (desc : string) (p : Z) :
  Projecttt.reachable w → ToDoList.reachable v →
  empty desc = false → p < 1 ∨ 5 < p →
  Projecttt.nextId (Projecttt.data w) < INT_MAX →
  Projecttt.totalTasks (Projecttt.data w) < INT_MAX →
  ToDoList.taskCounter (ToDoList.this v) < INT_MAX →
  ToDoList.size (ToDoList.this v) < INT_MAX →
  (∃ w' ts,
     Projecttt.addTask w desc p
     = Projecttt.Returns
         [Projecttt.MsgAdded (Projecttt.nextId (Projecttt.data w))] w' ∧
     Projecttt.tasks w = Some ts ∧
     Projecttt.tasks w'
     = Some (ts ++ [Task (Projecttt.nextId (Projecttt.data w)) desc 1 false]) ∧
     Projecttt.searchTask w' (Projecttt.nextId (Projecttt.data w)) =
       Projecttt.Returns
         [Projecttt.MsgTaskFound (Projecttt.nextId (Projecttt.data w))
            desc 1 false] w')
  ∧
  (∃ v' ts,
     ToDoList.addTask v desc p
     = ToDoList.Returns
         [ToDoList.MsgPriorityReset;
          ToDoList.MsgAdded (ToDoList.taskCounter (ToDoList.this v))] v' ∧
     ToDoList.tasks v = Some ts ∧
     ToDoList.tasks v'
     = Some (ts ++ [Task (ToDoList.taskCounter (ToDoList.this v)) desc 1 false]) ∧
     ToDoList.searchTask v' (ToDoList.taskCounter (ToDoList.this v)) =
       ToDoList.Returns
         [ToDoList.MsgTaskDetails (ToDoList.taskCounter (ToDoList.this v))
            desc 1 false] v').
Proof.
  intros Hw Hv Hd Hp Hn Ht Hc Hs. split.
  - by apply ProjectttSpec.addTask_out_of_range_priority.
  - by apply ToDoListSpec.ToDoList_addTask_out_of_range_priority.
Qed.

Lemma addTask_out_of_range_priority_in_both_programs_witness :
  (∃ w', Projecttt.addTask Projecttt.sample_world "water plants" 9
         = Projecttt.Returns [Projecttt.MsgAdded 3] w' ∧
         Projecttt.searchTask w' 3
         = Projecttt.Returns [Projecttt.MsgTaskFound 3 "water plants" 1 false] w')
  ∧
  (∃ v', ToDoList.addTask ToDoListReports.sample_world "water plants" 0
         = ToDoList.Returns [ToDoList.MsgPriorityReset; ToDoList.MsgAdded 4] v' ∧
         ToDoList.searchTask v' 4
         = ToDoList.Returns [ToDoList.MsgTaskDetails 4 "water plants" 1 false] v').
Proof.
  assert (Projecttt.reachable Projecttt.sample_world) as Hw.
  { exists Projecttt.sample_ops,
      [Projecttt.MsgAdded 1; Projecttt.MsgAdded 2; Projecttt.MsgMarked 1 true;
       Projecttt.MsgDeleted; Projecttt.MsgRestored 2].
    vm_compute. reflexivity. }
  assert (ToDoList.reachable ToDoListReports.sample_world) as Hv.
  { exists ToDoListReports.sample_ops, ToDoListReports.sample_out.
    vm_compute. reflexivity. }
  split.
  - destruct (addTask_out_of_range_priority_in_both_programs
                Projecttt.sample_world ToDoListReports.sample_world
                "water plants" 9 Hw Hv)
      as ((w' & ts & Ha & _ & _ & Hs) & _);
      [reflexivity|right; reflexivity|reflexivity..|].
    exists w'. split; [exact Ha|exact Hs].
  - destruct (addTask_out_of_range_priority_in_both_programs
                Projecttt.sample_world ToDoListReports.sample_world
                "water plants" 0 Hw Hv)
      as (_ & (v' & ts & Ha & _ & _ & Hs));
      [reflexivity|left; reflexivity|reflexivity..|].
    exists v'. split; [exact Ha|exact Hs].
Defined.

(** C4. In both programs, in a reachable world, a call of [addTask] with
    a description that is not empty returns whenever the counters are below
    [INT_MAX]; a call that returns has given the task the next identifier
    ([nextId] in [projecttt.cpp], [taskCounter] in the class [ToDoList]),
    appended it to the end of the list, entered it in the table, incremented
    the counter of identifiers and the number of tasks, and announced the
    identifier (the class after its warning when the priority is outside
    1..5); over a run of such calls the identifiers announced increase by
    one each time, and [searchTask] shows each added task with its
    description, the priority stored for it (the one given when it is in
    1..5) and not completed. *)
Theorem addTask_correct_in_both_programs
    (w : Projecttt.world) (v : ToDoList.world) :
  Projecttt.reachable w → ToDoList.reachable v →
  ((∀ desc p, empty desc = false →
      Projecttt.nextId (Projecttt.data w) < INT_MAX →
      Projecttt.totalTasks (Projecttt.data w) < INT_MAX →
      ∃ out w', Projecttt.addTask w desc p = Projecttt.Returns out w') ∧
   (∀ desc p out w', empty desc = false →
      Projecttt.addTask w desc p = Projecttt.Returns out w' →
      let i := Projecttt.nextId (Projecttt.data w) in
      out = [Projecttt.MsgAdded i] ∧
      (∃ ts, Projecttt.tasks w = Some ts ∧
             Projecttt.tasks w'
             = Some (ts ++ [Task i desc (Projecttt.stored_priority p) false])) ∧
      (∃ a n, Projecttt.taskMap (Projecttt.data w')
              = <[i := a]> (Projecttt.taskMap (Projecttt.data w)) ∧
              Projecttt.store w' !! a = Some n ∧
              Projecttt.task_of n
              = Task i desc (Projecttt.stored_priority p) false) ∧
      Projecttt.nextId (Projecttt.data w') = i + 1 ∧
      Projecttt.totalTasks (Projecttt.data w')
      = Projecttt.totalTasks (Projecttt.data w) + 1 ∧
      Projecttt.searchTask w' i =
        Projecttt.Returns
          [Projecttt.MsgTaskFound i desc (Projecttt.stored_priority p) false] w' ∧
      (1 ≤ p ≤ 5 → Projecttt.stored_priority p = p)) ∧
   (∀ (adds : list (string * Z)) out w',
      Forall (λ x, empty x.1 = false) adds →
      Projecttt.exec w (Projecttt.add_op <$> adds) = Some (out, w') →
      out = imap (λ k _, Projecttt.MsgAdded
                           (Projecttt.nextId (Projecttt.data w) + Z.of_nat k))
              adds ∧
      (∀ j k i1 i2, (j < k)%nat → Projecttt.issued out !! j = Some i1 →
                    Projecttt.issued out !! k = Some i2 → i1 < i2) ∧
      (∀ k d p, adds !! k = Some (d, p) →
         Projecttt.searchTask w'
           (Projecttt.nextId (Projecttt.data w) + Z.of_nat k) =
           Projecttt.Returns
             [Projecttt.MsgTaskFound
                (Projecttt.nextId (Projecttt.data w) + Z.of_nat k) d
                (Projecttt.stored_priority p) false] w')))
  ∧
  ((∀ desc p, empty desc = false →
      ToDoList.taskCounter (ToDoList.this v) < INT_MAX →
      ToDoList.size (ToDoList.this v) < INT_MAX →
      ∃ out v', ToDoList.addTask v desc p = ToDoList.Returns out v') ∧
   (∀ desc p out v', empty desc = false →
      ToDoList.addTask v desc p = ToDoList.Returns out v' →
      let i := ToDoList.taskCounter (ToDoList.this v) in
      out = (if (p <? 1) || (p >? 5) then [ToDoList.MsgPriorityReset] else [])
            ++ [ToDoList.MsgAdded i] ∧
      (∃ ts, ToDoList.tasks v = Some ts ∧
             ToDoList.tasks v'
             = Some (ts ++ [Task i desc (ToDoList.stored_priority p) false])) ∧
      (∃ a n, ToDoList.hashTable (ToDoList.this v')
              = <[i := a]> (ToDoList.hashTable (ToDoList.this v)) ∧
              ToDoList.store v' !! a = Some n ∧
              ToDoList.task_of n
              = Task i desc (ToDoList.stored_priority p) false) ∧
      ToDoList.taskCounter (ToDoList.this v') = i + 1 ∧
      ToDoList.size (ToDoList.this v') = ToDoList.size (ToDoList.this v) + 1 ∧
      ToDoList.searchTask v' i =
        ToDoList.Returns
          [ToDoList.MsgTaskDetails i desc (ToDoList.stored_priority p) false] v' ∧
      (1 ≤ p ≤ 5 → ToDoList.stored_priority p = p)) ∧
   (∀ (adds : list (string * Z)) out v',
      Forall (λ x, empty x.1 = false) adds →
      ToDoList.exec v (ToDoList.add_op <$> adds) = Some (out, v') →
      ToDoList.issued out
      = imap (λ k _, ToDoList.taskCounter (ToDoList.this v) + Z.of_nat k) adds ∧
      (∀ j k i1 i2, (j < k)%nat → ToDoList.issued out !! j = Some i1 →
                    ToDoList.issued out !! k = Some i2 → i1 < i2) ∧
      (∀ k d p, adds !! k = Some (d, p) →
         ToDoList.searchTask v'
           (ToDoList.taskCounter (ToDoList.this v) + Z.of_nat k) =
           ToDoList.Returns
             [ToDoList.MsgTaskDetails
                (ToDoList.taskCounter (ToDoList.this v) + Z.of_nat k) d
                (ToDoList.stored_priority p) false] v'))).
Proof.
  intros Hw Hv. split; [exact (ProjectttSpec.addTask_correct w Hw)|].
  destruct (ToDoListSpec.tl_reachable_Inv v Hv) as (l & HI). split_and!.
  - intros desc p Hd Hc Hs. by eapply ToDoListSpec.tl_addTask_succeeds.
  - intros desc p out v' Hd Ha. cbv zeta.
    destruct (ToDoListSpec.tl_addTask_returns v l desc p out v' HI Hd Ha)
      as (-> & a & HI' & Hmap & Hc & Hs & Hsearch).
    split_and!; [done| | |done..|apply ToDoListSpec.tl_stored_priority_in].
    + exists l.*2. split; [by apply ToDoListSpec.tl_tasks_spec|].
      rewrite (ToDoListSpec.tl_tasks_spec _ _ HI'). by rewrite fmap_app.
    + destruct (chain_cells _ _ _ a
                  (Task (ToDoList.taskCounter (ToDoList.this v)) desc
                     (ToDoList.stored_priority p) false)
                  (ToDoList.inv_chain _ _ HI')) as (n & Hn & Hnt).
      { apply elem_of_app. right. apply list_elem_of_here. }
      by exists a, n.
  - intros adds out v' Hne He.
    destruct (ToDoListSpec.tl_exec_adds v l adds out v' HI Hne He)
      as (Hiss & _ & _ & Hnew).
    split_and!; [done| |done].
    intros j k i1 i2 Hjk. rewrite Hiss, !list_lookup_imap.
    destruct (adds !! j); simpl; [|done]. destruct (adds !! k); simpl; [|done].
    intros [= <-] [= <-]. lia.
Qed.

Lemma addTask_correct_in_both_programs_witness :
  (∃ out w', Projecttt.addTask Projecttt.sample_world "write report" 3
             = Projecttt.Returns out w' ∧ out = [Projecttt.MsgAdded 3]) ∧
  (∃ out v', ToDoList.addTask ToDoListReports.sample_world "write report" 3
             = ToDoList.Returns out v' ∧ out = [ToDoList.MsgAdded 4]).
Proof.
  destruct (addTask_correct_in_both_programs
              Projecttt.sample_world ToDoListReports.sample_world)
    as ((Hpr & Hpd & _) & (Htr & Htd & _)).
  { exists Projecttt.sample_ops,
      [Projecttt.MsgAdded 1; Projecttt.MsgAdded 2; Projecttt.MsgMarked 1 true;
       Projecttt.MsgDeleted; Projecttt.MsgRestored 2].
    vm_compute. reflexivity. }
  { exists ToDoListReports.sample_ops, ToDoListReports.sample_out.
    vm_compute. reflexivity. }
  split.
  - destruct (Hpr "write report" 3) as (out & w' & Ha); [reflexivity..|].
    destruct (Hpd "write report" 3 out w' eq_refl Ha) as (Hout & _).
    exists out, w'. split; [exact Ha|exact Hout].
  - destruct (Htr "write report" 3) as (out & v' & Ha); [reflexivity..|].
    destruct (Htd "write report" 3 out v' eq_refl Ha) as (Hout & _).
    exists out, v'. split; [exact Ha|exact Hout].
Defined.

End AddTaskSpec.

(** ** Facts about the release of nodes *)

Module ReleaseFacts.
Import Linked Release LinkedFacts.

Section Freed.
Context {N : Type} {LN : Linkable N}.
Implicit Types (m : gmap loc N) (p : ptr) (l : list (loc * task)).

(** The loop over a chain releases the nodes of the chain and no other. *)
Lemma free_chain_chain m p l k :
  chain m p l → NoDup l.*1 → (length l ≤ k)%nat →
  ∃ m', free_chain k m p = Some m' ∧
        ∀ a, m' !! a = if decide (a ∈ l.*1) then None else m !! a.
Proof.
  revert m p k. induction l as [|[a t] r IH]; intros m p k Hc Hnd Hk.
  - simpl in Hc. subst p. exists m. split; [by destruct k|].
    intros a. rewrite decide_False; [done|]. apply not_elem_of_nil.
  - destruct Hc as [-> (n & Hn & Ht & Hc)]. simpl in Hk.
    destruct k as [|k]; [lia|].
    rewrite fmap_cons in Hnd. apply NoDup_cons in Hnd as [Har Hnd].
    destruct (IH (delete a m) (next n) k) as (m' & Hf & Hm'); [|done|lia|].
    { eapply chain_frame; [done|]. intros b Hb.
      apply lookup_delete_ne. intros ->. done. }
    exists m'. split.
    + simpl. rewrite Hn. simpl. done.
    + intros b. rewrite Hm'. rewrite fmap_cons. simpl.
      destruct (decide (b = a)) as [->|Hne].
      * rewrite (decide_True (P := a ∈ a :: r.*1)) by apply list_elem_of_here.
        destruct (decide (a ∈ r.*1)); [done|]. apply lookup_delete_eq.
      * rewrite lookup_delete_ne by done.
        destruct (decide (b ∈ r.*1)) as [Hin|Hnin].
        -- rewrite decide_True; [done|]. by apply list_elem_of_further.
        -- rewrite decide_False; [done|]. intros [?|?]%elem_of_cons; done.
Qed.

(** The loop over the stack releases the nodes of the stack and no other. *)
Lemma free_stack_spec m (s : list loc) :
  NoDup s → (∀ a, a ∈ s → is_Some (m !! a)) →
  ∃ m', free_stack m s = Some m' ∧
        ∀ a, m' !! a = if decide (a ∈ s) then None else m !! a.
Proof.
  revert m. induction s as [|a r IH]; intros m Hnd Hal.
  - exists m. split; [done|]. intros a. rewrite decide_False; [done|].
    apply not_elem_of_nil.
  - apply NoDup_cons in Hnd as [Har Hnd].
    destruct (Hal a (list_elem_of_here _ _)) as [n Hn].
    destruct (IH (delete a m) Hnd) as (m' & Hf & Hm').
    { intros b Hb. rewrite lookup_delete_ne by (intros ->; done).
      apply Hal. by apply list_elem_of_further. }
    exists m'. split.
    + simpl. rewrite Hn. simpl. done.
    + intros b. rewrite Hm'.
      destruct (decide (b = a)) as [->|Hne].
      * rewrite (decide_True (P := a ∈ a :: r)) by apply list_elem_of_here.
        destruct (decide (a ∈ r)); [done|]. apply lookup_delete_eq.
      * rewrite lookup_delete_ne by done.
        destruct (decide (b ∈ r)) as [Hin|Hnin].
        -- rewrite decide_True; [done|]. by apply list_elem_of_further.
        -- rewrite decide_False; [done|]. intros [?|?]%elem_of_cons; done.
Qed.

(** Distinct addresses that cover the store are as many as its nodes. *)
Lemma size_covered (m : gmap loc N) (s : list loc) :
  NoDup s → (∀ a, a ∈ s → is_Some (m !! a)) →
  (∀ a, is_Some (m !! a) → a ∈ s) →
  size m = length s.
Proof.
  intros Hnd Hin Hcov. rewrite <- (size_dom (D:=gset loc)).
  rewrite <- (size_list_to_set (C:=gset loc) s Hnd). f_equal.
  apply set_eq. intros a. rewrite elem_of_dom, elem_of_list_to_set. split; auto.
Qed.

End Freed.

(** A write to one node of a list without repeated addresses. *)
Lemma upd_split (l : list (loc * task)) a t :
  NoDup l.*1 → (a, t) ∈ l →
  ∃ l1 l2, l = l1 ++ (a, t) :: l2 ∧
           ∀ t', upd a t' <$> l = l1 ++ (a, t') :: l2.
Proof.
  intros Hnd Hin. apply list_elem_of_split in Hin as (l1 & l2 & ->).
  exists l1, l2. split; [done|]. intros t'.
  rewrite fmap_app in Hnd. apply NoDup_app in Hnd as (_ & Hd & H2).
  rewrite fmap_cons in H2, Hd. apply NoDup_cons in H2 as [Ha2 _]. simpl in *.
  assert (∀ r : list (loc * task), a ∉ r.*1 → upd a t' <$> r = r) as Hid.
  { induction r as [|[b u] r IH]; intros Hr; [done|].
    rewrite fmap_cons in Hr. apply not_elem_of_cons in Hr as [Hne Hr].
    rewrite fmap_cons, IH by done. f_equal. unfold upd. simpl.
    simpl in Hne. rewrite decide_False; [done|]. congruence. }
  rewrite fmap_app, fmap_cons, !Hid; [| done |].
  - f_equal. unfold upd. simpl. by rewrite decide_True.
  - intros Hin. apply (Hd a Hin). apply list_elem_of_here.
Qed.

End ReleaseFacts.

(** ** projecttt.cpp: further properties of the calls *)

Module ProjectttLaws.
Import Cxx Linked Projecttt Release ProjectttExit.
Import CxxFacts LinkedFacts ProjectttSpec ReleaseFacts.

(** *** Helper facts *)

(** The node the table points to for [i] is a node of the list, and the
    tasks of the list split around it. *)
Lemma table_entry_split w l sl i a :
  Inv w l sl → taskMap (data w) !! i = Some a →
  ∃ n l1 l2,
    store w !! a = Some n ∧ id n = i ∧
    l = l1 ++ (a, task_of n) :: l2 ∧
    (∀ t', upd a t' <$> l = l1 ++ (a, t') :: l2).
Proof.
  intros HI Hm. destruct (inv_map _ _ _ HI i a Hm) as (t & Hin & Hid).
  destruct (chain_cells _ _ _ _ _ (inv_chain _ _ _ HI) Hin) as (n & Hn & Ht).
  destruct (upd_split l a t (Inv_nodup_live _ _ _ HI) Hin) as (l1 & l2 & Hl & Hu).
  exists n, l1, l2. subst t. split_and!; done.
Qed.

Lemma tasks_split w l1 a t l2 sl :
  Inv w (l1 ++ (a, t) :: l2) sl → tasks w = Some (l1.*2 ++ t :: l2.*2).
Proof. intros HI. rewrite (tasks_spec _ _ _ HI). by rewrite fmap_app. Qed.

(** *** deleteTask *)

(** X1. [deleteTask] for an identifier that is not in the table reports
    "Task not found!" and changes nothing.  In a reachable world, for an
    identifier of the table it returns and removes the first task of the
    list with this identifier, the other tasks keeping their order; the
    identifier leaves the table and the other entries stay; [nextId] is
    unchanged; and [searchTask], [editTask], [markComplete] and a second
    [deleteTask] for the identifier then report "Task not found!" and
    change nothing. *)
Theorem deleteTask_removes (w : world) :
  reachable w →
  (∀ j, taskMap (data w) !! j = None → deleteTask w j = Returns [MsgNotFound] w) ∧
  (∀ i a, taskMap (data w) !! i = Some a →
     ∃ ts1 t ts2 w',
       tasks w = Some (ts1 ++ t :: ts2) ∧ task_id t = i ∧
       Forall (λ u, task_id u ≠ i) ts1 ∧
       deleteTask w i = Returns [MsgDeleted] w' ∧
       tasks w' = Some (ts1 ++ ts2) ∧
       taskMap (data w') = delete i (taskMap (data w)) ∧
       nextId (data w') = nextId (data w) ∧
       searchTask w' i = Returns [MsgNotFound] w' ∧
       deleteTask w' i = Returns [MsgNotFound] w' ∧
       (∀ d p, editTask w' i d p = Returns [MsgNotFound] w') ∧
       (∀ c, markComplete w' i c = Returns [MsgNotFound] w')).
Proof.
  intros Hr. destruct (reachable_Inv w Hr) as (l & sl & HI). split.
  - intros j Hj. by apply deleteTask_absent.
  - intros i a Hm.
    destruct (deleteTask_spec w l sl i a HI Hm)
      as (l1 & a' & t & l2 & c & w' & -> & Hid & Hfirst & Hdel & HI' & Hmap & Hnext & _).
    assert (taskMap (data w') !! i = None) as Hgone.
    { rewrite Hmap. apply lookup_delete_eq. }
    exists l1.*2, t, l2.*2, w'. split_and!.
    + by apply (tasks_split _ _ _ _ _ _ HI).
    + done.
    + apply Forall_forall. intros u Hu.
      apply list_elem_of_fmap in Hu as (x & -> & Hx). by apply Hfirst.
    + done.
    + rewrite (tasks_spec _ _ _ HI'). by rewrite fmap_app.
    + done.
    + done.
    + by apply searchTask_absent.
    + by apply deleteTask_absent.
    + intros d p. by apply editTask_absent.
    + intros c'. by apply markComplete_absent.
Qed.

Lemma deleteTask_removes_witness :
  taskMap (data sample_world) !! 1 = Some 1%positive ∧
  ∃ w', deleteTask sample_world 1 = Returns [MsgDeleted] w' ∧
        tasks w' = Some [Task 2 "call home" 1 false] ∧
        searchTask w' 1 = Returns [MsgNotFound] w'.
Proof.
  split; [vm_compute; reflexivity|].
  destruct (deleteTask_removes sample_world) as [_ H].
  { exists sample_ops,
      [MsgAdded 1; MsgAdded 2; MsgMarked 1 true; MsgDeleted; MsgRestored 2].
    vm_compute. reflexivity. }
  destruct (H 1 1%positive) as (ts1 & t & ts2 & w' & _ & _ & _ & Hd & Ht & _ & _ & Hs & _).
  { vm_compute. reflexivity. }
  exists w'. split_and!; [done| |done].
  vm_compute in Hd. injection Hd as <-. vm_compute. reflexivity.
Defined.

(** *** markComplete *)

(** X2. In a reachable world, [markComplete] for an identifier of the
    table returns and sets the completion state of the task the table
    holds for it, in its place in the list; the other tasks, the table and
    the counters are unchanged; [searchTask] then shows the new state; and
    a further [markComplete] for the identifier has the effect it would
    have had in the first place, so the last state given is the one that
    stays. *)
Theorem markComplete_sets_state (w : world) (i : Z) (a : loc) (done : bool) :
  reachable w → taskMap (data w) !! i = Some a →
  ∃ ts1 t ts2 w',
    tasks w = Some (ts1 ++ t :: ts2) ∧ task_id t = i ∧
    markComplete w i done = Returns [MsgMarked i done] w' ∧
    tasks w' = Some (ts1 ++ with_completed done t :: ts2) ∧
    data w' = data w ∧
    searchTask w' i =
      Returns [MsgTaskFound i (task_description t) (task_priority t) done] w' ∧
    (∀ c, markComplete w' i c = markComplete w i c).
Proof.
  intros Hr Hm. destruct (reachable_Inv w Hr) as (l & sl & HI).
  destruct (table_entry_split w l sl i a HI Hm) as (n & l1 & l2 & Hn & Hid & Hl & Hu).
  destruct (markComplete_spec w l sl i a done HI Hm) as (n' & Hn' & _ & Hmark & HI').
  rewrite Hn in Hn'. injection Hn' as <-.
  rewrite Hu in HI'. subst l.
  eexists l1.*2, (task_of n), l2.*2, _. split_and!.
  - by apply (tasks_split _ _ _ _ _ _ HI).
  - by rewrite <- Hid.
  - exact Hmark.
  - by apply (tasks_split _ _ _ _ _ _ HI').
  - done.
  - unfold searchTask. cbn [store data]. rewrite Hm, lookup_insert_eq.
    simpl. by rewrite Hid.
  - intros c. unfold markComplete. cbn [store data]. rewrite Hm, Hn, lookup_insert_eq.
    simpl. by rewrite insert_insert_eq.
Qed.

Lemma markComplete_sets_state_witness :
  taskMap (data sample_world) !! 2 = Some 3%positive ∧
  ∃ w', markComplete sample_world 2 true = Returns [MsgMarked 2 true] w' ∧
        tasks w' = Some [Task 2 "call home" 1 true; Task 1 "pay rent" 5 true].
Proof.
  split; [vm_compute; reflexivity|].
  destruct (markComplete_sets_state sample_world 2 3%positive true)
    as (ts1 & t & ts2 & w' & _ & _ & Hmark & _).
  { exists sample_ops,
      [MsgAdded 1; MsgAdded 2; MsgMarked 1 true; MsgDeleted; MsgRestored 2].
    vm_compute. reflexivity. }
  { vm_compute. reflexivity. }
  exists w'. split; [done|].
  vm_compute in Hmark. injection Hmark as <-. vm_compute. reflexivity.
Defined.

(** *** editTask *)

(** X3. In a reachable world, [editTask] for an identifier of the table
    returns and rewrites the task the table holds for it in its place in
    the list: the description becomes the line read unless the line is
    empty, the priority becomes the number read when it is in 1..5, and the
    identifier and the completion state stay; the other tasks, the table and
    the counters are unchanged.  An empty line together with a number that
    leaves the priority as it is changes nothing at all. *)
Theorem editTask_rewrites_in_place
    (w : world) (i : Z) (a : loc) (newDesc : string) (newPrio : option Z) :
  reachable w → taskMap (data w) !! i = Some a →
  ∃ ts1 t ts2 w',
    tasks w = Some (ts1 ++ t :: ts2) ∧ task_id t = i ∧
    editTask w i newDesc newPrio =
      Returns ([MsgCurrentDescription (task_description t); MsgPromptDescription;
                MsgCurrentPriority (task_priority t); MsgPromptPriority]
               ++ edit_report newPrio ++ [MsgUpdated i]) w' ∧
    tasks w' = Some (ts1 ++ edited newDesc newPrio t :: ts2) ∧
    data w' = data w ∧
    (empty newDesc = true →
     edited_priority (task_priority t) newPrio = task_priority t → w' = w).
Proof.
  intros Hr Hm. destruct (reachable_Inv w Hr) as (l & sl & HI).
  destruct (table_entry_split w l sl i a HI Hm) as (n & l1 & l2 & Hn & Hid & Hl & Hu).
  destruct (editTask_spec w l sl i a newDesc newPrio HI Hm)
    as (n' & Hn' & _ & Hedit & HI').
  rewrite Hn in Hn'. injection Hn' as <-.
  cbv zeta in Hedit, HI'. rewrite Hu in HI'. subst l.
  eexists l1.*2, (task_of n), l2.*2, _. split_and!.
  - by apply (tasks_split _ _ _ _ _ _ HI).
  - by rewrite <- Hid.
  - exact Hedit.
  - rewrite (tasks_split _ _ _ _ _ _ HI'). unfold edited. simpl. by rewrite Hid.
  - done.
  - simpl. intros He Hp. rewrite He, Hp.
    destruct w as [m d]. simpl in *. f_equal.
    apply insert_id. rewrite Hn. f_equal. destruct n. simpl in *. by subst.
Qed.

Lemma editTask_rewrites_in_place_witness :
  taskMap (data sample_world) !! 1 = Some 1%positive ∧
  ∃ w', editTask sample_world 1 "pay the rent" (Some 7)
        = Returns [MsgCurrentDescription "pay rent"; MsgPromptDescription;
                   MsgCurrentPriority 5; MsgPromptPriority;
                   MsgInvalidPriority; MsgUpdated 1] w' ∧
        tasks w' = Some [Task 2 "call home" 1 false; Task 1 "pay the rent" 5 true].
Proof.
  split; [vm_compute; reflexivity|].
  destruct (editTask_rewrites_in_place sample_world 1 1%positive "pay the rent" (Some 7))
    as (ts1 & t & ts2 & w' & Ht & _ & Hedit & _).
  { exists sample_ops,
      [MsgAdded 1; MsgAdded 2; MsgMarked 1 true; MsgDeleted; MsgRestored 2].
    vm_compute. reflexivity. }
  { vm_compute. reflexivity. }
  exists w'. pose proof Hedit as H. vm_compute in H. simplify_eq.
  split; vm_compute; reflexivity.
Defined.

(** *** printAll *)

(** X4. In a reachable world [printAll] returns and leaves the world as it
    is; it writes "No tasks available." when the list is empty, and
    otherwise the title, one row for each task of the list in the order of
    the list, and the closing rule. *)
Theorem printAll_shows_the_list (w : world) :
  reachable w →
  ∃ ns, listAll w = Some ns ∧ tasks w = Some (task_of <$> ns) ∧
        printAll w =
          Returns (match ns with
                   | [] => [MsgNoTasks]
                   | _ => [MsgListHeader] ++ map row ns ++ [MsgListFooter]
                   end) w.
Proof.
  intros Hr. destruct (reachable_Inv w Hr) as (l & sl & HI).
  destruct (listAll_spec _ _ _ HI) as (ns & Hl & Hns).
  exists ns. split_and!; [done| |].
  - by rewrite (tasks_spec _ _ _ HI), Hns.
  - unfold printAll. pose proof (inv_chain _ _ _ HI) as Hc.
    destruct (head (data w)) as [h|] eqn:Hh.
    + rewrite Hl. simpl. destruct ns as [|n ns']; [|done].
      destruct l as [|[a t] r]; [done|]. done.
    + destruct l as [|[a t] r]; [|by destruct Hc].
      destruct ns; [done|]. done.
Qed.

Lemma printAll_shows_the_list_witness :
  printAll sample_world =
    Returns [MsgListHeader; MsgTaskRow false 2 "call home" 1;
             MsgTaskRow true 1 "pay rent" 5; MsgListFooter] sample_world.
Proof.
  destruct (printAll_shows_the_list sample_world) as (ns & Hl & _ & Hp).
  { exists sample_ops,
      [MsgAdded 1; MsgAdded 2; MsgMarked 1 true; MsgDeleted; MsgRestored 2].
    vm_compute. reflexivity. }
  rewrite Hp. vm_compute in Hl. injection Hl as <-. reflexivity.
Defined.

(** *** searchTask *)

(** X5. In a reachable world [searchTask] returns and leaves the world as
    it is.  For an identifier that is not in the table it reports "Task not
    found!"; for an identifier of the table it shows the identifier, the
    description, the priority and the state of a task of the list with this
    identifier: what is read through the table is what the traversal of the
    list meets. *)
Theorem searchTask_shows_a_listed_task (w : world) (i : Z) :
  reachable w →
  ∃ ts, tasks w = Some ts ∧
    (taskMap (data w) !! i = None ∧
     searchTask w i = Returns [MsgNotFound] w
     ∨
     ∃ t, t ∈ ts ∧ task_id t = i ∧
       searchTask w i =
         Returns [MsgTaskFound i (task_description t) (task_priority t)
                    (task_completed t)] w).
Proof.
  intros Hr. destruct (reachable_Inv w Hr) as (l & sl & HI).
  exists l.*2. split; [by apply (tasks_spec _ _ _ HI)|].
  destruct (taskMap (data w) !! i) as [a|] eqn:Hm.
  - right. destruct (searchTask_spec w l sl i a HI Hm) as (t & Hin & Hid & Hs).
    exists t. split_and!; [|done..].
    by apply (list_elem_of_fmap_2 snd _ (a, t)).
  - left. split; [done|]. by apply searchTask_absent.
Qed.

Lemma searchTask_shows_a_listed_task_witness :
  searchTask sample_world 2
  = Returns [MsgTaskFound 2 "call home" 1 false] sample_world ∧
  ∃ ts, tasks sample_world = Some ts ∧ Task 2 "call home" 1 false ∈ ts.
Proof.
  split; [vm_compute; reflexivity|].
  destruct (searchTask_shows_a_listed_task sample_world 2)
    as (ts & Ht & [[_ Hs]|(t & Hin & _ & Hs)]).
  - exists sample_ops,
      [MsgAdded 1; MsgAdded 2; MsgMarked 1 true; MsgDeleted; MsgRestored 2].
    vm_compute. reflexivity.
  - vm_compute in Hs. discriminate Hs.
  - exists ts. split; [done|].
    vm_compute in Ht. injection Ht as <-. apply list_elem_of_here.
Defined.

(** *** The counters and the store *)

Lemma Inv_store_size w l sl :
  Inv w l sl → size (store w) = (length l + length sl)%nat.
Proof.
  intros HI. rewrite <- length_app, <- (length_fmap fst (l ++ sl)).
  apply size_covered.
  - apply (inv_nodup _ _ _ HI).
  - intros a Ha. rewrite fmap_app in Ha. apply elem_of_app in Ha as [Ha|Ha].
    + by apply (Inv_live_allocated _ _ _ _ HI).
    + apply list_elem_of_fmap in Ha as ([b t] & -> & Hin).
      destruct (inv_cells _ _ _ HI b t Hin) as (n & Hn & _). by exists n.
  - apply (inv_dom _ _ _ HI).
Qed.

(** X6. In every reachable world [totalTasks] is the number of tasks of
    the list and lies in 0..INT_MAX, [nextId] lies in 1..INT_MAX, the undo
    stack holds distinct addresses, and the store holds exactly one node for
    each task of the list and one for each entry of the undo stack: a
    deleted node is released and no node is lost. *)
Theorem counters_match_the_store (w : world) :
  reachable w →
  ∃ ts, tasks w = Some ts ∧
        totalTasks (data w) = Z.of_nat (length ts) ∧
        0 ≤ totalTasks (data w) ≤ INT_MAX ∧
        1 ≤ nextId (data w) ≤ INT_MAX ∧
        NoDup (deletedStack (data w)) ∧
        size (store w) = (length ts + length (deletedStack (data w)))%nat.
Proof.
  intros Hr. destruct (reachable_Inv w Hr) as (l & sl & HI).
  exists l.*2. destruct (inv_total _ _ _ HI) as [Ht Hmax].
  rewrite length_fmap. split_and!.
  - by apply (tasks_spec _ _ _ HI).
  - done.
  - lia.
  - done.
  - apply (inv_next _ _ _ HI).
  - apply (inv_next _ _ _ HI).
  - rewrite (inv_stack _ _ _ HI). pose proof (inv_nodup _ _ _ HI) as Hnd.
    rewrite fmap_app in Hnd. by apply NoDup_app in Hnd as (_ & _ & ?).
  - rewrite (inv_stack _ _ _ HI), length_fmap. by apply Inv_store_size.
Qed.

Lemma counters_match_the_store_witness :
  totalTasks (data two_deleted) = 0 ∧ size (store two_deleted) = 2%nat ∧
  ∃ ts, tasks two_deleted = Some ts ∧
        size (store two_deleted)
        = (length ts + length (deletedStack (data two_deleted)))%nat.
Proof.
  split; [vm_compute; reflexivity|]. split; [vm_compute; reflexivity|].
  destruct (counters_match_the_store two_deleted) as (ts & Ht & _ & _ & _ & _ & Hs).
  { exists [OpAdd "pay rent" 5; OpAdd "call home" 2; OpDelete 1; OpDelete 2],
      [MsgAdded 1; MsgAdded 2; MsgDeleted; MsgDeleted].
    vm_compute. reflexivity. }
  exists ts. split; done.
Defined.

(** *** Every call of the menu returns *)

(** X7. In a reachable world a call of the menu other than a load never
    throws, never follows a pointer that is not allocated and never loops
    for ever: it returns, in a reachable world, unless one of the counters
    has reached [INT_MAX]. *)
Theorem menu_calls_return (w : world) (o : op) :
  reachable w → is_load o = false →
  match perform w o with
  | Returns _ w' => reachable w'
  | Throws _ _ => False
  | Undefined => nextId (data w) = INT_MAX ∨ totalTasks (data w) = INT_MAX
  end.
Proof.
  intros Hr Hload. destruct (reachable_Inv w Hr) as (l & sl & HI).
  assert (∀ out w', perform w o = Returns out w' → reachable w') as Hreach.
  { intros out w' Hp. apply (reachable_exec w [o] out w' Hr).
    simpl. rewrite Hp. simpl. by rewrite app_nil_r. }
  destruct (perform w o) as [out w'|e w'|] eqn:Hp; [by eapply Hreach| |].
  - destruct o as [f|d p|i nd np|i| |i c|i|]; simpl in Hp; [done|..].
    + destruct (empty d) eqn:Hd; [by rewrite addTask_empty in Hp|].
      pose proof (addTask_spec w l sl d p HI Hd) as H. by rewrite Hp in H.
    + destruct (taskMap (data w) !! i) as [a|] eqn:Hm.
      * destruct (editTask_spec w l sl i a nd np HI Hm) as (n & _ & _ & He & _).
        cbv zeta in He. congruence.
      * by rewrite editTask_absent in Hp.
    + destruct (taskMap (data w) !! i) as [a|] eqn:Hm.
      * destruct (deleteTask_spec w l sl i a HI Hm)
          as (? & ? & ? & ? & ? & ? & _ & _ & _ & Hd & _). congruence.
      * by rewrite deleteTask_absent in Hp.
    + destruct sl as [|[c t] sl'].
      * rewrite undoDelete_empty in Hp; [done|]. by rewrite (inv_stack _ _ _ HI).
      * pose proof (undoDelete_spec w l c t sl' HI) as H. by rewrite Hp in H.
    + destruct (taskMap (data w) !! i) as [a|] eqn:Hm.
      * destruct (markComplete_spec w l sl i a c HI Hm) as (n & _ & _ & He & _).
        congruence.
      * by rewrite markComplete_absent in Hp.
    + destruct (taskMap (data w) !! i) as [a|] eqn:Hm.
      * destruct (searchTask_spec w l sl i a HI Hm) as (t & _ & _ & He). congruence.
      * by rewrite searchTask_absent in Hp.
    + destruct (printAll_spec w l sl HI) as (out & He). congruence.
  - destruct o as [f|d p|i nd np|i| |i c|i|]; simpl in Hp; [done|..].
    + destruct (empty d) eqn:Hd; [by rewrite addTask_empty in Hp|].
      pose proof (addTask_spec w l sl d p HI Hd) as H. by rewrite Hp in H.
    + destruct (taskMap (data w) !! i) as [a|] eqn:Hm.
      * destruct (editTask_spec w l sl i a nd np HI Hm) as (n & _ & _ & He & _).
        cbv zeta in He. congruence.
      * by rewrite editTask_absent in Hp.
    + destruct (taskMap (data w) !! i) as [a|] eqn:Hm.
      * destruct (deleteTask_spec w l sl i a HI Hm)
          as (? & ? & ? & ? & ? & ? & _ & _ & _ & Hd & _). congruence.
      * by rewrite deleteTask_absent in Hp.
    + destruct sl as [|[c t] sl'].
      * rewrite undoDelete_empty in Hp; [done|]. by rewrite (inv_stack _ _ _ HI).
      * pose proof (undoDelete_spec w l c t sl' HI) as H. rewrite Hp in H. by right.
    + destruct (taskMap (data w) !! i) as [a|] eqn:Hm.
      * destruct (markComplete_spec w l sl i a c HI Hm) as (n & _ & _ & He & _).
        congruence.
      * by rewrite markComplete_absent in Hp.
    + destruct (taskMap (data w) !! i) as [a|] eqn:Hm.
      * destruct (searchTask_spec w l sl i a HI Hm) as (t & _ & _ & He). congruence.
      * by rewrite searchTask_absent in Hp.
    + destruct (printAll_spec w l sl HI) as (out & He). congruence.
Qed.

Lemma menu_calls_return_witness :
  is_load OpUndo = false ∧
  ∃ w', perform two_deleted OpUndo = Returns [MsgRestored 2] w' ∧ reachable w'.
Proof.
  split; [reflexivity|].
  pose proof (menu_calls_return two_deleted OpUndo) as H.
  destruct (perform two_deleted OpUndo) as [out w'|e w'|] eqn:Hp.
  - exists w'. split.
    + vm_compute in Hp. injection Hp as <- <-. reflexivity.
    + apply H; [|reflexivity].
      exists [OpAdd "pay rent" 5; OpAdd "call home" 2; OpDelete 1; OpDelete 2],
        [MsgAdded 1; MsgAdded 2; MsgDeleted; MsgDeleted].
      vm_compute. reflexivity.
  - vm_compute in Hp. discriminate Hp.
  - vm_compute in Hp. discriminate Hp.
Defined.

(** *** undoDelete *)

(** X8. In a reachable world [undoDelete] never changes [nextId]: the
    identifier of every deleted task is below [nextId] already, so the
    maximum taken with the restored identifier plus one is [nextId]
    itself. *)
Theorem undoDelete_keeps_nextId (w : world) (out : list message) (w' : world) :
  reachable w → undoDelete w = Returns out w' →
  nextId (data w') = nextId (data w) ∧
  (∀ i, MsgRestored i ∈ out → i + 1 ≤ nextId (data w)).
Proof.
  intros Hr Hu. destruct (reachable_Inv w Hr) as (l & sl & HI).
  destruct sl as [|[c t] sl'].
  - rewrite undoDelete_empty in Hu by (by rewrite (inv_stack _ _ _ HI)).
    injection Hu as <- <-. split; [done|].
    intros i Hi. apply list_elem_of_singleton in Hi. done.
  - pose proof (undoDelete_spec w l c t sl' HI) as H. rewrite Hu in H.
    destruct H as (-> & _ & _ & Hmax & Hn & _). split; [done|].
    intros i Hi. apply list_elem_of_singleton in Hi. injection Hi as ->. lia.
Qed.

Lemma undoDelete_keeps_nextId_witness :
  nextId (data two_deleted) = 3 ∧
  ∃ w', undoDelete two_deleted = Returns [MsgRestored 2] w' ∧
        nextId (data w') = nextId (data two_deleted).
Proof.
  split; [reflexivity|]. eexists. split; [vm_compute; reflexivity|].
  refine (proj1 (undoDelete_keeps_nextId two_deleted [MsgRestored 2] _ _ _)).
  - exists [OpAdd "pay rent" 5; OpAdd "call home" 2; OpDelete 1; OpDelete 2],
      [MsgAdded 1; MsgAdded 2; MsgDeleted; MsgDeleted].
    vm_compute. reflexivity.
  - vm_compute. reflexivity.
Defined.

(** X9. The undo history is a stack.  In a reachable world, after
    [deleteTask] for [i] and then for another identifier [j] of the table,
    the first [undoDelete] restores the task of [j] and the second the task
    of [i], each at the head of the list; the list then holds the tasks it
    held at the start, the undo stack and [totalTasks] are as at the
    start. *)
Theorem undoDelete_restores_in_reverse_order
    (w : world) (i j : Z) (a b : loc) :
  reachable w →
  taskMap (data w) !! i = Some a → taskMap (data w) !! j = Some b → i ≠ j →
  ∃ w1 w2 w3 w4 ts ti tj rest,
    tasks w = Some ts ∧
    deleteTask w i = Returns [MsgDeleted] w1 ∧
    deleteTask w1 j = Returns [MsgDeleted] w2 ∧
    tasks w2 = Some rest ∧
    undoDelete w2 = Returns [MsgRestored j] w3 ∧
    tasks w3 = Some (tj :: rest) ∧
    undoDelete w3 = Returns [MsgRestored i] w4 ∧
    tasks w4 = Some (ti :: tj :: rest) ∧
    task_id ti = i ∧ task_id tj = j ∧
    ts ≡ₚ ti :: tj :: rest ∧
    deletedStack (data w4) = deletedStack (data w) ∧
    totalTasks (data w4) = totalTasks (data w).
Proof.
  intros Hr Hi Hj Hne. destruct (reachable_Inv w Hr) as (l & sl & HI).
  destruct (deleteTask_spec w l sl i a HI Hi)
    as (l1 & a1 & t & l2 & c & w1 & Hl & Hti & _ & Hd1 & HI1 & Hm1 & _ & Ht1).
  assert (taskMap (data w1) !! j = Some b) as Hj1.
  { rewrite Hm1. by rewrite lookup_delete_ne. }
  destruct (deleteTask_spec w1 _ _ j b HI1 Hj1)
    as (l1' & b1 & u & l2' & c' & w2 & Hl' & Htj & _ & Hd2 & HI2 & _ & _ & Ht2).
  destruct (inv_total _ _ _ HI) as [_ Hmax].
  pose proof (undoDelete_spec w2 _ c' u _ HI2) as Hu1.
  destruct (undoDelete w2) as [o3 w3|e3 w3|] eqn:Hun1; [|done|lia].
  destruct Hu1 as (-> & HI3 & _ & _ & _ & Ht3).
  pose proof (undoDelete_spec w3 _ c t _ HI3) as Hu2.
  destruct (undoDelete w3) as [o4 w4|e4 w4|] eqn:Hun2; [|done|lia].
  destruct Hu2 as (-> & HI4 & _ & _ & _ & Ht4).
  exists w1, w2, w3, w4, l.*2, t, u, (l1' ++ l2').*2. split_and!.
  - by apply (tasks_spec _ _ _ HI).
  - done.
  - done.
  - by apply (tasks_spec _ _ _ HI2).
  - by rewrite Hun1, Htj.
  - by rewrite (tasks_spec _ _ _ HI3).
  - by rewrite Hun2, Hti.
  - by rewrite (tasks_spec _ _ _ HI4).
  - done.
  - done.
  - rewrite Hl. rewrite fmap_app, fmap_cons. simpl.
    rewrite <- Permutation_middle. constructor.
    rewrite <- fmap_app, Hl'. rewrite fmap_app, fmap_cons. simpl.
    rewrite <- Permutation_middle. by rewrite fmap_app.
  - by rewrite (inv_stack _ _ _ HI4), (inv_stack _ _ _ HI).
  - lia.
Qed.

Lemma undoDelete_restores_in_reverse_order_witness :
  ∃ w1 w2 w3 w4,
    deleteTask sample_world 1 = Returns [MsgDeleted] w1 ∧
    deleteTask w1 2 = Returns [MsgDeleted] w2 ∧
    undoDelete w2 = Returns [MsgRestored 2] w3 ∧
    undoDelete w3 = Returns [MsgRestored 1] w4 ∧
    tasks w4 = Some [Task 1 "pay rent" 5 true; Task 2 "call home" 1 false].
Proof.
  destruct (undoDelete_restores_in_reverse_order sample_world 1 2 1%positive 3%positive)
    as (w1 & w2 & w3 & w4 & ts & ti & tj & rest & _ & H1 & H2 & _ & H3 & _ & H4 & _).
  - exists sample_ops,
      [MsgAdded 1; MsgAdded 2; MsgMarked 1 true; MsgDeleted; MsgRestored 2].
    vm_compute. reflexivity.
  - vm_compute. reflexivity.
  - vm_compute. reflexivity.
  - lia.
  - exists w1, w2, w3, w4. split_and!; [done..|].
    vm_compute in H1. injection H1 as <-.
    vm_compute in H2. injection H2 as <-.
    vm_compute in H3. injection H3 as <-.
    vm_compute in H4. injection H4 as <-.
    vm_compute. reflexivity.
Defined.

(** *** freeAll *)

(** X10. In a reachable world [freeAll] returns and releases every node
    that is allocated, each of them once: the nodes of the list and the
    copies kept on the undo stack.  It leaves an empty store, an empty list,
    table and undo stack, [totalTasks] 0, and [nextId] as it was. *)
Theorem freeAll_releases_every_node (w : world) :
  reachable w →
  freeAll w = Returns [] (World ∅ (mkData None ∅ [] (nextId (data w)) 0)).
Proof.
  intros Hr. destruct (reachable_Inv w Hr) as (l & sl & HI).
  pose proof (inv_nodup _ _ _ HI) as Hnd. rewrite fmap_app in Hnd.
  apply NoDup_app in Hnd as (Hl & Hdis & Hsl).
  destruct (free_chain_chain (store w) (head (data w)) l (fuel (store w)))
    as (m1 & Hf1 & Hm1).
  { apply (inv_chain _ _ _ HI). }
  { done. }
  { pose proof (Inv_fuel _ _ _ HI). unfold fuel. lia. }
  destruct (free_stack_spec m1 (deletedStack (data w))) as (m2 & Hf2 & Hm2).
  { by rewrite (inv_stack _ _ _ HI). }
  { intros a Ha. rewrite (inv_stack _ _ _ HI) in Ha. rewrite Hm1.
    rewrite decide_False by (intros Hin; by apply (Hdis a Hin)).
    apply list_elem_of_fmap in Ha as ([b t] & -> & Hin).
    destruct (inv_cells _ _ _ HI b t Hin) as (n & Hn & _). by exists n. }
  unfold freeAll. rewrite Hf1. simpl. rewrite Hf2. simpl.
  do 2 f_equal. apply map_eq. intros a. rewrite lookup_empty, Hm2.
  destruct (decide (a ∈ deletedStack (data w))) as [|Hns]; [done|].
  rewrite Hm1. destruct (decide (a ∈ l.*1)) as [|Hnl]; [done|].
  apply eq_None_not_Some. intros Hsome.
  apply (inv_dom _ _ _ HI) in Hsome. rewrite fmap_app in Hsome.
  apply elem_of_app in Hsome as [?|?]; [done|].
  by rewrite (inv_stack _ _ _ HI) in Hns.
Qed.

Lemma freeAll_releases_every_node_witness :
  size (store sample_world) = 2%nat ∧
  freeAll sample_world = Returns [] (World ∅ (mkData None ∅ [] 3 0)).
Proof.
  split; [vm_compute; reflexivity|].
  apply (freeAll_releases_every_node sample_world).
  exists sample_ops,
    [MsgAdded 1; MsgAdded 2; MsgMarked 1 true; MsgDeleted; MsgRestored 2].
  vm_compute. reflexivity.
Defined.

(** *** The files *)

Lemma pipes_to_spaces_free s :
  find_from pipe 0 s = None → pipes_to_spaces s = s.
Proof.
  induction s as [|a r IH]; simpl; [done|].
  destruct (Ascii.eqb a pipe); [done|].
  destruct (find_from pipe 0 r); [done|]. intros _. by rewrite IH.
Qed.

Lemma replace_at_pipes s pos :
  find_from pipe 0 s = Some pos →
  pipes_to_spaces (replace_at pos s) = pipes_to_spaces s.
Proof.
  revert pos. induction s as [|a r IH]; intros pos; simpl; [done|].
  destruct (Ascii.eqb a pipe) eqn:E.
  - intros [= <-]. simpl. done.
  - destruct (find_from pipe 0 r) as [q|] eqn:Hq; simpl; [|done].
    intros [= <-]. simpl. rewrite E. f_equal. by apply IH.
Qed.

Lemma sanitize_loop_pipes k s :
  pipes_to_spaces (sanitize_loop k s) = pipes_to_spaces s.
Proof.
  revert s. induction k as [|k IH]; intros s; simpl; [done|].
  destruct (find_from pipe 0 s) as [pos|] eqn:Hf; [|done].
  rewrite IH. by apply replace_at_pipes.
Qed.

Lemma length_pipes_to_spaces s :
  String.length (pipes_to_spaces s) = String.length s.
Proof. induction s as [|a r IH]; simpl; [done|]. by rewrite IH. Qed.

Lemma pipes_to_spaces_keeps_free c s :
  c ≠ space → find_from c 0 s = None → find_from c 0 (pipes_to_spaces s) = None.
Proof.
  intros Hc. induction s as [|a r IH]; simpl; [done|].
  destruct (Ascii.eqb_spec a c) as [->|Hne]; [done|].
  destruct (find_from c 0 r); [done|]. intros _.
  destruct (Ascii.eqb a pipe).
  - destruct (Ascii.eqb_spec space c) as [<-|_]; [done|]. by rewrite IH.
  - destruct (Ascii.eqb_spec a c) as [->|_]; [done|]. by rewrite IH.
Qed.

(** X11. The loop of [saveToFile] that removes the ['|'] of a description
    ends, and what it leaves is the description with every ['|'] replaced by
    a space: the text has the same length, holds no ['|'], and is the
    description itself when that holds no ['|']. *)
Theorem sanitize_replaces_pipes (d : string) :
  sanitize d = pipes_to_spaces d ∧
  String.length (sanitize d) = String.length d ∧
  find_from pipe 0 (sanitize d) = None ∧
  (find_from pipe 0 d = None → sanitize d = d).
Proof.
  assert (sanitize d = pipes_to_spaces d) as Heq.
  { rewrite <- (pipes_to_spaces_free (sanitize d)) by apply sanitize_no_pipe.
    apply sanitize_loop_pipes. }
  split_and!.
  - done.
  - rewrite Heq. apply length_pipes_to_spaces.
  - apply sanitize_no_pipe.
  - apply sanitize_free.
Qed.

Lemma sanitize_pipes d : sanitize d = pipes_to_spaces d.
Proof.
  rewrite <- (pipes_to_spaces_free (sanitize d)) by apply sanitize_no_pipe.
  apply sanitize_loop_pipes.
Qed.

Lemma count_char_append c s t :
  count_char c (s +:+ t) = (count_char c s + count_char c t)%nat.
Proof.
  induction s as [|a r IH]; [by rewrite append_empty_l|].
  rewrite append_String. simpl. rewrite IH. lia.
Qed.

Lemma count_char_fields_3 f1 f2 f3 f4 :
  find_from pipe 0 f1 = None → find_from pipe 0 f2 = None →
  find_from pipe 0 f3 = None → find_from pipe 0 f4 = None →
  count_char pipe (fields f1 f2 f3 f4) = 3%nat.
Proof.
  intros H1 H2 H3 H4. apply find_from_count in H1, H2, H3, H4.
  unfold fields. rewrite !count_char_append. simpl.
  rewrite !count_char_append. simpl. rewrite !count_char_append. simpl.
  rewrite H1, H2, H3, H4. done.
Qed.

Lemma record_body_line n :
  one_line n → find_from newline 0 (record_body n) = None.
Proof.
  intros Hn. unfold record_body, fields.
  assert (∀ z, find_from newline 0 (to_string z) = None) as Hz.
  { intros z. by apply to_string_free. }
  apply find_from_append_none; [done|].
  apply find_from_String_ne; [done|].
  apply find_from_append_none.
  { rewrite sanitize_pipes. by apply pipes_to_spaces_keeps_free. }
  apply find_from_String_ne; [done|].
  apply find_from_append_none; [done|].
  apply find_from_String_ne; [done|]. by destruct (completed n).
Qed.

Lemma record_body_pipes n : count_char pipe (record_body n) = 3%nat.
Proof.
  unfold record_body. apply count_char_fields_3.
  - by apply to_string_free.
  - apply sanitize_no_pipe.
  - by apply to_string_free.
  - by destruct (completed n).
Qed.

Lemma getlines_saved ns :
  Forall one_line ns → getlines EmptyString (file_text ns) = record_body <$> ns.
Proof.
  induction 1 as [|n ns Hn Hns IH]; [done|]. simpl.
  rewrite record_line_body. unfold endl. rewrite append_assoc, append_String.
  rewrite append_empty_l.
  rewrite getlines_line by (by apply record_body_line).
  by rewrite append_empty_l, IH.
Qed.

(** The line written for a node is read back with the description
    [saveToFile] wrote. *)
Lemma load_line_saved w n :
  in_int (id n) = true → in_int (priority n) = true →
  load_line w (record_body n)
  = insert_record w (id n) (pipes_to_spaces (description n)) (priority n)
      (if completed n then 1 else 0).
Proof.
  intros Hi Hpr. unfold record_body.
  rewrite load_line_fields.
  - rewrite !stoi_to_string by done. rewrite sanitize_pipes.
    by destruct (completed n).
  - by apply to_string_free.
  - apply sanitize_no_pipe.
  - by apply to_string_free.
Qed.

Lemma load_saved ns w l sl :
  Inv w l sl →
  Forall (λ n, in_int (id n) = true ∧ id n < INT_MAX ∧
               in_int (priority n) = true) ns →
  totalTasks (data w) + Z.of_nat (length ns) ≤ INT_MAX →
  ∃ w' l', load_lines w (record_body <$> ns) = Returns [] w' ∧
           Inv w' (l ++ l') sl ∧ l'.*2 = saved_task <$> ns ∧
           nextId (data w') = next_after (nextId (data w)) ns.
Proof.
  intros HI Hns. revert w l HI. induction Hns as [|n ns (Hi & Hlt & Hpr) Hns IH];
    intros w l HI Htot.
  - exists w, []. rewrite app_nil_r. done.
  - rewrite fmap_cons. simpl load_lines. rewrite load_line_saved by done.
    pose proof (insert_record_spec w l sl (id n) (pipes_to_spaces (description n))
                  (priority n) (if completed n then 1 else 0) HI Hi Hpr) as H.
    simpl length in Htot.
    destruct (insert_record _ _ _ _ _) as [out w1|e w1|]; [|done|lia].
    destruct H as (-> & a & _ & HI1 & _ & Hn1 & Ht1).
    destruct (IH w1 _ HI1) as (w' & l' & Hl & HI' & Hl' & Hn'); [lia|].
    exists w', ((a, saved_task n) :: l'). split_and!.
    + done.
    + rewrite <- app_assoc in HI'. simpl in HI'. unfold saved_task.
      by replace (negb ((if completed n then 1 else 0) =? 0)) with (completed n)
        in HI' by (by destruct (completed n)).
    + rewrite fmap_cons. simpl. by rewrite Hl'.
    + rewrite Hn', Hn1. done.
Qed.

(** X12. In a reachable world [saveToFile] leaves the world as it is and,
    when the file cannot be opened, writes nothing.  When no description
    holds a newline, the file has one line for each task, in the order of
    the list, each with exactly three ['|'], so that no line is skipped or
    split differently when the file is read; and [loadFromFile] of the file
    into the empty structure returns with the same tasks in the same order,
    the ['|'] of their descriptions being replaced by spaces. *)
Theorem save_then_load_replaces_pipes (w : world) :
  reachable w →
  ∃ ns, listAll w = Some ns ∧
        saveToFile w false = (Returns [MsgSaveFailed] w, None) ∧
        saveToFile w true = (Returns [MsgSaved] w, Some (file_text ns)) ∧
        (Forall one_line ns →
         getlines EmptyString (file_text ns) = record_body <$> ns ∧
         Forall (λ line, count_char pipe line = 3%nat) (record_body <$> ns) ∧
         ∃ w', loadFromFile initial (Some (file_text ns)) = Returns [] w' ∧
               tasks w' = Some (saved_task <$> ns)).
Proof.
  intros Hr. destruct (reachable_Inv w Hr) as (l & sl & HI).
  destruct (listAll_spec _ _ _ HI) as (ns & Hl & Hns).
  exists ns. split_and!; [done|done| |].
  - unfold saveToFile. by rewrite Hl.
  - intros Hlines. split; [by apply getlines_saved|]. split.
    { apply Forall_fmap, Forall_forall. intros n _. apply record_body_pipes. }
    destruct (listAll_nodes _ _ _ _ HI Hl) as [Hnodes Hlen].
    destruct (load_saved ns initial [] [] Inv_initial Hnodes)
      as (w' & l' & Hload & HI' & Hl' & _).
    + simpl. destruct (inv_total _ _ _ HI) as [Ht Hmax]. lia.
    + exists w'. simpl in HI'. split.
      * simpl. by rewrite getlines_saved.
      * by rewrite (tasks_spec _ _ _ HI'), Hl'.
Qed.

Lemma save_then_load_replaces_pipes_witness :
  exec initial [OpAdd "milk|eggs" 2] = Some ([MsgAdded 1], piped_world) ∧
  saveToFile piped_world true
  = (Returns [MsgSaved] piped_world, Some ("1|milk eggs|2|0" +:+ endl)) ∧
  ∃ w', loadFromFile initial (Some ("1|milk eggs|2|0" +:+ endl)) = Returns [] w' ∧
        tasks w' = Some [Task 1 "milk eggs" 2 false].
Proof.
  split; [vm_compute; reflexivity|].
  destruct (save_then_load_replaces_pipes piped_world) as (ns & Hl & _ & Hs & Hrt).
  { exists [OpAdd "milk|eggs" 2], [MsgAdded 1]. vm_compute. reflexivity. }
  vm_compute in Hl. injection Hl as <-.
  destruct Hrt as (_ & _ & w' & Hload & Ht).
  { repeat constructor. }
  split; [exact Hs|]. exists w'. split; [exact Hload|exact Ht].
Defined.

Lemma next_after_le start bound ns :
  start ≤ bound → Forall (λ n, id n < bound) ns → next_after start ns ≤ bound.
Proof.
  intros Hs Hns. revert start Hs. induction Hns as [|n ns Hn Hns IH]; intros start Hs.
  - done.
  - simpl. apply IH. lia.
Qed.

(** X13. Neither [nextId] nor the undo history is written to the file.
    In a reachable world whose descriptions hold no newline, the load of
    the saved file into the empty structure, which is what [main] starts
    with, leaves an empty undo stack and a [nextId] that is recomputed from
    the tasks of the file: the largest of 1 and the identifiers of the list
    plus one.  This is never above the [nextId] of the world saved and can
    be below it, so that the identifier of a task deleted before the save is
    issued again after the next start; an [addTask] that returns in the
    loaded world announces this recomputed [nextId]. *)
Theorem restart_recomputes_nextId (w : world) :
  reachable w →
  ∃ ns, listAll w = Some ns ∧
        saveToFile w true = (Returns [MsgSaved] w, Some (file_text ns)) ∧
        (Forall one_line ns →
         ∃ w', loadFromFile initial (Some (file_text ns)) = Returns [] w' ∧
               deletedStack (data w') = [] ∧
               nextId (data w') = next_after 1 ns ∧
               nextId (data w') ≤ nextId (data w) ∧
               (∀ d p out w'', empty d = false →
                  addTask w' d p = Returns out w'' →
                  out = [MsgAdded (next_after 1 ns)])).
Proof.
  intros Hr. destruct (reachable_Inv w Hr) as (l & sl & HI).
  destruct (listAll_spec _ _ _ HI) as (ns & Hl & Hns).
  exists ns. split_and!; [done| |].
  - unfold saveToFile. by rewrite Hl.
  - intros Hlines.
    destruct (listAll_nodes _ _ _ _ HI Hl) as [Hnodes Hlen].
    destruct (inv_total _ _ _ HI) as [Ht Hmax].
    destruct (load_saved ns initial [] [] Inv_initial Hnodes)
      as (w' & l' & Hload & HI' & Hl' & Hn').
    { simpl. lia. }
    assert (nextId (data w') ≤ nextId (data w)) as Hle.
    { rewrite Hn'. apply next_after_le; [apply (inv_next _ _ _ HI)|].
      apply Forall_forall. intros n Hn.
      assert (task_of n ∈ l.*2) as Hin.
      { rewrite <- Hns. by apply (list_elem_of_fmap_2 task_of). }
      apply list_elem_of_fmap in Hin as ([a t] & Heq & Hin). simpl in Heq.
      destruct (inv_ids _ _ _ HI a t) as [[_ Hlt] _].
      { apply elem_of_app. by left. }
      rewrite <- Heq in Hlt. done. }
    exists w'. split_and!.
    + simpl. by rewrite getlines_saved.
    + by rewrite (inv_stack _ _ _ HI').
    + done.
    + done.
    + intros d p out w'' Hd Hadd. simpl in HI'.
      pose proof (addTask_spec w' l' [] d p HI' Hd) as H. rewrite Hadd in H.
      destruct H as (-> & _). by rewrite Hn'.
Qed.

Lemma restart_recomputes_nextId_witness :
  exec initial [OpAdd "pay rent" 5; OpAdd "call home" 2; OpDelete 2]
  = Some ([MsgAdded 1; MsgAdded 2; MsgDeleted], one_deleted) ∧
  nextId (data one_deleted) = 3 ∧
  ∃ w', loadFromFile initial (Some ("1|pay rent|5|0" +:+ endl)) = Returns [] w' ∧
        nextId (data w') = 2 ∧
        ∀ out w'', addTask w' "water plants" 1 = Returns out w'' →
                   out = [MsgAdded 2].
Proof.
  split; [vm_compute; reflexivity|]. split; [reflexivity|].
  destruct (restart_recomputes_nextId one_deleted) as (ns & Hl & _ & Hrt).
  { exists [OpAdd "pay rent" 5; OpAdd "call home" 2; OpDelete 2],
      [MsgAdded 1; MsgAdded 2; MsgDeleted].
    vm_compute. reflexivity. }
  vm_compute in Hl. injection Hl as <-.
  destruct Hrt as (w' & Hload & _ & Hn & _ & Hadd).
  { repeat constructor. }
  exists w'. split; [exact Hload|]. split; [exact Hn|].
  intros out w'' Ha. exact (Hadd "water plants" 1 out w'' eq_refl Ha).
Defined.

(** *** loadFromFile *)

Lemma appended_refl w l sl : Inv w l sl → appended_to w w.
Proof.
  intros HI. exists l.*2, []. rewrite app_nil_r.
  rewrite (tasks_spec _ _ _ HI). simpl. split_and!; [done..|lia|lia].
Qed.

Lemma load_lines_appends w l sl lines :
  Inv w l sl →
  match load_lines w lines with
  | Returns out w' => out = [] ∧ ∃ l', Inv w' (l ++ l') sl ∧
                                      nextId (data w) ≤ nextId (data w')
  | Throws e w' => ∃ l', Inv w' (l ++ l') sl ∧ nextId (data w) ≤ nextId (data w')
  | Undefined => True
  end.
Proof.
  revert w l. induction lines as [|line rest IH]; intros w l HI.
  - simpl. split; [done|]. exists []. rewrite app_nil_r. split; [done|lia].
  - simpl. pose proof (load_line_inv w l sl line HI) as Hinv.
    destruct (load_line w line) as [out w1|e w1|] eqn:Hline; [| |done].
    + destruct Hinv as (-> & Hle & _).
      destruct (load_line_cases w l sl line [] w1 HI Hline)
        as [->|(tid & a & t & _ & _ & HI1 & _)].
      * by apply IH.
      * specialize (IH w1 _ HI1).
        destruct (load_lines w1 rest) as [out w'|e w'|]; [| |done].
        -- destruct IH as (-> & l' & HI' & Hle'). split; [done|].
           exists ((a, t) :: l'). rewrite <- app_assoc in HI'. split; [done|lia].
        -- destruct IH as (l' & HI' & Hle').
           exists ((a, t) :: l'). rewrite <- app_assoc in HI'. split; [done|lia].
    + subst w1. exists []. rewrite app_nil_r. split; [done|lia].
Qed.

Lemma Inv_appended w w' l l' sl :
  Inv w l sl → Inv w' (l ++ l') sl → nextId (data w) ≤ nextId (data w') →
  appended_to w w'.
Proof.
  intros HI HI' Hle. exists l.*2, l'.*2.
  rewrite (tasks_spec _ _ _ HI), (tasks_spec _ _ _ HI'), fmap_app.
  split_and!; [done|done| | |done].
  - by rewrite (inv_stack _ _ _ HI), (inv_stack _ _ _ HI').
  - destruct (inv_total _ _ _ HI) as [-> _]. destruct (inv_total _ _ _ HI') as [-> _].
    rewrite length_app, length_fmap. lia.
Qed.

(** X14. In a reachable world [loadFromFile] writes nothing to [cout] and
    only appends to the list: when it returns, and also when an exception
    leaves it, the list holds the tasks it held before, in their order,
    followed by the tasks read; the undo stack is as before, [totalTasks]
    has grown by the number of tasks read and [nextId] has not decreased.
    A file that cannot be opened changes nothing. *)
Theorem loadFromFile_appends (w : world) (file : option string) :
  reachable w →
  match loadFromFile w file with
  | Returns out w' => out = [] ∧ appended_to w w'
  | Throws _ w' => appended_to w w'
  | Undefined => True
  end ∧
  (file = None → loadFromFile w file = Returns [] w).
Proof.
  intros Hr. destruct (reachable_Inv w Hr) as (l & sl & HI). split.
  - destruct file as [text|]; simpl.
    + pose proof (load_lines_appends w l sl (getlines EmptyString text) HI) as H.
      destruct (load_lines w _) as [out w'|e w'|]; [| |done].
      * destruct H as (-> & l' & HI' & Hle). split; [done|].
        by eapply Inv_appended.
      * destruct H as (l' & HI' & Hle). by eapply Inv_appended.
    + split; [done|]. by eapply appended_refl.
  - by intros ->.
Qed.

Lemma loadFromFile_appends_witness :
  ∃ w', loadFromFile sample_world (Some bad_second_line)
        = Throws invalid_argument w' ∧
        tasks w' = Some [Task 2 "call home" 1 false; Task 1 "pay rent" 5 true;
                         Task 1 "a" 1 false] ∧
        appended_to sample_world w'.
Proof.
  pose proof (loadFromFile_appends sample_world (Some bad_second_line)) as H.
  destruct (loadFromFile sample_world (Some bad_second_line)) as [out w'|e w'|] eqn:Hl.
  - vm_compute in Hl. discriminate Hl.
  - exists w'. split_and!.
    + vm_compute in Hl. by injection Hl as <- <-.
    + vm_compute in Hl. injection Hl as _ <-. vm_compute. reflexivity.
    + apply H.
      exists sample_ops,
        [MsgAdded 1; MsgAdded 2; MsgMarked 1 true; MsgDeleted; MsgRestored 2].
      vm_compute. reflexivity.
  - vm_compute in Hl. discriminate Hl.
Defined.

(** X15. [loadFromFile] takes the fields of a record as they are.  In a
    reachable world, a line of four fields whose first, third and fourth
    fields [stoi] reads as [i], [p] and [v] is appended as the task with
    identifier [i], the second field as its description, also when that is
    empty, priority [p], also outside 1..5, and completed exactly when [v]
    is not 0; [nextId] becomes the maximum of its value and [i + 1]; and the
    table then holds the new task for [i], also when [i] was in it
    before. *)
Theorem loadFromFile_takes_fields_as_given
    (w : world) (f1 f2 f3 f4 : string) (i p v : Z) :
  reachable w →
  find_from pipe 0 f1 = None → find_from pipe 0 f2 = None →
  find_from pipe 0 f3 = None →
  find_from newline 0 (fields f1 f2 f3 f4) = None →
  stoi f1 = Value i → stoi f3 = Value p → stoi f4 = Value v →
  i < INT_MAX → totalTasks (data w) < INT_MAX →
  ∃ ts w',
    tasks w = Some ts ∧
    loadFromFile w (Some (fields f1 f2 f3 f4 +:+ endl)) = Returns [] w' ∧
    tasks w' = Some (ts ++ [Task i f2 p (negb (v =? 0))]) ∧
    nextId (data w') = Z.max (nextId (data w)) (i + 1) ∧
    totalTasks (data w') = totalTasks (data w) + 1 ∧
    searchTask w' i = Returns [MsgTaskFound i f2 p (negb (v =? 0))] w'.
Proof.
  intros Hr H1 H2 H3 Hnl Hi Hp Hv Hlt Htot.
  destruct (reachable_Inv w Hr) as (l & sl & HI).
  pose proof (insert_record_spec w l sl i f2 p v HI
                (stoi_in_int _ _ Hi) (stoi_in_int _ _ Hp)) as Hins.
  assert (load_line w (fields f1 f2 f3 f4) = insert_record w i f2 p v) as Hline.
  { rewrite load_line_fields by done. by rewrite Hi, Hp, Hv. }
  destruct (insert_record w i f2 p v) as [out w'|e w'|] eqn:Hrec; [|done|lia].
  destruct Hins as (-> & a & _ & HI' & Hmap & Hnext & Htot').
  exists l.*2, w'. split_and!.
  - by apply (tasks_spec _ _ _ HI).
  - simpl. unfold endl.
    rewrite getlines_line by done. rewrite append_empty_l. simpl.
    by rewrite Hline.
  - rewrite (tasks_spec _ _ _ HI'), fmap_app. done.
  - done.
  - done.
  - assert (taskMap (data w') !! i = Some a) as Hm.
    { rewrite Hmap. apply lookup_insert_eq. }
    destruct (searchTask_spec w' _ sl i a HI' Hm) as (t & Hin & _ & Hs).
    assert (t = Task i f2 p (negb (v =? 0))) as ->.
    { apply (Inv_live_unique _ _ _ a _ _ HI' Hin).
      apply elem_of_app. right. apply list_elem_of_here. }
    exact Hs.
Qed.

Lemma loadFromFile_takes_fields_as_given_witness :
  ∃ w',
    loadFromFile sample_world (Some ("1||9|-4" +:+ endl)) = Returns [] w' ∧
    tasks w' = Some [Task 2 "call home" 1 false; Task 1 "pay rent" 5 true;
                     Task 1 "" 9 true] ∧
    searchTask w' 1 = Returns [MsgTaskFound 1 "" 9 true] w'.
Proof.
  destruct (loadFromFile_takes_fields_as_given sample_world "1" "" "9" "-4" 1 9 (-4))
    as (ts & w' & Ht & Hl & Ht' & _ & _ & Hs).
  - exists sample_ops,
      [MsgAdded 1; MsgAdded 2; MsgMarked 1 true; MsgDeleted; MsgRestored 2].
    vm_compute. reflexivity.
  - reflexivity.
  - reflexivity.
  - reflexivity.
  - reflexivity.
  - reflexivity.
  - reflexivity.
  - reflexivity.
  - reflexivity.
  - reflexivity.
  - exists w'. vm_compute in Ht. injection Ht as <-. split_and!; done.
Defined.

(** *** printToOutputFile *)

Lemma output_body_line n :
  one_line n → find_from newline 0 (output_body n) = None.
Proof.
  intros Hn. unfold output_body.
  assert (∀ z, find_from newline 0 (to_string z) = None) as Hz.
  { intros z. by apply to_string_free. }
  repeat (apply find_from_append_none;
          [first [done | by destruct (completed n)]|]).
  done.
Qed.

Lemma getlines_output ns :
  Forall one_line ns → getlines EmptyString (output_text ns) = output_body <$> ns.
Proof.
  induction 1 as [|n ns Hn Hns IH]; [done|]. simpl.
  unfold endl. rewrite append_String, append_empty_l.
  rewrite getlines_line by (by apply output_body_line).
  by rewrite append_empty_l, IH.
Qed.

(** X16. In a reachable world [printToOutputFile] returns; when the file
    cannot be opened it reports that and writes nothing; otherwise it writes
    the lines of the tasks in the order of the list, and when no description
    holds a newline the file has exactly [totalTasks] lines, the line of a
    task being its mark, identifier, description and priority. *)
Theorem printToOutputFile_writes_the_list (w : world) :
  reachable w →
  printToOutputFile w false = Some (MsgOutputFailed, None) ∧
  ∃ ns, listAll w = Some ns ∧
        printToOutputFile w true = Some (MsgOutputWritten, Some (output_text ns)) ∧
        (Forall one_line ns →
         getlines EmptyString (output_text ns) = output_body <$> ns ∧
         Z.of_nat (length (getlines EmptyString (output_text ns)))
         = totalTasks (data w)).
Proof.
  intros Hr. destruct (reachable_Inv w Hr) as (l & sl & HI).
  destruct (listAll_spec _ _ _ HI) as (ns & Hl & Hns).
  split; [done|]. exists ns. split_and!; [done| |].
  - unfold printToOutputFile. by rewrite Hl.
  - intros Hlines. rewrite getlines_output by done. split; [done|].
    destruct (listAll_nodes _ _ _ _ HI Hl) as [_ Hlen].
    destruct (inv_total _ _ _ HI) as [-> _]. rewrite length_fmap. lia.
Qed.

Lemma printToOutputFile_writes_the_list_witness :
  printToOutputFile sample_world true
  = Some (MsgOutputWritten,
          Some ("[ ] 2 - call home (P:1)" +:+ endl
                +:+ "[✓] 1 - pay rent (P:5)" +:+ endl)).
Proof.
  destruct (printToOutputFile_writes_the_list sample_world) as (_ & ns & Hl & Hp & _).
  { exists sample_ops,
      [MsgAdded 1; MsgAdded 2; MsgMarked 1 true; MsgDeleted; MsgRestored 2].
    vm_compute. reflexivity. }
  rewrite Hp. vm_compute in Hl. injection Hl as <-. vm_compute. reflexivity.
Defined.

End ProjectttLaws.

(** ** The [ToDoList] class: further properties of the member functions *)

Module ToDoListLaws.
Import Cxx Linked ToDoList Release ToDoListReports.
Import CxxFacts LinkedFacts ToDoListSpec ReleaseFacts.

(** *** The order of the identifiers *)

Lemma tl_Inv_cell_unique w l a t n :
  Inv w l → (a, t) ∈ l → store w !! a = Some n → t = task_of n.
Proof.
  intros HI Hin Hn.
  destruct (chain_cells _ _ _ _ _ (inv_chain _ _ HI) Hin) as (n0 & Hn0 & Ht).
  simpl in Ht. congruence.
Qed.

(** The node the table points to for [i] is a node of the list, and the
    list splits around it. *)
Lemma tl_entry_split w l i a :
  Inv w l → hashTable (this w) !! i = Some a →
  ∃ n l1 l2,
    store w !! a = Some n ∧ taskId n = i ∧
    l = l1 ++ (a, task_of n) :: l2 ∧
    (∀ t', upd a t' <$> l = l1 ++ (a, t') :: l2).
Proof.
  intros HI Hm. destruct (inv_map _ _ HI i a Hm) as (t & Hin & Hid).
  destruct (chain_cells _ _ _ _ _ (inv_chain _ _ HI) Hin) as (n & Hn & Ht).
  destruct (upd_split l a t (inv_nodup _ _ HI) Hin) as (l1 & l2 & Hl & Hu).
  exists n, l1, l2. subst t. split_and!; done.
Qed.

Lemma tl_tasks_split w l1 a t l2 :
  Inv w (l1 ++ (a, t) :: l2) → tasks w = Some (l1.*2 ++ t :: l2.*2).
Proof. intros HI. rewrite (tl_tasks_spec _ _ HI). by rewrite fmap_app. Qed.

Lemma sorted_lt_middle (l1 l2 : list Z) x :
  StronglySorted Z.lt (l1 ++ x :: l2) →
  StronglySorted Z.lt (l1 ++ l2) ∧ x ∉ l1 ++ l2.
Proof.
  intros H. apply StronglySorted_app in H as (H12 & H1 & H2).
  apply StronglySorted_cons in H2 as [Hx H2]. rewrite Forall_forall in Hx.
  split.
  - apply StronglySorted_app_2; [|done..].
    intros y z Hy Hz. apply H12; [done|]. by apply list_elem_of_further.
  - intros [Hin|Hin]%elem_of_app.
    + specialize (H12 x x Hin (list_elem_of_here _ _)). lia.
    + specialize (Hx x Hin). lia.
Qed.

Lemma Ordered_initial : Ordered initial [].
Proof.
  split_and!.
  - apply tl_Inv_initial.
  - constructor.
  - intros a t Hin. by apply elem_of_nil in Hin.
  - intros a t Hin. by apply elem_of_nil in Hin.
Qed.

Lemma Ordered_add w l desc p out w' :
  Ordered w l → empty desc = false → addTask w desc p = Returns out w' →
  ∃ a, Ordered w' (l ++ [(a, Task (taskCounter (this w)) desc
                               (stored_priority p) false)]).
Proof.
  intros (HI & Hs & Hone & Htot) Hd Hadd.
  destruct (tl_addTask_returns w l desc p out w' HI Hd Hadd)
    as (_ & a & HI' & Hmap & _).
  exists a. split_and!.
  - done.
  - rewrite fmap_app. apply StronglySorted_app_2; [|done|].
    + intros x y Hx Hy. apply list_elem_of_fmap in Hx as ([b t] & -> & Hin).
      apply list_elem_of_singleton in Hy as ->. simpl.
      by apply (inv_ids _ _ HI b t).
    + repeat constructor.
  - intros b t [Hin|Hin]%elem_of_app; [by eapply Hone|].
    apply list_elem_of_singleton in Hin. injection Hin as -> ->. simpl.
    apply (inv_counter _ _ HI).
  - intros b t [Hin|Hin]%elem_of_app.
    + rewrite Hmap, lookup_insert_ne; [by apply Htot|].
      pose proof (inv_ids _ _ HI b t Hin). lia.
    + apply list_elem_of_singleton in Hin. injection Hin as -> ->. simpl.
      rewrite Hmap. apply lookup_insert_eq.
Qed.

Lemma Ordered_delete w l1 a t l2 w' :
  Ordered w (l1 ++ (a, t) :: l2) → Inv w' (l1 ++ l2) →
  hashTable (this w') = delete (task_id t) (hashTable (this w)) →
  Ordered w' (l1 ++ l2) ∧ Forall (λ x, task_id x.2 ≠ task_id t) (l1 ++ l2).
Proof.
  intros (HI & Hs & Hone & Htot) HI' Hmap.
  rewrite fmap_app, fmap_cons in Hs. simpl in Hs.
  apply sorted_lt_middle in Hs as [Hs Hnot].
  assert (Forall (λ x : loc * task, task_id x.2 ≠ task_id t) (l1 ++ l2)) as Hne.
  { apply Forall_forall. intros [b u] Hin Heq. apply Hnot.
    rewrite <- fmap_app. simpl in Heq. rewrite <- Heq.
    by apply (list_elem_of_fmap_2 (λ x : loc * task, task_id x.2) _ (b, u)). }
  split; [|done]. split_and!.
  - done.
  - by rewrite fmap_app.
  - intros b u Hin. apply (Hone b u).
    apply elem_of_app in Hin as [?|?]; apply elem_of_app; [by left|].
    right. by apply list_elem_of_further.
  - intros b u Hin. rewrite Hmap. rewrite Forall_forall in Hne.
    rewrite lookup_delete_ne by (intros Heq; by apply (Hne (b, u) Hin)).
    apply Htot.
    apply elem_of_app in Hin as [?|?]; apply elem_of_app; [by left|].
    right. by apply list_elem_of_further.
Qed.

Lemma Ordered_update w l a n n' :
  Ordered w l → (a, task_of n) ∈ l → store w !! a = Some n →
  ToDoList.next n' = ToDoList.next n → taskId n' = taskId n →
  Ordered (World (<[a := n']> (store w)) (this w)) (upd a (task_of n') <$> l).
Proof.
  intros (HI & Hs & Hone & Htot) Hin Hn Hnx Hid.
  destruct (upd_split l a (task_of n) (inv_nodup _ _ HI) Hin) as (l1 & l2 & Hl & Hu).
  rewrite Hu. split_and!.
  - rewrite <- Hu. by eapply tl_Inv_update.
  - rewrite Hl in Hs. rewrite fmap_app, fmap_cons in Hs |- *. simpl in *.
    by rewrite Hid.
  - intros b u Hb. rewrite Hl in Hone.
    apply elem_of_app in Hb as [Hb|Hb].
    + apply (Hone b u). apply elem_of_app. by left.
    + apply elem_of_cons in Hb as [Hb|Hb].
      * injection Hb as -> ->. simpl. rewrite Hid.
        apply (Hone a (task_of n)). apply elem_of_app. right. apply list_elem_of_here.
      * apply (Hone b u). apply elem_of_app. right. by apply list_elem_of_further.
  - cbn [this]. intros b u Hb. rewrite Hl in Htot.
    apply elem_of_app in Hb as [Hb|Hb].
    + apply (Htot b u). apply elem_of_app. by left.
    + apply elem_of_cons in Hb as [Hb|Hb].
      * injection Hb as -> ->. simpl. rewrite Hid.
        apply (Htot a (task_of n)). apply elem_of_app. right. apply list_elem_of_here.
      * apply (Htot b u). apply elem_of_app. right. by apply list_elem_of_further.
Qed.

Lemma tl_listAll_spec w l :
  Inv w l → ∃ ns, listAll w = Some ns ∧ task_of <$> ns = l.*2.
Proof.
  intros HI.
  destruct (walk_chain (store w) (head (this w)) l (fuel (store w))
              (inv_chain _ _ HI)) as (ns & Hw & Hns).
  { pose proof (tl_Inv_fuel _ _ HI). unfold fuel. lia. }
  by exists ns.
Qed.

(** One call of the menu: the invariant is kept, at most one identifier
    is issued, which is [taskCounter], and the call returns unless a counter
    has reached [INT_MAX]. *)
Lemma tl_step w l o :
  Ordered w l →
  match perform w o with
  | Returns out w' =>
      (∃ l', Ordered w' l') ∧
      (issued out = [] ∧ taskCounter (this w') = taskCounter (this w) ∨
       issued out = [taskCounter (this w)] ∧
       taskCounter (this w') = taskCounter (this w) + 1)
  | Undefined => taskCounter (this w) = INT_MAX ∨ size (this w) = INT_MAX
  end.
Proof.
  intros HO. pose proof HO as (HI & _).
  destruct o as [desc p|i|i|i|i|]; simpl.
  - destruct (empty desc) eqn:Hd.
    + unfold addTask. rewrite Hd. split; [by eauto|by left].
    + pose proof (tl_addTask_spec w l desc p HI Hd) as H.
      destruct (addTask w desc p) as [out w'|] eqn:Hadd; [|done].
      destruct (Ordered_add w l desc p out w' HO Hd Hadd) as (a & HO').
      destruct H as (-> & _ & _ & _ & _ & Hc & _).
      split; [by eauto|]. right. split; [|done].
      by destruct ((p <? 1) || (p >? 5)).
  - destruct (hashTable (this w) !! i) as [a|] eqn:Hm.
    + destruct (tl_deleteTask_spec w l i a HI Hm)
        as (l1 & b & t & l2 & w2 & -> & <- & -> & HI' & Hmap & Hc & _).
      destruct (Ordered_delete w l1 b t l2 w2 HO HI' Hmap) as [HO' _].
      split; [by eauto|by left].
    + unfold deleteTask. cbv zeta. rewrite Hm. split; [by eauto|by left].
  - unfold markComplete.
    destruct (hashTable (this w) !! i) as [a|] eqn:Hm; [|split; [by eauto|by left]].
    destruct (tl_entry_split w l i a HI Hm) as (n & l1 & l2 & Hn & _ & Hl & _).
    rewrite Hn. simpl.
    destruct (completed n); [split; [by eauto|by left]|].
    split; [|by left]. eexists. eapply Ordered_update; [done| |done..].
    rewrite Hl. apply elem_of_app. right. apply list_elem_of_here.
  - unfold markIncomplete.
    destruct (hashTable (this w) !! i) as [a|] eqn:Hm; [|split; [by eauto|by left]].
    destruct (tl_entry_split w l i a HI Hm) as (n & l1 & l2 & Hn & _ & Hl & _).
    rewrite Hn. simpl.
    destruct (negb (completed n)); [split; [by eauto|by left]|].
    split; [|by left]. eexists. eapply Ordered_update; [done| |done..].
    rewrite Hl. apply elem_of_app. right. apply list_elem_of_here.
  - destruct (hashTable (this w) !! i) as [a|] eqn:Hm.
    + destruct (tl_searchTask_spec w l i a HI Hm) as (t & _ & _ & ->).
      split; [by eauto|by left].
    + unfold searchTask. rewrite Hm. split; [by eauto|by left].
  - unfold displayAll. destruct (head (this w)); [|split; [by eauto|by left]].
    destruct (tl_listAll_spec w l HI) as (ns & -> & _). simpl.
    split; [by eauto|]. left. split; [|done].
    simpl. induction ns as [|n ns IH]; [done|]. simpl. exact IH.
Qed.

Lemma tl_exec_ordered w l ops out w' :
  Ordered w l → exec w ops = Some (out, w') →
  (∃ l', Ordered w' l') ∧
  taskCounter (this w) ≤ taskCounter (this w') ∧
  issued out = seqZ (taskCounter (this w))
                 (taskCounter (this w') - taskCounter (this w)).
Proof.
  revert w l out. induction ops as [|o rest IH]; intros w l out HO He.
  - injection He as <- <-. split; [by eauto|]. split; [lia|].
    rewrite Z.sub_diag. done.
  - apply tl_exec_cons in He as (out1 & w1 & out2 & Hp & He & ->).
    pose proof (tl_step w l o HO) as Hstep. rewrite Hp in Hstep.
    destruct Hstep as ((l1 & HO1) & Hissued).
    destruct (IH w1 l1 out2 HO1 He) as (Hl' & Hle & Hout2).
    split; [done|].
    assert (issued (out1 ++ out2) = issued out1 ++ issued out2) as ->.
    { unfold issued. apply omap_app. }
    destruct Hissued as [[-> Hc]|[-> Hc]].
    + rewrite Hc in Hle, Hout2. split; [lia|]. done.
    + rewrite Hc in Hle, Hout2. split; [lia|].
      rewrite Hout2. simpl.
      rewrite (seqZ_cons (taskCounter (this w))) by lia. f_equal. f_equal; lia.
Qed.

Lemma tl_reachable_Ordered w : reachable w → ∃ l, Ordered w l.
Proof.
  intros (ops & out & He).
  by destruct (tl_exec_ordered initial [] ops out w Ordered_initial He) as [? _].
Qed.

Lemma tl_exec_snoc w ops out w1 o out1 w2 :
  exec w ops = Some (out, w1) → perform w1 o = Returns out1 w2 →
  exec w (ops ++ [o]) = Some (out ++ out1, w2).
Proof.
  revert w out. induction ops as [|o' rest IH]; intros w out He Hp.
  - injection He as <- <-. simpl. rewrite Hp. simpl. by rewrite app_nil_r.
  - apply tl_exec_cons in He as (outa & wa & outb & Hpa & He & ->).
    rewrite <- app_comm_cons. apply tl_exec_cons.
    exists outa, wa, (outb ++ out1). split_and!; [done| |by rewrite app_assoc].
    by apply IH.
Qed.

Lemma tl_reachable_step w o out w' :
  reachable w → perform w o = Returns out w' → reachable w'.
Proof.
  intros (ops & out0 & He) Hp. exists (ops ++ [o]), (out0 ++ out).
  by eapply tl_exec_snoc.
Qed.

(** *** The list and the table *)

(** X17. In every reachable world of the class the list and the table
    hold the same tasks: every node of the list is in the table under its
    identifier and every entry of the table is a node of the list with that
    identifier.  The identifiers increase strictly along the list, so they
    are distinct and [displayAll] shows the tasks in the order they were
    added; each lies between 1 and [taskCounter], and [size] is the number
    of tasks. *)
Theorem ToDoList_list_matches_table (w : world) :
  reachable w →
  consistent w ∧
  ∃ ts, tasks w = Some ts ∧
        StronglySorted Z.lt (task_id <$> ts) ∧
        NoDup (task_id <$> ts) ∧
        Forall (λ t, 1 ≤ task_id t < taskCounter (this w)) ts ∧
        size (this w) = Z.of_nat (length ts).
Proof.
  intros Hr. destruct (tl_reachable_Ordered w Hr) as (l & HI & Hs & Hone & Htot).
  assert (task_id <$> l.*2 = (λ x : loc * task, task_id x.2) <$> l) as Hids.
  { rewrite <- list_fmap_compose. done. }
  split.
  - exists l. split_and!; [apply (inv_chain _ _ HI)|done|apply (inv_map _ _ HI)].
  - exists l.*2. split_and!.
    + by apply tl_tasks_spec.
    + by rewrite Hids.
    + rewrite Hids. clear -Hs. induction Hs as [|x r Hr IH Hx]; constructor; [|done].
      intros Hin. rewrite Forall_forall in Hx. specialize (Hx x Hin). lia.
    + apply Forall_forall. intros t Ht.
      apply list_elem_of_fmap in Ht as ([a u] & -> & Hin). simpl. split.
      * by eapply Hone.
      * by apply (inv_ids _ _ HI a u).
    + rewrite length_fmap. apply (inv_size _ _ HI).
Qed.

Lemma ToDoList_list_matches_table_witness :
  tasks sample_world
  = Some [Task 2 "Study for midterm exam" 4 true; Task 3 "Water the plants" 1 false] ∧
  consistent sample_world.
Proof.
  split; [vm_compute; reflexivity|].
  apply (ToDoList_list_matches_table sample_world).
  exists sample_ops, sample_out. vm_compute. reflexivity.
Defined.

(** X18. The identifiers the class issues are 1, 2, 3, ... in the order
    of the calls: after any run of calls from the empty list, the
    identifiers announced by [addTask] are the numbers from 1 to
    [taskCounter - 1] in this order, whatever was deleted in between, so no
    identifier is issued twice. *)
Theorem ToDoList_identifiers_consecutive
    (ops : list op) (out : list message) (w : world) :
  exec initial ops = Some (out, w) →
  issued out = seqZ 1 (taskCounter (this w) - 1) ∧
  1 ≤ taskCounter (this w).
Proof.
  intros He.
  destruct (tl_exec_ordered initial [] ops out w Ordered_initial He) as (_ & Hle & Hout).
  done.
Qed.

Lemma ToDoList_identifiers_consecutive_witness :
  exec initial sample_ops = Some (sample_out, sample_world) ∧
  issued sample_out = seqZ 1 (taskCounter (this sample_world) - 1).
Proof.
  split; [vm_compute; reflexivity|].
  apply (ToDoList_identifiers_consecutive sample_ops sample_out sample_world).
  vm_compute. reflexivity.
Defined.

(** *** Every call of the menu returns *)

(** X19. In a reachable world of the class every call of the menu returns,
    in a reachable world, unless one of the counters has reached [INT_MAX]:
    no call follows a pointer that is not allocated, [deleteTask] reads
    [head] only when the list is not empty, and no loop runs for ever. *)
Theorem ToDoList_calls_return (w : world) (o : op) :
  reachable w →
  match perform w o with
  | Returns _ w' => reachable w'
  | Undefined => taskCounter (this w) = INT_MAX ∨ size (this w) = INT_MAX
  end.
Proof.
  intros Hr. destruct (tl_reachable_Ordered w Hr) as (l & HO).
  pose proof (tl_step w l o HO) as H.
  destruct (perform w o) as [out w'|] eqn:Hp; [|done].
  by eapply tl_reachable_step.
Qed.

Lemma ToDoList_calls_return_witness :
  ∃ w', perform sample_world (OpDelete 3) = Returns [MsgDeleted 3] w' ∧
        reachable w'.
Proof.
  pose proof (ToDoList_calls_return sample_world (OpDelete 3)) as H.
  destruct (perform sample_world (OpDelete 3)) as [out w'|] eqn:Hp.
  - exists w'. split.
    + vm_compute in Hp. injection Hp as <- <-. reflexivity.
    + apply H. exists sample_ops, sample_out. vm_compute. reflexivity.
  - vm_compute in Hp. discriminate Hp.
Defined.

(** *** deleteTask *)

(** X20. [deleteTask] for an identifier that is not in the table reports
    that and changes nothing.  In a reachable world, for an identifier of
    the table it returns, removes the one task with this identifier from the
    list, the other tasks keeping their order, releases its node, removes
    the entry from the table and decrements [size]; [taskCounter] is
    unchanged and above the identifier, so the identifier is not issued
    again; and [searchTask] and a second [deleteTask] for it report that it
    is not found. *)
Theorem ToDoList_deleteTask_removes (w : world) :
  reachable w →
  (∀ j, hashTable (this w) !! j = None →
        deleteTask w j = Returns [MsgNotFound j] w) ∧
  (∀ i a, hashTable (this w) !! i = Some a →
     ∃ ts1 t ts2 w',
       tasks w = Some (ts1 ++ t :: ts2) ∧ task_id t = i ∧
       Forall (λ u, task_id u ≠ i) (ts1 ++ ts2) ∧
       deleteTask w i = Returns [MsgDeleted i] w' ∧
       tasks w' = Some (ts1 ++ ts2) ∧
       store w' !! a = None ∧
       hashTable (this w') = delete i (hashTable (this w)) ∧
       size (this w') = size (this w) - 1 ∧
       taskCounter (this w') = taskCounter (this w) ∧
       i < taskCounter (this w) ∧
       searchTask w' i = Returns [MsgNotFound i] w' ∧
       deleteTask w' i = Returns [MsgNotFound i] w').
Proof.
  intros Hr. destruct (tl_reachable_Ordered w Hr) as (l & HO).
  pose proof HO as (HI & _). split.
  - intros j Hj. unfold deleteTask. cbv zeta. by rewrite Hj.
  - intros i a Hm.
    destruct (tl_deleteTask_spec w l i a HI Hm)
      as (l1 & b & t & l2 & w' & Hl & Hti & Hdel & HI' & Hmap & Hc & Hsz).
    subst l.
    assert (b = a) as ->.
    { destruct HO as (_ & _ & _ & Htot).
      pose proof (Htot b t) as Hb. rewrite Hti, Hm in Hb.
      symmetry. injection Hb as ->; [done|].
      apply elem_of_app. right. apply list_elem_of_here. }
    rewrite <- Hti in Hmap.
    destruct (Ordered_delete w l1 a t l2 w' HO HI' Hmap) as [HO' Hne].
    rewrite Hti in Hmap, Hne.
    assert (hashTable (this w') !! i = None) as Hgone.
    { rewrite Hmap. apply lookup_delete_eq. }
    exists l1.*2, t, l2.*2, w'. split_and!.
    + by apply (tl_tasks_split _ _ a).
    + done.
    + rewrite <- fmap_app. apply Forall_fmap. done.
    + done.
    + rewrite (tl_tasks_spec _ _ HI'). by rewrite fmap_app.
    + apply eq_None_not_Some. intros Hsome.
      apply (inv_dom _ _ HI') in Hsome.
      pose proof (inv_nodup _ _ HI) as Hnd. rewrite fmap_app, fmap_cons in Hnd.
      apply NoDup_remove_middle in Hnd as [_ Hnot]. apply Hnot.
      by rewrite <- fmap_app.
    + done.
    + done.
    + done.
    + rewrite <- Hti. apply (inv_ids _ _ HI a t).
      apply elem_of_app. right. apply list_elem_of_here.
    + unfold searchTask. by rewrite Hgone.
    + unfold deleteTask. cbv zeta. by rewrite Hgone.
Qed.

Lemma ToDoList_deleteTask_removes_witness :
  hashTable (this sample_world) !! 2 = Some 2%positive ∧
  ∃ w', deleteTask sample_world 2 = Returns [MsgDeleted 2] w' ∧
        tasks w' = Some [Task 3 "Water the plants" 1 false] ∧
        searchTask w' 2 = Returns [MsgNotFound 2] w'.
Proof.
  split; [vm_compute; reflexivity|].
  destruct (ToDoList_deleteTask_removes sample_world) as [_ H].
  { exists sample_ops, sample_out. vm_compute. reflexivity. }
  destruct (H 2 2%positive)
    as (ts1 & t & ts2 & w' & _ & _ & _ & Hd & _ & _ & _ & _ & _ & _ & Hs & _).
  { vm_compute. reflexivity. }
  exists w'. split_and!; [done| |done].
  vm_compute in Hd. injection Hd as <-. vm_compute. reflexivity.
Defined.

(** *** markComplete and markIncomplete *)

(** X21. In a reachable world, for an identifier of the table,
    [markComplete] on a completed task and [markIncomplete] on a pending one
    report that the task is in this state already and change nothing;
    otherwise they change the state of the task in its place in the list and
    nothing else, and the opposite call then brings back the world as it
    was. *)
Theorem ToDoList_marks_are_inverse (w : world) (i : Z) (a : loc) :
  reachable w → hashTable (this w) !! i = Some a →
  ∃ ts1 t ts2,
    tasks w = Some (ts1 ++ t :: ts2) ∧ task_id t = i ∧
    (task_completed t = true →
       markComplete w i = Returns [MsgAlreadyComplete i] w ∧
       ∃ w', markIncomplete w i = Returns [MsgMarkedIncomplete i] w' ∧
             tasks w' = Some (ts1 ++ with_completed false t :: ts2) ∧
             this w' = this w ∧
             markComplete w' i = Returns [MsgMarkedComplete i] w) ∧
    (task_completed t = false →
       markIncomplete w i = Returns [MsgAlreadyIncomplete i] w ∧
       ∃ w', markComplete w i = Returns [MsgMarkedComplete i] w' ∧
             tasks w' = Some (ts1 ++ with_completed true t :: ts2) ∧
             this w' = this w ∧
             markIncomplete w' i = Returns [MsgMarkedIncomplete i] w).
Proof.
  intros Hr Hm. destruct (tl_reachable_Inv w Hr) as (l & HI).
  destruct (tl_entry_split w l i a HI Hm) as (n & l1 & l2 & Hn & Hid & Hl & Hu).
  assert (∀ c, completed n = negb c →
            World (<[a := set_completed (negb c) (set_completed c n)]>
                     (<[a := set_completed c n]> (store w))) (this w) = w) as Hback.
  { intros c Hc. destruct w as [m d]. simpl in *. f_equal.
    rewrite insert_insert_eq. apply insert_id. rewrite Hn. f_equal.
    destruct n. simpl in *. by subst. }
  assert (∀ c, tasks (World (<[a := set_completed c n]> (store w)) (this w))
               = Some (l1.*2 ++ with_completed c (task_of n) :: l2.*2)) as Htasks.
  { intros c. apply (tl_tasks_split _ l1 a _ l2). rewrite <- Hu.
    refine (tl_Inv_update w l a (task_of n) n (set_completed c n) HI _ Hn _ _);
      [|done..].
    rewrite Hl. apply elem_of_app. right. apply list_elem_of_here. }
  exists l1.*2, (task_of n), l2.*2. split_and!.
  - subst l. by apply (tl_tasks_split _ _ a).
  - done.
  - simpl. intros Hc. unfold markComplete, markIncomplete.
    rewrite Hm, Hn. simpl. rewrite Hc. simpl. split; [done|].
    eexists. split; [done|]. split; [apply Htasks|]. split; [done|].
    cbn [store this]. rewrite Hm, lookup_insert_eq. simpl.
    f_equal. exact (Hback false Hc).
  - simpl. intros Hc. unfold markComplete, markIncomplete.
    rewrite Hm, Hn. simpl. rewrite Hc. simpl. split; [done|].
    eexists. split; [done|]. split; [apply Htasks|]. split; [done|].
    cbn [store this]. rewrite Hm, lookup_insert_eq. simpl.
    f_equal. exact (Hback true Hc).
Qed.

Lemma ToDoList_marks_are_inverse_witness :
  hashTable (this sample_world) !! 3 = Some 3%positive ∧
  ∃ w', markComplete sample_world 3 = Returns [MsgMarkedComplete 3] w' ∧
        markIncomplete w' 3 = Returns [MsgMarkedIncomplete 3] sample_world.
Proof.
  split; [vm_compute; reflexivity|].
  destruct (ToDoList_marks_are_inverse sample_world 3 3%positive)
    as (ts1 & t & ts2 & Ht & Hid & _ & Hp).
  { exists sample_ops, sample_out. vm_compute. reflexivity. }
  { vm_compute. reflexivity. }
  destruct Hp as (_ & w' & Hmark & _ & _ & Hback).
  { vm_compute in Ht. injection Ht as Ht.
    destruct ts1 as [|u1 [|u2 ts1]]; simpl in Ht.
    - injection Ht as <- _. vm_compute in Hid. discriminate Hid.
    - by injection Ht as _ <- _.
    - injection Ht as _ _ Ht. by destruct ts1. }
  exists w'. split; done.
Defined.

(** *** searchTask *)

(** X22. In a reachable world [searchTask] returns and leaves the world as
    it is.  It reports that the identifier is not found exactly when no
    task of the list has it, and otherwise it shows the description, the
    priority and the state of the one task of the list with this
    identifier. *)
Theorem ToDoList_searchTask_shows_the_listed_task (w : world) (i : Z) :
  reachable w →
  ∃ ts, tasks w = Some ts ∧
    (Forall (λ t, task_id t ≠ i) ts ∧
     searchTask w i = Returns [MsgNotFound i] w
     ∨
     ∃ ts1 t ts2, ts = ts1 ++ t :: ts2 ∧ task_id t = i ∧
       Forall (λ u, task_id u ≠ i) (ts1 ++ ts2) ∧
       searchTask w i =
         Returns [MsgTaskDetails i (task_description t) (task_priority t)
                    (task_completed t)] w).
Proof.
  intros Hr. destruct (tl_reachable_Ordered w Hr) as (l & HO).
  pose proof HO as (HI & Hs & _ & Htot).
  exists l.*2. split; [by apply tl_tasks_spec|].
  destruct (hashTable (this w) !! i) as [a|] eqn:Hm.
  - right. destruct (tl_entry_split w l i a HI Hm) as (n & l1 & l2 & Hn & Hid & Hl & _).
    exists l1.*2, (task_of n), l2.*2. split_and!.
    + rewrite Hl. by rewrite fmap_app.
    + done.
    + rewrite Hl, fmap_app, fmap_cons in Hs. simpl in Hs.
      apply sorted_lt_middle in Hs as [_ Hnot].
      rewrite <- fmap_app. apply Forall_fmap, Forall_forall.
      intros [b u] Hin Heq. apply Hnot. simpl in Heq. rewrite Hid, <- Heq.
      rewrite <- fmap_app.
      by apply (list_elem_of_fmap_2 (λ x : loc * task, task_id x.2) _ (b, u)).
    + unfold searchTask. rewrite Hm, Hn. simpl. by rewrite Hid.
  - left. split.
    + apply Forall_fmap, Forall_forall. intros [b u] Hin Heq. simpl in Heq.
      specialize (Htot b u Hin). rewrite Heq, Hm in Htot. done.
    + unfold searchTask. by rewrite Hm.
Qed.

Lemma ToDoList_searchTask_shows_the_listed_task_witness :
  searchTask sample_world 1 = Returns [MsgNotFound 1] sample_world ∧
  ∃ ts, tasks sample_world = Some ts ∧ Forall (λ t, task_id t ≠ 1) ts.
Proof.
  split; [vm_compute; reflexivity|].
  destruct (ToDoList_searchTask_shows_the_listed_task sample_world 1)
    as (ts & Ht & [[Hall _]|(ts1 & t & ts2 & _ & _ & _ & Hs)]).
  - exists sample_ops, sample_out. vm_compute. reflexivity.
  - exists ts. split; done.
  - vm_compute in Hs. discriminate Hs.
Defined.

(** *** displayAll *)

(** X23. In a reachable world [displayAll] returns and leaves the world as
    it is; it writes the line for an empty list exactly when the list is
    empty, and otherwise the title with the total, which is the number of
    rows that follow, one row for each task in the order of the list, and
    the closing rule. *)
Theorem ToDoList_displayAll_shows_the_list (w : world) :
  reachable w →
  ∃ ns, listAll w = Some ns ∧ tasks w = Some (task_of <$> ns) ∧
        displayAll w =
          Returns (match ns with
                   | [] => [MsgNoTasks]
                   | _ => [MsgListHeader (Z.of_nat (length ns))]
                          ++ map row ns ++ [MsgListFooter]
                   end) w.
Proof.
  intros Hr. destruct (tl_reachable_Inv w Hr) as (l & HI).
  destruct (tl_listAll_spec w l HI) as (ns & Hl & Hns).
  exists ns. split_and!; [done| |].
  - by rewrite (tl_tasks_spec _ _ HI), Hns.
  - unfold displayAll. pose proof (inv_chain _ _ HI) as Hc.
    assert (size (this w) = Z.of_nat (length ns)) as ->.
    { destruct (inv_size _ _ HI) as [-> _].
      by rewrite <- (length_fmap task_of ns), Hns, length_fmap. }
    destruct (head (this w)) as [h|] eqn:Hh.
    + rewrite Hl. simpl. destruct ns as [|n ns']; [|done].
      destruct l as [|[a t] r]; [done|]. done.
    + destruct l as [|[a t] r]; [|by destruct Hc].
      destruct ns; [done|]. done.
Qed.

Lemma ToDoList_displayAll_shows_the_list_witness :
  displayAll sample_world =
    Returns [MsgListHeader 2; MsgTaskRow true 2 "Study for midterm exam" 4;
             MsgTaskRow false 3 "Water the plants" 1; MsgListFooter] sample_world.
Proof.
  destruct (ToDoList_displayAll_shows_the_list sample_world) as (ns & Hl & _ & Hp).
  { exists sample_ops, sample_out. vm_compute. reflexivity. }
  rewrite Hp. vm_compute in Hl. injection Hl as <-. reflexivity.
Defined.

(** *** The filtered listings and the statistics *)

Lemma existsb_filter {A} (test : A → bool) (ns : list A) :
  existsb test ns = match List.filter test ns with [] => false | _ => true end.
Proof.
  induction ns as [|n ns IH]; simpl; [done|].
  destruct (test n); simpl; [done|]. exact IH.
Qed.

Lemma length_filter_split {A} (test : A → bool) (ns : list A) :
  (length (List.filter test ns) + length (List.filter (λ n, negb (test n)) ns)
   = length ns)%nat.
Proof.
  induction ns as [|n ns IH]; simpl; [done|].
  destruct (test n); simpl; lia.
Qed.

Lemma length_filter_le {A} (test : A → bool) (ns : list A) :
  (length (List.filter test ns) ≤ length ns)%nat.
Proof. pose proof (length_filter_split test ns). lia. Qed.

(** The loop of the filtered listings writes the rows of the nodes that
    pass the test, in the order of the list, and counts them. *)
Lemma select_loop_walk test k m p ns found count :
  walk k m p = Some ns → 0 ≤ count →
  count + Z.of_nat (length ns) ≤ INT_MAX →
  select_loop test k m p found count
  = Some (report_row <$> List.filter test ns, found || existsb test ns,
          count + Z.of_nat (length (List.filter test ns))).
Proof.
  revert p ns found count. induction k as [|k IH]; intros p ns found count Hw H0 Hmax.
  - destruct p as [c|]; [discriminate Hw|]. injection Hw as <-. simpl.
    by rewrite orb_false_r, Z.add_0_r.
  - destruct p as [c|].
    + simpl in Hw. destruct (m !! c) as [n|] eqn:Hn; [|done]. simpl in Hw.
      destruct (walk k m (ToDoList.next n)) as [ns'|] eqn:Hw'; [|done].
      simpl in Hw.
      injection Hw as <-. simpl in Hmax. simpl. rewrite Hn. simpl.
      pose proof (length_filter_le test ns').
      destruct (test n) eqn:Ht.
      * rewrite int_add_Some by (unfold INT_MIN, INT_MAX in *; lia).
        simpl. rewrite (IH _ ns' true (count + 1) Hw') by lia. simpl.
        rewrite orb_true_r. do 2 f_equal. lia.
      * simpl. rewrite (IH _ ns' found count Hw') by lia. done.
    + injection Hw as <-. simpl. by rewrite orb_false_r, Z.add_0_r.
Qed.

(** The loop of the statistics counts the completed nodes. *)
Lemma count_completed_walk k m p ns c :
  walk k m p = Some ns → 0 ≤ c → c + Z.of_nat (length ns) ≤ INT_MAX →
  count_completed k m p c
  = Some (c + Z.of_nat (length (List.filter completed ns))).
Proof.
  revert p ns c. induction k as [|k IH]; intros p ns c Hw H0 Hmax.
  - destruct p as [a|]; [discriminate Hw|]. injection Hw as <-. simpl.
    by rewrite Z.add_0_r.
  - destruct p as [a|].
    + simpl in Hw. destruct (m !! a) as [n|] eqn:Hn; [|done]. simpl in Hw.
      destruct (walk k m (ToDoList.next n)) as [ns'|] eqn:Hw'; [|done].
      simpl in Hw.
      injection Hw as <-. simpl in Hmax. simpl. rewrite Hn. simpl.
      pose proof (length_filter_le completed ns').
      destruct (completed n) eqn:Ht.
      * rewrite int_add_Some by (unfold INT_MIN, INT_MAX in *; lia).
        simpl. rewrite (IH _ ns' (c + 1) Hw') by lia. simpl. f_equal. lia.
      * rewrite (IH _ ns' c Hw') by lia. done.
    + injection Hw as <-. simpl. by rewrite Z.add_0_r.
Qed.

Lemma tl_listAll_size w l ns :
  Inv w l → listAll w = Some ns →
  size (this w) = Z.of_nat (length ns) ∧ Z.of_nat (length ns) ≤ INT_MAX.
Proof.
  intros HI Hl. destruct (tl_listAll_spec w l HI) as (ns' & Hl' & Hns).
  rewrite Hl in Hl'. injection Hl' as <-.
  destruct (inv_size _ _ HI) as [Hs Hmax].
  assert (length ns = length l) as Hlen.
  { by rewrite <- (length_fmap task_of ns), Hns, length_fmap. }
  rewrite Hlen. split; [done|lia].
Qed.

(** X24. In a reachable world [displayPending] and [displayCompleted]
    return; between the title and the closing rule each writes the rows of
    the tasks that are pending, respectively completed, in the order of the
    list, followed by their number, or by the line that says there is none
    exactly when there is none; the two numbers add up to [size]. *)
Theorem ToDoList_filtered_listings (w : world) :
  reachable w →
  ∃ ns, listAll w = Some ns ∧
    displayPending w =
      Some ([MsgPendingHeader] ++ (report_row <$> List.filter pending ns)
            ++ match List.filter pending ns with
               | [] => [MsgNoPending]
               | ps => [MsgTotalPending (Z.of_nat (length ps))]
               end ++ [MsgFooter]) ∧
    displayCompleted w =
      Some ([MsgCompletedHeader] ++ (report_row <$> List.filter completed ns)
            ++ match List.filter completed ns with
               | [] => [MsgNoCompleted]
               | cs => [MsgTotalCompleted (Z.of_nat (length cs))]
               end ++ [MsgFooter]) ∧
    Z.of_nat (length (List.filter pending ns))
    + Z.of_nat (length (List.filter completed ns)) = size (this w).
Proof.
  intros Hr. destruct (tl_reachable_Inv w Hr) as (l & HI).
  destruct (tl_listAll_spec w l HI) as (ns & Hl & Hns).
  destruct (tl_listAll_size w l ns HI Hl) as [Hsize Hmax].
  exists ns. split_and!; [done| | |].
  - unfold displayPending.
    rewrite (select_loop_walk _ _ _ _ ns false 0 Hl) by lia. simpl.
    rewrite existsb_filter. fold pending.
    change (List.filter (λ n, negb (completed n)) ns) with (List.filter pending ns).
    by destruct (List.filter pending ns).
  - unfold displayCompleted.
    rewrite (select_loop_walk _ _ _ _ ns false 0 Hl) by lia. simpl.
    rewrite existsb_filter. by destruct (List.filter completed ns).
  - rewrite Hsize. pose proof (length_filter_split completed ns) as H.
    change (List.filter (λ n, negb (completed n)) ns) with (List.filter pending ns) in H.
    lia.
Qed.

Lemma ToDoList_filtered_listings_witness :
  displayPending sample_world
  = Some [MsgPendingHeader; MsgRow false 3 "Water the plants" 1;
          MsgTotalPending 1; MsgFooter] ∧
  displayCompleted sample_world
  = Some [MsgCompletedHeader; MsgRow true 2 "Study for midterm exam" 4;
          MsgTotalCompleted 1; MsgFooter].
Proof.
  destruct (ToDoList_filtered_listings sample_world) as (ns & Hl & Hp & Hc & _).
  { exists sample_ops, sample_out. vm_compute. reflexivity. }
  rewrite Hp, Hc. vm_compute in Hl. injection Hl as <-. split; reflexivity.
Defined.

(** X25. In a reachable world [getStatistics] returns; for an empty list
    it says that there is nothing to show, and otherwise the three numbers
    it writes are the number of tasks of the list, the number of those that
    are completed and the number of those that are pending. *)
Theorem ToDoList_getStatistics_counts (w : world) :
  reachable w →
  ∃ ns, listAll w = Some ns ∧
    getStatistics w =
      Some match ns with
           | [] => [MsgNoStatistics]
           | _ => [MsgStatistics (Z.of_nat (length ns))
                     (Z.of_nat (length (List.filter completed ns)))
                     (Z.of_nat (length (List.filter pending ns)))]
           end.
Proof.
  intros Hr. destruct (tl_reachable_Inv w Hr) as (l & HI).
  destruct (tl_listAll_spec w l HI) as (ns & Hl & Hns).
  destruct (tl_listAll_size w l ns HI Hl) as [Hsize Hmax].
  exists ns. split; [done|]. unfold getStatistics. cbv zeta. rewrite Hsize.
  destruct ns as [|n ns']; [done|].
  assert ((Z.of_nat (length (n :: ns')) =? 0) = false) as ->.
  { apply Z.eqb_neq. simpl. lia. }
  rewrite (count_completed_walk _ _ _ (n :: ns') 0 Hl) by lia. simpl option_bind.
  pose proof (length_filter_split completed (n :: ns')) as H.
  change (List.filter (λ n, negb (completed n)) (n :: ns'))
    with (List.filter pending (n :: ns')) in H.
  cbn [mbind option_bind]. rewrite Z.add_0_l.
  rewrite int_sub_Some by (unfold INT_MIN, INT_MAX in *; lia).
  cbn [mbind option_bind]. do 3 f_equal. lia.
Qed.

Lemma ToDoList_getStatistics_counts_witness :
  getStatistics sample_world = Some [MsgStatistics 2 1 1].
Proof.
  destruct (ToDoList_getStatistics_counts sample_world) as (ns & Hl & Hs).
  { exists sample_ops, sample_out. vm_compute. reflexivity. }
  rewrite Hs. vm_compute in Hl. injection Hl as <-. reflexivity.
Defined.

(** *** The destructor *)

(** X26. In a reachable world the destructor releases every node that is
    allocated, each of them once, and leaves an empty store: a deleted node
    was released by [deleteTask], and the list holds all the others. *)
Theorem ToDoList_destructor_releases_every_node (w : world) :
  reachable w → destructor w = Some ∅.
Proof.
  intros Hr. destruct (tl_reachable_Inv w Hr) as (l & HI).
  destruct (free_chain_chain (store w) (head (this w)) l (fuel (store w)))
    as (m' & Hf & Hm').
  { apply (inv_chain _ _ HI). }
  { apply (inv_nodup _ _ HI). }
  { pose proof (tl_Inv_fuel _ _ HI). unfold fuel. lia. }
  unfold destructor. rewrite Hf. f_equal. apply map_eq. intros a.
  rewrite lookup_empty, Hm'. destruct (decide (a ∈ l.*1)) as [|Hnl]; [done|].
  apply eq_None_not_Some. intros Hsome. by apply (inv_dom _ _ HI) in Hsome.
Qed.

Lemma ToDoList_destructor_releases_every_node_witness :
  base.size (store sample_world) = 2%nat ∧ destructor sample_world = Some ∅.
Proof.
  split; [vm_compute; reflexivity|].
  apply (ToDoList_destructor_releases_every_node sample_world).
  exists sample_ops, sample_out. vm_compute. reflexivity.
Defined.

End ToDoListLaws.
